(** * SLIX peak analysis: a shallow embedding of the per-pixel kernels

    The development follows the two source files of the repository:

    - [SLIX/SLIX_GPU/_toolbox.py], the GPU kernels.  One CUDA thread
      handles one pixel, so each kernel is embedded as a function of
      the per-pixel slices ([sub_image], [sub_peak_array], ...).
    - [Python/Library/ScatterPlotToolbox.py], the CPU library; the body
      of the per-ROI loop of [crossing_direction_array_from_roiset] is
      embedded as a function of the peak list returned by
      [scipy.signal.find_peaks].

    Conventions of the model.

    - Python integers are [Z]; [//] and [%] with a positive divisor are
      [Z.div] and [Z.modulo].
    - float32 samples are exact rationals ([Q]); rounding is outside the
      model.  A float division whose divisor is zero does not produce a
      finite number and is reported as the fault [NotFinite].
    - arrays are lists; a read or write outside the array is the fault
      [OutOfBounds].  Negative indices wrap once, as in Python and
      Numba. *)

From Stdlib Require Import ZArith QArith Qround Qabs Lia Lqa List.
From stdpp Require Import base list.
Import ListNotations.

Open Scope Z_scope.

(** Rational arithmetic stays folded under [simpl]. *)
#[local] Arguments Qplus : simpl never.
#[local] Arguments Qminus : simpl never.
#[local] Arguments Qmult : simpl never.
#[local] Arguments Qdiv : simpl never.
#[local] Arguments Qopp : simpl never.
#[local] Arguments Qinv : simpl never.
#[local] Arguments Qabs : simpl never.
#[local] Arguments Qfloor : simpl never.
#[local] Arguments Qle_bool : simpl never.
#[local] Arguments Qeq_bool : simpl never.
#[local] Arguments inject_Z : simpl never.

(** ** Faults and the error monad *)

Inductive fault : Type :=
| OutOfBounds
| NotFinite
| OutOfFuel.

Definition run (A : Type) : Type := (fault + A)%type.

Definition ret {A} (a : A) : run A := inr a.
Definition raise {A} (f : fault) : run A := inl f.

Definition bind {A B} (m : run A) (k : A -> run B) : run B :=
  match m with
  | inl f => inl f
  | inr a => k a
  end.

Notation "'let*' x ':=' m 'in' k" := (bind m (fun x => k))
  (at level 10, x name, m at level 200, k at level 200).

(** Loop control: the body of a [for] loop either goes on or executes
    [break]. *)
Inductive ctl (S : Type) : Type :=
| Continue (s : S)
| Break (s : S).
Arguments Continue {S} s.
Arguments Break {S} s.

(** [for i in range: body], with [break]. *)
Fixpoint for_range {S} (body : Z -> S -> run (ctl S)) (range : list Z) (s : S)
  : run S :=
  match range with
  | [] => ret s
  | i :: range' =>
      let* c := body i s in
      match c with
      | Break s' => ret s'
      | Continue s' => for_range body range' s'
      end
  end.

(** [for i in range: body], without [break]. *)
Fixpoint for_each {S} (body : Z -> S -> run S) (range : list Z) (s : S)
  : run S :=
  match range with
  | [] => ret s
  | i :: range' => let* s' := body i s in for_each body range' s'
  end.

(** A kernel that stores one value at every position of its output:
    [for pos in range: result[pos] = f pos]. *)
Fixpoint fill {A} (f : Z -> run A) (range : list Z) : run (list A) :=
  match range with
  | [] => ret []
  | pos :: range' =>
      let* x := f pos in
      let* xs := fill f range' in
      ret (x :: xs)
  end.

(** ** Arrays *)

Definition len {A} (a : list A) : Z := Z.of_nat (length a).

(** [a[i]]: indices [0 .. len-1] and, wrapped, [-len .. -1]. *)
Definition rd {A} (a : list A) (i : Z) : run A :=
  let j := if i <? 0 then i + len a else i in
  if (0 <=? j) && (j <? len a) then
    match a !! Z.to_nat j with
    | Some x => ret x
    | None => raise OutOfBounds
    end
  else raise OutOfBounds.

(** [a[i] = v] *)
Definition wr {A} (a : list A) (i : Z) (v : A) : run (list A) :=
  let j := if i <? 0 then i + len a else i in
  if (0 <=? j) && (j <? len a) then ret (<[Z.to_nat j := v]> a)
  else raise OutOfBounds.

(** ** Float operations on the rational model *)

Definition Qlt_b (x y : Q) : bool := negb (Qle_bool y x).

(** [x / y] on floats. *)
Definition fdiv (x y : Q) : run Q :=
  if Qeq_bool y 0 then raise NotFinite else ret (x / y)%Q.

(** [x % m] on floats, for a positive [m]: the result has the sign of
    the divisor. *)
Definition pymod (x m : Q) : Q :=
  (x - m * inject_Z (Qfloor (x / m)))%Q.

(** [max(x, y)] *)
Definition pymax (x y : Q) : Q := if Qlt_b x y then y else x.

(** ** Constants of [_toolbox.py] *)

Definition BACKGROUND_COLOR : Q := inject_Z (-1).
Definition MAX_DISTANCE_FOR_CENTROID_ESTIMATION : Z := 3.
Definition NUMBER_OF_SAMPLES : Z := 100.
Definition TARGET_PEAK_HEIGHT : Q := 94 # 100.
Definition TARGET_PROMINENCE : Q := 8 # 100.

(** * The GPU kernels *)

Module Gpu.

(** [(i + sub_centroid_array[i]) * 360.0 / len(sub_peak_array)] *)
Definition angle_of (n : Z) (i : Z) (c : Q) : Q :=
  ((inject_Z i + c) * 360 / inject_Z n)%Q.

(** The partner search shared by [_peakdistance] and [_direction]:
<<
    while right_side_peak > 0 and current_position < len(sub_peak_array):
        current_position = current_position + 1
        if sub_peak_array[current_position] == 1:
            right_side_peak = right_side_peak - 1
>>
    [d] is the distance [len - current_position], on which the loop
    terminates. *)
Fixpoint walk_right (sub_peak_array : list Z) (d : nat)
  (current_position right_side_peak : Z) : run (Z * Z) :=
  match d with
  | O => ret (current_position, right_side_peak)
  | S d' =>
      if 0 <? right_side_peak then
        let current_position := current_position + 1 in
        let* pk := rd sub_peak_array current_position in
        walk_right sub_peak_array d' current_position
          (if pk =? 1 then right_side_peak - 1 else right_side_peak)
      else ret (current_position, right_side_peak)
  end.

Definition find_partner (sub_peak_array : list Z) (i right_side_peak : Z)
  : run (Z * Z) :=
  walk_right sub_peak_array (Z.to_nat (len sub_peak_array - i)) i right_side_peak.

(** *** [_direction] *)

Definition direction_body (sub_peak_array : list Z) (sub_centroid_array : list Q)
  (current_number_of_peaks : Z) (i : Z) (st : Z * list Q)
  : run (ctl (Z * list Q)) :=
  let '(current_direction, result) := st in
  let* pk := rd sub_peak_array i in
  if pk =? 1 then
    let* c := rd sub_centroid_array i in
    let left := angle_of (len sub_peak_array) i c in
    if current_number_of_peaks =? 1 then
      let* result := wr result current_direction (pymod (270 - left) 180) in
      ret (Break (current_direction, result))
    else if current_number_of_peaks mod 2 =? 0 then
      let* found :=
        find_partner sub_peak_array i (current_number_of_peaks / 2) in
      let '(current_position, right_side_peak) := found in
      let* result :=
        if right_side_peak =? 0 then
          let* c' := rd sub_centroid_array current_position in
          let right := angle_of (len sub_peak_array) current_position c' in
          if (current_number_of_peaks =? 2)
             || Qlt_b (Qabs (180 - (right - left))) 35
          then wr result current_direction
                 (pymod (270 - (left + right) / 2) 180)
          else ret result
        else ret result in
      let current_direction := current_direction + 1 in
      if current_direction =? current_number_of_peaks / 2
      then ret (Break (current_direction, result))
      else ret (Continue (current_direction, result))
    else ret (Continue st)
  else ret (Continue st).

(** One pixel of [_direction]; the value is [result_image[idx, idy, :]],
    of length [num_directions]. *)
Definition _direction (sub_peak_array : list Z) (sub_centroid_array : list Q)
  (current_number_of_peaks : Z) (num_directions : nat) : run (list Q) :=
  let result := replicate num_directions BACKGROUND_COLOR in
  if current_number_of_peaks / 2 <=? Z.of_nat num_directions then
    let* st := for_range
                 (direction_body sub_peak_array sub_centroid_array
                    current_number_of_peaks)
                 (seqZ 0 (len sub_peak_array)) (0, result) in
    ret (snd st)
  else ret result.

(** *** [_peakdistance] *)

Definition peakdistance_body (sub_peak_array : list Z)
  (sub_centroid_array : list Q) (current_number_of_peaks : Z) (i : Z)
  (st : Z * list Q) : run (ctl (Z * list Q)) :=
  let '(current_pair, result) := st in
  let* pk := rd sub_peak_array i in
  if pk =? 1 then
    if current_number_of_peaks =? 1 then
      let* result := wr result i 360%Q in
      ret (Break (current_pair, result))
    else
      let* st :=
        if current_number_of_peaks mod 2 =? 0 then
          let* c := rd sub_centroid_array i in
          let left := angle_of (len sub_peak_array) i c in
          let* found :=
            find_partner sub_peak_array i (current_number_of_peaks / 2) in
          let '(current_position, right_side_peak) := found in
          let* result :=
            if 0 <? right_side_peak then wr result i 0%Q
            else
              let* c' := rd sub_centroid_array current_position in
              let right := angle_of (len sub_peak_array) current_position c' in
              let* result := wr result i (right - left)%Q in
              wr result current_position (360 - (right - left))%Q in
          ret (current_pair + 1, result)
        else ret st in
      if fst st =? current_number_of_peaks / 2
      then ret (Break st) else ret (Continue st)
  else ret (Continue st).

(** One pixel of [_peakdistance]; [result] is the slice
    [result_image[idx, idy]] as the caller allocated it. *)
Definition _peakdistance (sub_peak_array : list Z) (sub_centroid_array : list Q)
  (current_number_of_peaks : Z) (result : list Q) : run (list Q) :=
  let* st := for_range
               (peakdistance_body sub_peak_array sub_centroid_array
                  current_number_of_peaks)
               (seqZ 0 (len sub_peak_array)) (0, result) in
  ret (snd st).

(** *** [_prominence] *)

(** [i_min <= i] for [i_min = -len(sub_peak_array) / 2] (a float). *)
Definition above_i_min (n i : Z) : bool := - n <=? 2 * i.
(** [i <= i_max] for [i_max = int(len(sub_peak_array) * 1.5)]. *)
Definition below_i_max (n i : Z) : bool := i <=? (3 * n) / 2.

(** The left scan:
<<
    while i_min <= i and sub_image[i] <= sub_image[pos] and wlen > 0:
        if sub_image[i] < left_min: left_min = sub_image[i]
        i -= 1; wlen -= 1
>> *)
Fixpoint prominence_left (sub_image : list Q) (n : Z) (vp : Q) (wlen : nat)
  (i : Z) (left_min : Q) : run Q :=
  if above_i_min n i then
    let* x := rd sub_image i in
    if Qle_bool x vp then
      match wlen with
      | O => ret left_min
      | S wlen' =>
          prominence_left sub_image n vp wlen' (i - 1)
            (if Qlt_b x left_min then x else left_min)
      end
    else ret left_min
  else ret left_min.

(** The right scan, which indexes with [i % len(sub_peak_array)]. *)
Fixpoint prominence_right (sub_image : list Q) (n : Z) (vp : Q) (wlen : nat)
  (i : Z) (right_min : Q) : run Q :=
  if below_i_max n i then
    let* x := rd sub_image (i mod n) in
    if Qle_bool x vp then
      match wlen with
      | O => ret right_min
      | S wlen' =>
          prominence_right sub_image n vp wlen' (i + 1)
            (if Qlt_b x right_min then x else right_min)
      end
    else ret right_min
  else ret right_min.

Definition prominence_at (sub_image : list Q) (sub_peak_array : list Z)
  (pos : Z) : run Q :=
  let* pk := rd sub_peak_array pos in
  if pk =? 1 then
    let n := len sub_peak_array in
    let* vp := rd sub_image pos in
    let* left_min :=
      prominence_left sub_image n vp (Z.to_nat (n - 1)) pos vp in
    let* right_min :=
      prominence_right sub_image n vp (Z.to_nat (n - 1)) pos vp in
    ret (vp - pymax left_min right_min)%Q
  else ret 0%Q.

(** One pixel of [_prominence]: every position of the result slice is
    stored once. *)
Definition _prominence (sub_image : list Q) (sub_peak_array : list Z)
  : run (list Q) :=
  fill (prominence_at sub_image sub_peak_array) (seqZ 0 (len sub_peak_array)).

(** *** [_peakwidth] *)

(** [while i_min < i and height < sub_image[i]: i -= 1] *)
Fixpoint width_left (sub_image : list Q) (n : Z) (height : Q) (fuel : nat)
  (i : Z) : run Z :=
  if - n <? 2 * i then
    let* x := rd sub_image i in
    if Qlt_b height x then
      match fuel with
      | O => raise OutOfFuel
      | S fuel' => width_left sub_image n height fuel' (i - 1)
      end
    else ret i
  else ret i.

(** [while i < i_max and height < sub_image[i]: i += 1] *)
Fixpoint width_right (sub_image : list Q) (n : Z) (height : Q) (fuel : nat)
  (i : Z) : run Z :=
  if i <? (3 * n) / 2 then
    let* x := rd sub_image i in
    if Qlt_b height x then
      match fuel with
      | O => raise OutOfFuel
      | S fuel' => width_right sub_image n height fuel' (i + 1)
      end
    else ret i
  else ret i.

Definition peakwidth_at (sub_image : list Q) (sub_peak_array : list Z)
  (sub_prominence : list Q) (target_height : Q) (pos : Z) : run Q :=
  let* pk := rd sub_peak_array pos in
  if pk =? 1 then
    let n := len sub_peak_array in
    let fuel := Z.to_nat (2 * n) in
    let* vp := rd sub_image pos in
    let* pr := rd sub_prominence pos in
    let height := (vp - pr * target_height)%Q in
    let* i := width_left sub_image n height fuel pos in
    let* x := rd sub_image i in
    let* left_ip :=
      if Qlt_b x height then
        let* x1 := rd sub_image (i + 1) in
        let* d := fdiv (height - x) (x1 - x) in
        ret (inject_Z i + d)%Q
      else ret (inject_Z i) in
    let* i := width_right sub_image n height fuel pos in
    let* x := rd sub_image i in
    let* right_ip :=
      if Qlt_b x height then
        let* x1 := rd sub_image (i - 1) in
        let* d := fdiv (height - x) (x1 - x) in
        ret (inject_Z i - d)%Q
      else ret (inject_Z i) in
    ret (right_ip - left_ip)%Q
  else ret 0%Q.

Definition _peakwidth (sub_image : list Q) (sub_peak_array : list Z)
  (sub_prominence : list Q) (target_height : Q) : run (list Q) :=
  fill (peakwidth_at sub_image sub_peak_array sub_prominence target_height)
    (seqZ 0 (len sub_peak_array)).

(** *** [_centroid_correction_bases] *)

(** [max_pos], the largest sample above 0. *)
Definition image_maximum (sub_image : list Q) : Q :=
  fold_left (fun max_pos x => if Qlt_b max_pos x then x else max_pos)
    sub_image 0%Q.

(** The loops that shrink a base to the first sample below the target
    height:
<<
    for offset in range(position):
        if sub_image[index offset] < target_peak_height:
            position = offset
            break
>> *)
Definition shrink_base (sub_image : list Q) (index : Z -> Z)
  (target_peak_height : Q) (position : Z) : run Z :=
  for_range
    (fun offset position =>
       let* x := rd sub_image (index offset) in
       if Qlt_b x target_peak_height then ret (Break offset)
       else ret (Continue position))
    (seqZ 0 position) position.

Definition centroid_correction_bases_at (sub_image : list Q)
  (sub_peaks sub_reverse_peaks : list Z) (pos : Z) : run (Z * Z) :=
  let max_pos := image_maximum sub_image in
  let* pk := rd sub_peaks pos in
  if pk =? 1 then
    let* vp := rd sub_image pos in
    let target_peak_height :=
      pymax 0 (vp - max_pos * (1 - TARGET_PEAK_HEIGHT))%Q in
    let* positions :=
      for_each
        (fun offset positions =>
           let* l := rd sub_reverse_peaks (pos - offset) in
           let* r := rd sub_reverse_peaks
                       ((pos + offset) mod len sub_reverse_peaks) in
           ret (if l =? 1 then offset else fst positions,
                if r =? 1 then offset else snd positions))
        (seqZ 1 (MAX_DISTANCE_FOR_CENTROID_ESTIMATION - 1))
        (MAX_DISTANCE_FOR_CENTROID_ESTIMATION,
         MAX_DISTANCE_FOR_CENTROID_ESTIMATION) in
    let* left_position :=
      shrink_base sub_image (fun offset => pos - offset) target_peak_height
        (Z.abs (fst positions)) in
    let* right_position :=
      shrink_base sub_image (fun offset => (pos + offset) mod len sub_image)
        target_peak_height (snd positions) in
    ret (left_position, right_position)
  else ret (0, 0).

(** One pixel of [_centroid_correction_bases]: the left and the right
    bases. *)
Definition _centroid_correction_bases (sub_image : list Q)
  (sub_peaks sub_reverse_peaks : list Z) : run (list Z * list Z) :=
  let* bases :=
    fill (centroid_correction_bases_at sub_image sub_peaks sub_reverse_peaks)
      (seqZ 0 (len sub_peaks)) in
  ret (map fst bases, map snd bases).

(** *** [_centroid] *)

(** The loop over [interp in range(NUMBER_OF_SAMPLES+1)] for one unit
    interval [x]. *)
Definition centroid_samples (threshold : Q) (x : Z) (img_pixel next_img_pixel : Q)
  (sums : Q * Q) : Q * Q :=
  fold_left
    (fun '(centroid_sum_top, centroid_sum_bottom) interp =>
       let step := (inject_Z interp / inject_Z NUMBER_OF_SAMPLES)%Q in
       let func_val := (img_pixel + (next_img_pixel - img_pixel) * step)%Q in
       if Qlt_b threshold func_val
       then ((centroid_sum_top + (inject_Z x + step) * func_val)%Q,
             (centroid_sum_bottom + func_val)%Q)
       else (centroid_sum_top, centroid_sum_bottom))
    (seqZ 0 (NUMBER_OF_SAMPLES + 1)) sums.

Definition centroid_at (sub_image : list Q) (sub_peaks : list Z)
  (sub_left_bases sub_right_bases : list Z) (pos : Z) : run Q :=
  let* pk := rd sub_peaks pos in
  if pk =? 1 then
    let* lb := rd sub_left_bases pos in
    let* rb := rd sub_right_bases pos in
    let* sums :=
      for_each
        (fun x sums =>
           let* img_pixel := rd sub_image ((pos + x) mod len sub_image) in
           let* next_img_pixel :=
             rd sub_image ((pos + x + 1) mod len sub_image) in
           ret (centroid_samples (inject_Z pk * TARGET_PEAK_HEIGHT) x
                  img_pixel next_img_pixel sums))
        (seqZ (- lb) (rb - - lb)) (0%Q, 0%Q) in
    let* centroid := fdiv (fst sums) (snd sums) in
    let centroid := if Qlt_b 1 centroid then 1%Q else centroid in
    let centroid := if Qlt_b centroid (-1) then (-1)%Q else centroid in
    ret centroid
  else ret 0%Q.

Definition _centroid (sub_image : list Q) (sub_peaks : list Z)
  (sub_left_bases sub_right_bases : list Z) : run (list Q) :=
  fill (centroid_at sub_image sub_peaks sub_left_bases sub_right_bases)
    (seqZ 0 (len sub_peaks)).

(** *** [_peak_cleanup]

    The kernel works on a store of two arrays: its input slice
    [sub_peak_array], which it overwrites, and [resulting_peaks]. *)

(** The inner loop, which clears a run of ones after [pos]:
<<
    while sub_peak_array[(pos + offset) % len(sub_peak_array)] == 1:
        resulting_peaks[idx, idy, (pos + offset) % len(sub_peak_array)] = 0
        sub_peak_array[(pos + offset) % len(sub_peak_array)] = 0
        offset = offset + 1
>> *)
Fixpoint cleanup_run (fuel : nat) (pos offset : Z)
  (sub_peak_array resulting_peaks : list Z) : run (Z * (list Z * list Z)) :=
  let n := len sub_peak_array in
  let* pk := rd sub_peak_array ((pos + offset) mod n) in
  if pk =? 1 then
    match fuel with
    | O => raise OutOfFuel
    | S fuel' =>
        let* resulting_peaks := wr resulting_peaks ((pos + offset) mod n) 0 in
        let* sub_peak_array := wr sub_peak_array ((pos + offset) mod n) 0 in
        cleanup_run fuel' pos (offset + 1) sub_peak_array resulting_peaks
    end
  else ret (offset, (sub_peak_array, resulting_peaks)).

Fixpoint cleanup_loop (fuel : nat) (pos : Z)
  (sub_peak_array resulting_peaks : list Z) : run (list Z * list Z) :=
  let n := len sub_peak_array in
  if pos <? n then
    match fuel with
    | O => raise OutOfFuel
    | S fuel' =>
        let* pk := rd sub_peak_array pos in
        if pk =? 1 then
          let* sub_peak_array := wr sub_peak_array pos 0 in
          let* r := cleanup_run (length sub_peak_array) pos 1
                      sub_peak_array resulting_peaks in
          let '(offset, (sub_peak_array, resulting_peaks)) := r in
          let* resulting_peaks :=
            wr resulting_peaks ((pos + (offset - 1) / 2) mod n) 1 in
          cleanup_loop fuel' (pos + offset) sub_peak_array resulting_peaks
        else
          let* resulting_peaks := wr resulting_peaks pos 0 in
          cleanup_loop fuel' (pos + 1) sub_peak_array resulting_peaks
    end
  else ret (sub_peak_array, resulting_peaks).

(** One pixel of [_peak_cleanup]: the final contents of the input slice
    and of the result slice. *)
Definition _peak_cleanup (sub_peak_array resulting_peaks : list Z)
  : run (list Z * list Z) :=
  cleanup_loop (length sub_peak_array) 0 sub_peak_array resulting_peaks.

End Gpu.

(** * The CPU library *)

Module Cpu.

(** [peaks[(peaks >= z//2) & (peaks <= len(roi)-z//2)]] *)
Definition cut (z roi_len : Z) (peaks : list Z) : list Z :=
  List.filter (fun p => (z / 2 <=? p) && (p <=? roi_len - z / 2)) peaks.

Definition isin (x : Z) (peaks : list Z) : bool := existsb (Z.eqb x) peaks.

(** The peaks kept for one ROI and their number, from the indices
    [found] returned by [find_peaks]. *)
Definition surviving (roi_len : Z) (cut_edges : bool) (found : list Z)
  : list Z * Z :=
  let z := roi_len / 2 in
  if cut_edges then
    let peaks := cut z roi_len found in
    let peaks :=
      if isin (z / 2) peaks && isin (roi_len - z / 2) peaks
      then tail peaks else peaks in
    (peaks, len (cut z roi_len peaks))
  else (found, len found).

(** [(270 - a) % 180] *)
Definition single (a : Q) : Q := pymod (270 - a) 180.
(** [(270 - ((b + a) / 2.0)) % 180] *)
Definition midpoint (b a : Q) : Q := pymod (270 - (b + a) / 2) 180.
(** [numpy.abs((a - b) - 180) < 35] *)
Definition opposite (a b : Q) : bool := Qlt_b (Qabs ((a - b) - 180)) 35.

(** The body of the loop of [crossing_direction_array_from_roiset] for
    one ROI; the value is the row [peak_array[i]], two slots. *)
Definition crossing_direction (roi_len : Z) (cut_edges : bool) (found : list Z)
  : run (Q * Q) :=
  let z := roi_len / 2 in
  let '(peaks, amount_of_peaks) := surviving roi_len cut_edges found in
  let* scale := fdiv 360 (inject_Z z) in
  let peaks := map (fun p => (inject_Z (p - z / 2) * scale)%Q) peaks in
  if amount_of_peaks =? 1 then
    let* p0 := rd peaks 0 in
    ret (single p0, single p0)
  else if amount_of_peaks =? 2 then
    let* p0 := rd peaks 0 in
    let* p1 := rd peaks 1 in
    ret (midpoint p1 p0, midpoint p1 p0)
  else if amount_of_peaks =? 3 then
    let* p0 := rd peaks 0 in
    let* p1 := rd peaks 1 in
    let* p2 := rd peaks 2 in
    if opposite p0 p2 then ret (midpoint p2 p0, single p1)
    else if opposite p1 p0 then ret (midpoint p1 p0, single p2)
    else if opposite p1 p2 then ret (midpoint p1 p2, single p0)
    else ret (BACKGROUND_COLOR, BACKGROUND_COLOR)
  else if amount_of_peaks =? 4 then
    let* p0 := rd peaks 0 in
    let* p1 := rd peaks 1 in
    let* p2 := rd peaks 2 in
    let* p3 := rd peaks 3 in
    let slot1 := if opposite p3 p1 then midpoint p3 p1 else BACKGROUND_COLOR in
    if opposite p2 p0 then ret (midpoint p2 p0, slot1)
    else ret (BACKGROUND_COLOR, BACKGROUND_COLOR)
  else ret (BACKGROUND_COLOR, BACKGROUND_COLOR).

(** The body of the loop of [non_crossing_direction_array_from_roiset]
    for one ROI; the value is the entry [peak_array[i]]. *)
Definition non_crossing_direction (roi_len : Z) (cut_edges : bool)
  (found : list Z) : run Q :=
  let z := roi_len / 2 in
  let '(peaks, amount_of_peaks) := surviving roi_len cut_edges found in
  let* scale := fdiv 360 (inject_Z z) in
  let peaks := map (fun p => (inject_Z (p - z / 2) * scale)%Q) peaks in
  if amount_of_peaks =? 1 then
    let* p0 := rd peaks 0 in
    ret (single p0)
  else if amount_of_peaks =? 2 then
    let* p0 := rd peaks 0 in
    let* p1 := rd peaks 1 in
    ret (midpoint p1 p0)
  else ret BACKGROUND_COLOR.

(** Slices of a one-dimensional array: [a[start:]] and [a[:stop]].  A
    negative bound counts from the end and is clipped at the start of
    the array. *)
Definition slice_from {A} (a : list A) (start : Z) : list A :=
  let start := if start <? 0 then Z.max 0 (len a + start) else start in
  drop (Z.to_nat start) a.

Definition slice_to {A} (a : list A) (stop : Z) : list A :=
  let stop := if stop <? 0 then Z.max 0 (len a + stop) else stop in
  take (Z.to_nat stop) a.

(** The extension of a profile in [zaxis_roiset] and
    [zaxis_from_imagej_roiset]:
    [numpy.concatenate((roi[-z//2:], roi, roi[:z//2]))], where [-z//2]
    is [(-z) // 2]. *)
Definition extend_profile {A} (roi : list A) : list A :=
  let z := len roi in
  slice_from roi (- z / 2) ++ roi ++ slice_to roi (z / 2).

(** One pixel of [create_background_mask]:
    [numpy.all(IMAGE < threshold, axis=-1)]. *)
Definition create_background_mask (profile : list Q) (threshold : Q) : bool :=
  forallb (fun x => Qlt_b x threshold) profile.

End Cpu.

(** * The vocabulary of the properties *)

(** ** Peaks of a pixel *)

(** [sub_peak_array[i] == 1] *)
Definition is_peak (a : list Z) (i : Z) : bool :=
  match rd a i with
  | inr pk => pk =? 1
  | inl _ => false
  end.

(** The surviving peaks of a pixel, ascending: the positions of the
    ones of its peak array. *)
Definition peak_positions (a : list Z) : list Z :=
  List.filter (is_peak a) (seqZ 0 (len a)).

(** The peaks strictly after position [cur]. *)
Definition peaks_after (a : list Z) (cur : Z) : list Z :=
  List.filter (is_peak a) (seqZ (cur + 1) (len a - cur - 1)).

(** The peak array of length [n] with ones at the positions [ps]. *)
Definition flags (n : Z) (ps : list Z) : list Z :=
  map (fun i => if Cpu.isin i ps then 1 else 0) (seqZ 0 n).

(** [sub_centroid_array[i]], for a position of the array. *)
Definition cent (c : list Q) (i : Z) : Q := nth (Z.to_nat i) c 0%Q.

(** [sub_prominence[pos]] *)
Definition entry (l : list Q) (i : Z) : Q := nth (Z.to_nat i) l 0%Q.

(** The sample at index [i] of the periodic profile. *)
Definition circular (sub_image : list Q) (i : Z) : Q :=
  nth (Z.to_nat (i mod len sub_image)) sub_image 0%Q.

(** ** Directions *)

(** The angle of the peak at position [i], centroid offset included. *)
Definition gpu_angle (a : list Z) (c : list Q) (i : Z) : Q :=
  Gpu.angle_of (len a) i (cent c i).

(** The direction of a lone peak. *)
Definition gpu_single (a : list Z) (c : list Q) (p : Z) : Q :=
  pymod (270 - gpu_angle a c p) 180.

(** The direction through the midpoint of two peaks. *)
Definition gpu_midpoint (a : list Z) (c : list Q) (p q : Z) : Q :=
  pymod (270 - (gpu_angle a c p + gpu_angle a c q) / 2) 180.

(** The separation test on a pair of peaks. *)
Definition gpu_opposite (a : list Z) (c : list Q) (p q : Z) : bool :=
  Qlt_b (Qabs (180 - (gpu_angle a c q - gpu_angle a c p))) 35.

(** The slot of a pair: its direction when the test passes. *)
Definition gpu_pair_slot (a : list Z) (c : list Q) (p q : Z) : Q :=
  if gpu_opposite a c p q then gpu_midpoint a c p q else BACKGROUND_COLOR.

(** The angle of the peak found at index [e] of the extended profile:
    [(e - z//2) * (360.0 / z)]. *)
Definition cpu_angle (roi_len : Z) (e : Z) : Q :=
  (inject_Z (e - roi_len / 2 / 2) * (360 / inject_Z (roi_len / 2)))%Q.

(** The CPU library sees the profile extended by [Cpu.extend_profile]:
    [ceil(n/2)] samples come before the first sample of the profile, and
    the sample at position [p] stands at index [p + ceil(n/2)]. *)
Definition extended (a : list Z) (p : Z) : Z := p + (len a + 1) / 2.

(** The peaks of a signal as [find_peaks] meets them on the CPU path: the
    peak array of the signal, extended as the profile is, has a one at
    every copy of a peak, and the indices of its ones are the indices
    found.  A peak near an end of the profile is found at two
    indices. *)
Definition cpu_found (a : list Z) : list Z :=
  peak_positions (Cpu.extend_profile a).

(** No two peaks stand exactly 35 degrees off 180 degrees apart: the
    separation test [abs(180 - (right - left)) < 35] is not at its
    boundary, where the rounding of the floats decides it. *)
Definition tie_free (a : list Z) (c : list Q) : Prop :=
  forall p q, In p (peak_positions a) -> In q (peak_positions a) ->
    ~ (Qabs (180 - (gpu_angle a c q - gpu_angle a c p)) == 35)%Q.

(** An angular separation within 35 degrees of 180. *)
Definition separated (x y : Q) : bool :=
  Qlt_b (Qabs (Qabs (x - y) - 180)) 35.

(** The three-peak rule in the words of the specification: each of the
    three pairs is tested for an angular separation within 35 degrees of
    180; exactly one passing pair gives its midpoint direction and the
    direction of the leftover peak; no passing pair gives BACKGROUND
    twice.  The rule is silent when several pairs pass. *)
Definition three_peak_rule (a0 a1 a2 : Q) : option (Q * Q) :=
  match separated a0 a1, separated a0 a2, separated a1 a2 with
  | true, false, false => Some (Cpu.midpoint a0 a1, Cpu.single a2)
  | false, true, false => Some (Cpu.midpoint a0 a2, Cpu.single a1)
  | false, false, true => Some (Cpu.midpoint a1 a2, Cpu.single a0)
  | false, false, false => Some (BACKGROUND_COLOR, BACKGROUND_COLOR)
  | _, _, _ => None
  end.

(** ** Distances *)

(** The angular gap from the peak at [p] to the peak at [q]. *)
Definition gap (a : list Z) (c : list Q) (p q : Z) : Q :=
  (gpu_angle a c q - gpu_angle a c p)%Q.

(** The result after the pairs [(p, q)] of [first] and [second] were
    recorded in order: the gap at [p], its complement at [q]. *)
Fixpoint record_pairs (a : list Z) (c : list Q) (first second : list Z)
  (res : list Q) : list Q :=
  match first, second with
  | p :: first', q :: second' =>
      record_pairs a c first' second'
        (<[Z.to_nat q := (360 - gap a c p q)%Q]>
           (<[Z.to_nat p := gap a c p q]> res))
  | _, _ => res
  end.

(** ** Prominence *)

(** The scan in the words of the specification: from [i], in steps of
    [step], over at most [window] samples, stopping at the first sample
    that exceeds [vp]; the value is the least sample seen (starting from
    [least]). *)
Fixpoint scan (sub_image : list Q) (vp : Q) (step : Z) (window : nat) (i : Z)
  (least : Q) : Q :=
  match window with
  | O => least
  | S window' =>
      let x := circular sub_image i in
      if Qle_bool x vp
      then scan sub_image vp step window' (i + step)
             (if Qlt_b x least then x else least)
      else least
  end.

(** The prominence of the specification: both scans run over a window
    of [n - 1] samples. *)
Definition prominence_spec (sub_image : list Q) (pos : Z) : Q :=
  let vp := circular sub_image pos in
  let window := Z.to_nat (len sub_image - 1) in
  (vp - pymax (scan sub_image vp (-1) window pos vp)
              (scan sub_image vp 1 window pos vp))%Q.

(** The windows the kernel really scans: the index bounds [i_min] and
    [i_max] cut them short. *)
Definition left_window (n pos : Z) : nat :=
  Nat.min (Z.to_nat (n - 1)) (Z.to_nat (pos + n / 2 + 1)).

Definition right_window (n pos : Z) : nat :=
  Nat.min (Z.to_nat (n - 1)) (Z.to_nat ((3 * n) / 2 - pos + 1)).

(** ** Width *)

(** Where the left scan at [height] stops: every sample it went over
    is above [height], and at [i] either the index bound or the sample
    stops it. *)
Definition left_stop (sub_image : list Q) (n : Z) (height : Q) (pos i : Z)
  : Prop :=
  i <= pos
  /\ (forall k, i < k <= pos ->
                - n < 2 * k /\ (height < circular sub_image k)%Q)
  /\ (2 * i <= - n \/ (circular sub_image i <= height)%Q).

Definition right_stop (sub_image : list Q) (n : Z) (height : Q) (pos i : Z)
  : Prop :=
  pos <= i
  /\ (forall k, pos <= k < i ->
                k < 3 * n / 2 /\ (height < circular sub_image k)%Q)
  /\ (3 * n / 2 <= i \/ (circular sub_image i <= height)%Q).

(** The interpolated ends of the peak. *)
Definition left_ip (sub_image : list Q) (height : Q) (i : Z) : Q :=
  if Qlt_b (circular sub_image i) height
  then (inject_Z i
        + (height - circular sub_image i)
          / (circular sub_image (i + 1) - circular sub_image i))%Q
  else inject_Z i.

Definition right_ip (sub_image : list Q) (height : Q) (i : Z) : Q :=
  if Qlt_b (circular sub_image i) height
  then (inject_Z i
        - (height - circular sub_image i)
          / (circular sub_image (i - 1) - circular sub_image i))%Q
  else inject_Z i.

(** ** Centroid *)

(** The centroid in the words of the specification: the loops of the
    kernel, with the threshold [target_fraction * peak_value]. *)
Definition centroid_spec (sub_image : list Q) (lb rb pos : Z) : run Q :=
  let threshold := (TARGET_PEAK_HEIGHT * circular sub_image pos)%Q in
  let sums :=
    fold_left
      (fun sums x =>
         Gpu.centroid_samples threshold x (circular sub_image (pos + x))
           (circular sub_image (pos + x + 1)) sums)
      (seqZ (- lb) (rb - - lb)) (0%Q, 0%Q) in
  let* centroid := fdiv (fst sums) (snd sums) in
  let centroid := if Qlt_b 1 centroid then 1%Q else centroid in
  let centroid := if Qlt_b centroid (-1) then (-1)%Q else centroid in
  ret centroid.

(** ** The store of the peak cleanup *)

(** What the kernel does to one entry of its input: a one is cleared. *)
Definition clear1 (x : Z) : Z := if x =? 1 then 0 else x.

(** [new] is [old] with some of its ones cleared. *)
Definition faded (old new : list Z) : Prop :=
  length new = length old
  /\ forall j x, old !! j = Some x ->
                 new !! j = Some x \/ new !! j = Some (clear1 x).

(** No one is left before position [p]. *)
Definition no_one_upto (cur : list Z) (p : Z) : Prop :=
  forall j x, Z.of_nat j < p -> cur !! j = Some x -> x <> 1.

(** ** Values of a direction slot *)

(** A direction in degrees, in [0, 180), or the BACKGROUND sentinel. *)
Definition direction_value (v : Q) : Prop :=
  v = BACKGROUND_COLOR \/ (0 <= v /\ v < 180)%Q.

(** Strictly ascending indices, as [find_peaks] returns them. *)
Fixpoint ascending (l : list Z) : Prop :=
  match l with
  | [] => True
  | p :: l' => Forall (fun q => p < q) l' /\ ascending l'
  end.

(** ** Isolated peaks *)

(** The flag of an entry: 1 for a one, 0 for anything else. *)
Definition flag (x : Z) : Z := if x =? 1 then 1 else 0.

(** No one is followed by a one at the next position of the array. *)
Definition isolated (a : list Z) : Prop :=
  forall j, a !! j = Some 1 -> a !! S j <> Some 1.

(** ** Plateaus *)

(** A plateau of a peak array: [k] ones from position [s] on, with no
    one before them and no one after them in the array. *)
Definition plateau (a : list Z) (s k : Z) : Prop :=
  0 <= s /\ 1 <= k /\ s + k <= len a
  /\ (forall j, s <= j < s + k -> a !! Z.to_nat j = Some 1)
  /\ (0 < s -> a !! Z.to_nat (s - 1) <> Some 1)
  /\ (s + k < len a -> a !! Z.to_nat (s + k) <> Some 1).

(** The result [res] of the cleanup of [a] up to position [upto], from
    the result array [res0] of the caller: a 0 where [a] has no one, and
    for each plateau a 1 at its middle, a 0 at its other positions after
    the first; the first position of a plateau of three ones or more is
    as the caller left it. *)
Definition cleaned (a res0 res : list Z) (upto : Z) : Prop :=
  (forall j x, 0 <= j < upto -> a !! Z.to_nat j = Some x -> x <> 1 ->
               res !! Z.to_nat j = Some 0)
  /\ (forall s k, plateau a s k -> s + k <= upto ->
         res !! Z.to_nat (s + (k - 1) / 2) = Some 1
         /\ (forall j, s < j < s + k -> j <> s + (k - 1) / 2 ->
                       res !! Z.to_nat j = Some 0)
         /\ (3 <= k -> res !! Z.to_nat s = res0 !! Z.to_nat s)).

(** * Properties *)

(** In the proofs [lia] also reasons about [/] and [mod]. *)
Ltac Zify.zify_post_hook ::= Z.to_euclidean_division_equations.

(** ** Reading and writing arrays *)

Section Arrays.
Context {A : Type}.
Implicit Types (a : list A) (i : Z) (k : nat).

Lemma rd_in_range a i :
  0 <= i < len a -> exists x, rd a i = inr x /\ a !! Z.to_nat i = Some x.
Proof.
  intros Hi. unfold rd.
  replace (i <? 0) with false by lia.
  replace ((0 <=? i) && (i <? len a)) with true by lia.
  destruct (a !! Z.to_nat i) as [x|] eqn:E; [eauto|].
  apply lookup_ge_None in E. unfold len in Hi. lia.
Qed.

Lemma rd_lookup a i x :
  0 <= i -> a !! Z.to_nat i = Some x -> rd a i = inr x.
Proof.
  intros Hi E.
  destruct (rd_in_range a i) as (y & -> & E').
  - apply lookup_lt_Some in E. unfold len. lia.
  - congruence.
Qed.

Lemma rd_wrapped a i :
  - len a <= i < 0 ->
  exists x, rd a i = inr x /\ a !! Z.to_nat (i + len a) = Some x.
Proof.
  intros Hi. unfold rd.
  replace (i <? 0) with true by lia.
  replace ((0 <=? i + len a) && (i + len a <? len a)) with true by lia.
  destruct (a !! Z.to_nat (i + len a)) as [x|] eqn:E; [eauto|].
  apply lookup_ge_None in E. unfold len in *. lia.
Qed.

Lemma rd_at_len a : rd a (len a) = inl OutOfBounds.
Proof.
  unfold rd. assert (0 <= len a) by (unfold len; lia).
  replace (len a <? 0) with false by lia.
  replace ((0 <=? len a) && (len a <? len a)) with false by lia.
  reflexivity.
Qed.

Lemma wr_in_range a i v :
  0 <= i < len a -> wr a i v = inr (<[Z.to_nat i := v]> a).
Proof.
  intros Hi. unfold wr.
  replace (i <? 0) with false by lia.
  replace ((0 <=? i) && (i <? len a)) with true by lia.
  reflexivity.
Qed.

Lemma len_insert a k v : len (<[k := v]> a) = len a.
Proof. unfold len. now rewrite length_insert. Qed.
End Arrays.

(** ** Peak positions *)

Lemma rd_cent (c : list Q) (i : Z) :
  0 <= i < len c -> rd c i = inr (cent c i).
Proof.
  intros Hi. destruct (rd_in_range c i Hi) as (x & -> & E).
  unfold cent. f_equal. symmetry. apply nth_lookup_Some with (d := 0%Q) in E.
  exact E.
Qed.

Lemma peak_positions_range a p :
  In p (peak_positions a) -> 0 <= p < len a /\ rd a p = inr 1.
Proof.
  unfold peak_positions. rewrite filter_In, <- list_elem_of_In, elem_of_seqZ.
  intros [Hp Hpk]. split; [lia|].
  unfold is_peak in Hpk. destruct (rd a p) as [|pk]; [discriminate|].
  f_equal. lia.
Qed.

Lemma peak_positions_NoDup a : NoDup (peak_positions a).
Proof.
  apply NoDup_ListNoDup, List.NoDup_filter, NoDup_ListNoDup, NoDup_seqZ.
Qed.

(** Splitting the peak list at one of its elements gives the peaks
    after it. *)
Lemma peaks_after_split a l1 p l2 :
  peak_positions a = l1 ++ p :: l2 -> peaks_after a p = l2.
Proof.
  intros E.
  assert (Hp : 0 <= p < len a /\ rd a p = inr 1).
  { apply peak_positions_range. rewrite E. apply in_elt. }
  destruct Hp as [Hp Hpk].
  assert (Hsplit : seqZ 0 (len a)
                   = seqZ 0 p ++ p :: seqZ (p + 1) (len a - p - 1)).
  { replace (len a) with (p + (len a - p)) at 1 by lia.
    rewrite seqZ_app by lia. f_equal.
    rewrite seqZ_cons by lia. f_equal; lia. }
  pose proof (peak_positions_NoDup a) as Hnd.
  unfold peak_positions in E, Hnd. rewrite Hsplit in E, Hnd.
  rewrite List.filter_app in E, Hnd. simpl in E, Hnd.
  assert (Hp1 : is_peak a p = true) by (unfold is_peak; now rewrite Hpk).
  rewrite Hp1 in E, Hnd.
  apply not_elem_of_app_cons_inv_r in E.
  - unfold peaks_after. now destruct E as (_ & _ & ->).
  - rewrite E in Hnd. apply NoDup_app in Hnd as (_ & _ & Hnd).
    now apply NoDup_cons in Hnd as [Hnd _].
  - apply NoDup_app in Hnd as (_ & _ & Hnd).
    now apply NoDup_cons in Hnd as [Hnd _].
Qed.

(** ** Loops over the positions of a peak array *)

(** A loop whose body does nothing away from the peaks can be run on
    the peak positions alone. *)
Lemma for_range_peaks {S} (body : Z -> S -> run (ctl S)) (a : list Z)
  (range : list Z) :
  (forall i s, In i range -> is_peak a i = false ->
               body i s = ret (Continue s)) ->
  forall s, for_range body range s
            = for_range body (List.filter (is_peak a) range) s.
Proof.
  induction range as [|i range IH]; intros Hskip s; [reflexivity|].
  simpl. destruct (is_peak a i) eqn:E.
  - simpl. destruct (body i s) as [f|[s'|s']]; simpl; auto.
    apply IH. intros j t Hj. apply Hskip. now right.
  - rewrite (Hskip i s (or_introl eq_refl) E). simpl.
    apply IH. intros j t Hj. apply Hskip. now right.
Qed.

(** A loop whose body never changes the state leaves it as it was. *)
Lemma for_range_idle {S} (body : Z -> S -> run (ctl S)) (range : list Z) (s : S) :
  (forall i, In i range -> body i s = ret (Continue s)) ->
  for_range body range s = ret s.
Proof.
  induction range as [|i range IH]; intros Hidle; [reflexivity|].
  simpl. rewrite (Hidle i (or_introl eq_refl)). simpl.
  apply IH. intros j Hj. apply Hidle. now right.
Qed.

Lemma not_peak_rd a i :
  0 <= i < len a -> is_peak a i = false ->
  exists pk, rd a i = inr pk /\ (pk =? 1) = false.
Proof.
  intros Hi Hnp. destruct (rd_in_range a i Hi) as (pk & Hrd & _).
  exists pk. split; [exact Hrd|]. unfold is_peak in Hnp. now rewrite Hrd in Hnp.
Qed.

(** The partner search stops on the [r]-th peak after its start. *)
Lemma walk_right_spec a : forall d cur r q,
  d = Z.to_nat (len a - cur) -> 0 <= cur -> 0 < r ->
  peaks_after a cur !! Z.to_nat (r - 1) = Some q ->
  Gpu.walk_right a d cur r = inr (q, 0).
Proof.
  induction d as [|d IH]; intros cur r q Hd Hcur Hr Hq.
  - unfold peaks_after in Hq. rewrite seqZ_nil in Hq by lia. discriminate.
  - simpl. replace (0 <? r) with true by lia.
    assert (Hlt : cur + 1 < len a \/ cur + 1 = len a) by lia.
    destruct Hlt as [Hlt|Heq].
    2:{ unfold peaks_after in Hq. rewrite seqZ_nil in Hq by lia. discriminate. }
    destruct (rd_in_range a (cur + 1)) as (pk & Hrd & _); [lia|].
    rewrite Hrd. simpl.
    unfold peaks_after in Hq. rewrite seqZ_cons in Hq by lia. simpl in Hq.
    unfold is_peak in Hq at 1. rewrite Hrd in Hq.
    replace (Z.succ (cur + 1)) with (cur + 1 + 1) in Hq by lia.
    replace (Z.pred (len a - cur - 1)) with (len a - (cur + 1) - 1) in Hq by lia.
    fold (peaks_after a (cur + 1)) in Hq.
    destruct (pk =? 1) eqn:Epk.
    + destruct (Z.eq_dec r 1) as [->|Hne].
      * simpl in Hq. injection Hq as <-.
        destruct d; simpl; reflexivity.
      * apply IH; try lia.
        replace (Z.to_nat (r - 1)) with (Datatypes.S (Z.to_nat (r - 1 - 1))) in Hq by lia.
        exact Hq.
    + apply IH; try lia. exact Hq.
Qed.

Lemma find_partner_spec a l1 p l2 r q :
  peak_positions a = l1 ++ p :: l2 -> 0 < r ->
  l2 !! Z.to_nat (r - 1) = Some q ->
  Gpu.find_partner a p r = inr (q, 0).
Proof.
  intros E Hr Hq. unfold Gpu.find_partner.
  apply walk_right_spec; auto.
  - apply (peak_positions_range a p). rewrite E. apply in_elt.
  - now rewrite (peaks_after_split a l1 p l2 E).
Qed.

(** ** [_direction]: the behaviour by number of peaks *)

Section GpuDirection.
Variables (a : list Z) (c : list Q).
Hypothesis Hc : length c = length a.

Lemma rd_cent_peak p :
  In p (peak_positions a) -> rd c p = inr (cent c p).
Proof.
  intros Hp. apply rd_cent. apply peak_positions_range in Hp.
  unfold len in *. rewrite Hc. tauto.
Qed.

Lemma direction_loop_peaks n st :
  for_range (Gpu.direction_body a c n) (seqZ 0 (len a)) st
  = for_range (Gpu.direction_body a c n) (peak_positions a) st.
Proof.
  apply for_range_peaks. intros i [cd res] Hi Hnp.
  rewrite <- list_elem_of_In, elem_of_seqZ in Hi.
  destruct (not_peak_rd a i) as (pk & Hrd & Hpk); [lia|assumption|].
  unfold Gpu.direction_body. rewrite Hrd. simpl. now rewrite Hpk.
Qed.

Lemma direction_no_peak n :
  peak_positions a = [] ->
  Gpu._direction a c n 2 = inr [BACKGROUND_COLOR; BACKGROUND_COLOR].
Proof.
  intros E. unfold Gpu._direction.
  destruct (n / 2 <=? Z.of_nat 2); [|reflexivity].
  rewrite direction_loop_peaks, E. reflexivity.
Qed.

Lemma direction_one_peak p :
  peak_positions a = [p] ->
  Gpu._direction a c 1 2 = inr [gpu_single a c p; BACKGROUND_COLOR].
Proof.
  intros E. unfold Gpu._direction.
  change (1 / 2 <=? Z.of_nat 2) with true. cbv iota.
  rewrite direction_loop_peaks, E.
  assert (Hp : In p (peak_positions a)) by (rewrite E; now left).
  destruct (peak_positions_range a p Hp) as [_ Hpk].
  simpl. unfold Gpu.direction_body.
  rewrite Hpk, (rd_cent_peak p Hp). reflexivity.
Qed.

#[local] Arguments Gpu.direction_body : simpl never.

(** One iteration of the loop on a peak of an even count whose
    partner is found. *)
Lemma direction_body_even n l1 p l2 q cd res :
  peak_positions a = l1 ++ p :: l2 ->
  n mod 2 = 0 -> 0 < n / 2 ->
  l2 !! Z.to_nat (n / 2 - 1) = Some q ->
  0 <= cd < len res ->
  Gpu.direction_body a c n p (cd, res)
  = ret ((if cd + 1 =? n / 2 then Break else Continue)
           (cd + 1,
            if (n =? 2) || gpu_opposite a c p q
            then <[Z.to_nat cd := gpu_midpoint a c p q]> res else res)).
Proof.
  intros E Heven Hhalf Hq Hcd.
  assert (Hp : In p (peak_positions a)) by (rewrite E; apply in_elt).
  assert (Hq' : In q (peak_positions a)).
  { rewrite E. apply in_or_app. right. right.
    apply list_elem_of_In. eapply list_elem_of_lookup_2. exact Hq. }
  destruct (peak_positions_range a p Hp) as [_ Hpk].
  unfold Gpu.direction_body. rewrite Hpk, (rd_cent_peak p Hp). simpl.
  replace (n =? 1) with false.
  2:{ symmetry. apply Z.eqb_neq. intros ->. discriminate. }
  replace (n mod 2 =? 0) with true by lia.
  rewrite (find_partner_spec a l1 p l2 (n / 2) q E Hhalf Hq). simpl.
  rewrite (rd_cent_peak q Hq'). simpl.
  fold (gpu_angle a c p). fold (gpu_angle a c q).
  fold (gpu_opposite a c p q). fold (gpu_midpoint a c p q).
  destruct ((n =? 2) || gpu_opposite a c p q).
  - rewrite wr_in_range by exact Hcd. simpl.
    destruct (cd + 1 =? n / 2); reflexivity.
  - simpl. destruct (cd + 1 =? n / 2); reflexivity.
Qed.

Lemma direction_two_peaks p0 p1 :
  peak_positions a = [p0; p1] ->
  Gpu._direction a c 2 2 = inr [gpu_midpoint a c p0 p1; BACKGROUND_COLOR].
Proof.
  intros E. unfold Gpu._direction.
  change (2 / 2 <=? Z.of_nat 2) with true. cbv iota.
  rewrite direction_loop_peaks, E. simpl.
  rewrite (direction_body_even 2 [] p0 [p1] p1); try easy.
Qed.

Lemma direction_four_peaks p0 p1 p2 p3 :
  peak_positions a = [p0; p1; p2; p3] ->
  Gpu._direction a c 4 2 = inr [gpu_pair_slot a c p0 p2; gpu_pair_slot a c p1 p3].
Proof.
  intros E. unfold Gpu._direction.
  change (4 / 2 <=? Z.of_nat 2) with true. cbv iota.
  rewrite direction_loop_peaks, E. simpl.
  rewrite (direction_body_even 4 [] p0 [p1; p2; p3] p2); try easy.
  simpl.
  rewrite (direction_body_even 4 [p0] p1 [p2; p3] p3); try easy.
  - unfold gpu_pair_slot.
    destruct (gpu_opposite a c p0 p2), (gpu_opposite a c p1 p3); reflexivity.
  - destruct (gpu_opposite a c p0 p2); simpl; rewrite ?len_insert; easy.
Qed.

(** An odd number of peaks other than one is never classified. *)
Lemma direction_odd n :
  n mod 2 <> 0 -> n <> 1 ->
  Gpu._direction a c n 2 = inr [BACKGROUND_COLOR; BACKGROUND_COLOR].
Proof.
  intros Hodd Hn1. unfold Gpu._direction.
  destruct (n / 2 <=? Z.of_nat 2); [|reflexivity].
  rewrite for_range_idle; [reflexivity|].
  intros i Hi. rewrite <- list_elem_of_In, elem_of_seqZ in Hi.
  destruct (rd_in_range a i) as (pk & Hrd & _); [lia|].
  unfold Gpu.direction_body. rewrite Hrd. simpl.
  destruct (pk =? 1); [|reflexivity].
  destruct (rd_in_range c i) as (x & Hx & _);
    [unfold len in *; rewrite Hc; lia|].
  rewrite Hx. simpl.
  replace (n =? 1) with false by lia.
  replace (n mod 2 =? 0) with false by lia. reflexivity.
Qed.

(** More peaks than the result has room for are not classified. *)
Lemma direction_too_many n :
  6 <= n -> Gpu._direction a c n 2 = inr [BACKGROUND_COLOR; BACKGROUND_COLOR].
Proof.
  intros Hn. unfold Gpu._direction.
  replace (n / 2 <=? Z.of_nat 2) with false; [reflexivity|].
  symmetry. apply Z.leb_gt. change (Z.of_nat 2) with 2.
  assert (3 <= n / 2) by (apply Z.div_le_lower_bound; lia). lia.
Qed.
End GpuDirection.

(** ** [crossing_direction_array_from_roiset]: the behaviour by number
     of peaks *)

Lemma fdiv_nonzero (x : Q) (z : Z) :
z <> 0 -> fdiv x (inject_Z z) = inr (x / inject_Z z)%Q.
Proof.
intros Hz. unfold fdiv.
destruct (Qeq_bool (inject_Z z) 0) eqn:E; [|reflexivity].
apply Qeq_bool_eq in E. unfold Qeq, inject_Z in E. simpl in E. lia.
Qed.

Section CpuDirection.
Variables (roi_len : Z) (cut_edges : bool) (found : list Z).
Hypothesis Hz : roi_len / 2 <> 0.

Lemma crossing_one_peak e0 :
  Cpu.surviving roi_len cut_edges found = ([e0], 1) ->
  Cpu.crossing_direction roi_len cut_edges found
  = inr (Cpu.single (cpu_angle roi_len e0), Cpu.single (cpu_angle roi_len e0)).
Proof.
  intros E. unfold Cpu.crossing_direction.
  rewrite E, (fdiv_nonzero _ _ Hz). reflexivity.
Qed.

Lemma crossing_two_peaks e0 e1 :
  Cpu.surviving roi_len cut_edges found = ([e0; e1], 2) ->
  Cpu.crossing_direction roi_len cut_edges found
  = inr (Cpu.midpoint (cpu_angle roi_len e1) (cpu_angle roi_len e0),
         Cpu.midpoint (cpu_angle roi_len e1) (cpu_angle roi_len e0)).
Proof.
  intros E. unfold Cpu.crossing_direction.
  rewrite E, (fdiv_nonzero _ _ Hz). reflexivity.
Qed.

Lemma crossing_three_peaks e0 e1 e2 :
  Cpu.surviving roi_len cut_edges found = ([e0; e1; e2], 3) ->
  Cpu.crossing_direction roi_len cut_edges found
  = inr (if Cpu.opposite (cpu_angle roi_len e0) (cpu_angle roi_len e2)
         then (Cpu.midpoint (cpu_angle roi_len e2) (cpu_angle roi_len e0),
               Cpu.single (cpu_angle roi_len e1))
         else if Cpu.opposite (cpu_angle roi_len e1) (cpu_angle roi_len e0)
         then (Cpu.midpoint (cpu_angle roi_len e1) (cpu_angle roi_len e0),
               Cpu.single (cpu_angle roi_len e2))
         else if Cpu.opposite (cpu_angle roi_len e1) (cpu_angle roi_len e2)
         then (Cpu.midpoint (cpu_angle roi_len e1) (cpu_angle roi_len e2),
               Cpu.single (cpu_angle roi_len e0))
         else (BACKGROUND_COLOR, BACKGROUND_COLOR)).
Proof.
  intros E. unfold Cpu.crossing_direction.
  rewrite E, (fdiv_nonzero _ _ Hz). simpl. fold (cpu_angle roi_len e0).
  fold (cpu_angle roi_len e1). fold (cpu_angle roi_len e2).
  repeat (destruct (Cpu.opposite _ _); [reflexivity|]). reflexivity.
Qed.

Lemma crossing_four_peaks e0 e1 e2 e3 :
  Cpu.surviving roi_len cut_edges found = ([e0; e1; e2; e3], 4) ->
  Cpu.crossing_direction roi_len cut_edges found
  = inr (if Cpu.opposite (cpu_angle roi_len e2) (cpu_angle roi_len e0)
         then (Cpu.midpoint (cpu_angle roi_len e2) (cpu_angle roi_len e0),
               if Cpu.opposite (cpu_angle roi_len e3) (cpu_angle roi_len e1)
               then Cpu.midpoint (cpu_angle roi_len e3) (cpu_angle roi_len e1)
               else BACKGROUND_COLOR)
         else (BACKGROUND_COLOR, BACKGROUND_COLOR)).
Proof.
  intros E. unfold Cpu.crossing_direction.
  rewrite E, (fdiv_nonzero _ _ Hz). simpl. fold (cpu_angle roi_len e0).
  fold (cpu_angle roi_len e1). fold (cpu_angle roi_len e2). fold (cpu_angle roi_len e3).
  destruct (Cpu.opposite _ _); reflexivity.
Qed.

Lemma crossing_other peaks amount :
  Cpu.surviving roi_len cut_edges found = (peaks, amount) ->
  amount <= 0 \/ 5 <= amount ->
  Cpu.crossing_direction roi_len cut_edges found
  = inr (BACKGROUND_COLOR, BACKGROUND_COLOR).
Proof.
  intros E Ham. unfold Cpu.crossing_direction.
  rewrite E, (fdiv_nonzero _ _ Hz). simpl.
  replace (amount =? 1) with false by lia.
  replace (amount =? 2) with false by lia.
  replace (amount =? 3) with false by lia.
  replace (amount =? 4) with false by lia. reflexivity.
Qed.
End CpuDirection.

(** C7. With exactly one surviving peak the direction is
  [(270 - angle0) mod 180]; with exactly two it is
  [(270 - avg(angle0, angle1)) mod 180], whatever their separation.
  This holds for the GPU kernel ([a1], [a2] are peak arrays with one
  and two peaks) and for the CPU library ([found1], [found2] are
  [find_peaks] results leaving one and two peaks).  A 360-sample
  signal with peaks at 90 and 270 (270 and 450 once extended) has
  peak count 2 and direction 90 on both paths. *)
Theorem one_and_two_peak_direction
(a1 a2 : list Z) (c1 c2 : list Q) (p q0 q1 : Z)
(roi_len : Z) (cut_edges : bool) (found1 found2 : list Z) (e f0 f1 : Z) :
length c1 = length a1 -> length c2 = length a2 ->
peak_positions a1 = [p] -> peak_positions a2 = [q0; q1] ->
roi_len / 2 <> 0 ->
Cpu.surviving roi_len cut_edges found1 = ([e], 1) ->
Cpu.surviving roi_len cut_edges found2 = ([f0; f1], 2) ->
Gpu._direction a1 c1 1 2
= inr [pymod (270 - gpu_angle a1 c1 p) 180; BACKGROUND_COLOR]
/\ Gpu._direction a2 c2 2 2
   = inr [pymod (270 - (gpu_angle a2 c2 q0 + gpu_angle a2 c2 q1) / 2) 180;
          BACKGROUND_COLOR]
/\ (exists d1,
      Cpu.crossing_direction roi_len cut_edges found1
      = inr (pymod (270 - cpu_angle roi_len e) 180, d1))
/\ (exists d1,
      Cpu.crossing_direction roi_len cut_edges found2
      = inr (pymod (270 - (cpu_angle roi_len f1 + cpu_angle roi_len f0) / 2)
               180, d1))
/\ (len (peak_positions (flags 360 [90; 270])) = 2
    /\ exists d0 d1,
        Gpu._direction (flags 360 [90; 270]) (replicate 360 0%Q) 2 2
        = inr [d0; d1] /\ (d0 == 90)%Q)
/\ (snd (Cpu.surviving 720 true [90; 270; 450; 630]) = 2
    /\ exists d0 d1,
        Cpu.crossing_direction 720 true [90; 270; 450; 630] = inr (d0, d1)
        /\ (d0 == 90)%Q).
Proof.
intros Hc1 Hc2 E1 E2 Hz S1 S2.
split; [now apply direction_one_peak|].
split; [now apply direction_two_peaks|].
split; [eexists; now apply crossing_one_peak|].
split; [eexists; now apply crossing_two_peaks|].
split; (split; [vm_compute; reflexivity|]).
- do 2 eexists. split; [vm_compute; reflexivity|]. vm_compute. reflexivity.
- do 2 eexists. split; [vm_compute; reflexivity|]. vm_compute. reflexivity.
Qed.

Lemma one_and_two_peak_direction_witness :
Gpu._direction (flags 8 [3]) (replicate 8 0%Q) 1 2
= inr [pymod (270 - gpu_angle (flags 8 [3]) (replicate 8 0%Q) 3) 180;
       BACKGROUND_COLOR]
/\ Gpu._direction (flags 8 [1; 6]) (replicate 8 (1 # 4)) 2 2
   = inr [pymod (270 - (gpu_angle (flags 8 [1; 6]) (replicate 8 (1 # 4)) 1
                        + gpu_angle (flags 8 [1; 6]) (replicate 8 (1 # 4)) 6)
                       / 2) 180;
          BACKGROUND_COLOR].
Proof.
pose proof (one_and_two_peak_direction
              (flags 8 [3]) (flags 8 [1; 6])
              (replicate 8 0%Q) (replicate 8 (1 # 4)) 3 1 6
              16 true [7] [5; 9] 7 5 9
              eq_refl eq_refl eq_refl eq_refl
              ltac:(vm_compute; discriminate) eq_refl eq_refl) as H.
split; [exact (proj1 H)|exact (proj1 (proj2 H))].
Defined.

(** ** Comparisons and [%] respect equality of rationals *)

Lemma Qlt_b_lt (x y : Q) : Qlt_b x y = true <-> (x < y)%Q.
Proof.
  unfold Qlt_b. rewrite negb_true_iff, <- not_true_iff_false, Qle_bool_iff.
  split; [apply Qnot_le_lt|apply Qlt_not_le].
Qed.

Lemma Qlt_b_ge (x y : Q) : Qlt_b x y = false <-> (y <= x)%Q.
Proof.
  unfold Qlt_b. now rewrite negb_false_iff, Qle_bool_iff.
Qed.

Lemma Qlt_b_comp (x x' y y' : Q) :
  (x == x')%Q -> (y == y')%Q -> Qlt_b x y = Qlt_b x' y'.
Proof.
  intros Hx Hy. unfold Qlt_b. f_equal. now apply Qleb_comp.
Qed.

Lemma pymod_comp (x x' m : Q) : (x == x')%Q -> (pymod x m == pymod x' m)%Q.
Proof.
  intros Hx. unfold pymod.
  assert (Hf : Qfloor (x / m) = Qfloor (x' / m)).
  { apply Qfloor_comp. now apply Qdiv_comp. }
  rewrite Hf. now apply Qplus_comp.
Qed.

(** A pair given in descending order never passes the CPU test. *)
Lemma opposite_descending (x y : Q) : (x <= y)%Q -> Cpu.opposite x y = false.
Proof.
  intros Hxy. unfold Cpu.opposite. apply Qlt_b_ge.
  apply Qle_trans with (- ((x - y) - 180))%Q; [lra|].
  rewrite <- Qabs_opp. apply Qle_Qabs.
Qed.

(** The CPU and GPU separation tests agree on equal angles. *)
Lemma opposite_agree (p q p' q' : Q) :
  (p == p')%Q -> (q == q')%Q ->
  Qlt_b (Qabs (180 - (q - p))) 35 = Cpu.opposite q' p'.
Proof.
  intros Hp Hq. unfold Cpu.opposite. apply Qlt_b_comp; [|reflexivity].
  apply Qeq_trans with (Qabs (- (180 - (q - p)))); [symmetry; apply Qabs_opp|].
  apply Qabs_wd. lra.
Qed.

(** ** Four peaks *)

(** C3. A ROI with four surviving peaks at 0, 10, 100 and 190 degrees
    (found at 180, 190, 280, 370 in the extended profile of length 720):
    the pair (1,3) is 180 degrees apart and the pair (0,2) is not.  The
    CPU library clears both slots, where the GPU kernel on the same
    peaks keeps the direction 170 of the pair (1,3) in slot 1. *)
Theorem crossing_four_peaks_clears_both_slots :
  Cpu.surviving 720 true [180; 190; 280; 370] = ([180; 190; 280; 370], 4)
  /\ Cpu.opposite (cpu_angle 720 370) (cpu_angle 720 190) = true
  /\ Cpu.opposite (cpu_angle 720 280) (cpu_angle 720 180) = false
  /\ Cpu.crossing_direction 720 true [180; 190; 280; 370]
     = inr (BACKGROUND_COLOR, BACKGROUND_COLOR)
  /\ exists d1,
      Gpu._direction (flags 360 [0; 10; 100; 190]) (replicate 360 0%Q) 4 2
      = inr [BACKGROUND_COLOR; d1]
      /\ (d1 == 170)%Q
      /\ (Cpu.midpoint (cpu_angle 720 370) (cpu_angle 720 190) == 170)%Q.
Proof.
  split; [reflexivity|].
  split; [vm_compute; reflexivity|].
  split; [vm_compute; reflexivity|].
  split; [vm_compute; reflexivity|].
  eexists. split; [vm_compute; reflexivity|].
  split; vm_compute; reflexivity.
Qed.

(** ** Three peaks *)

(** Peaks at 0, 180 and 270 degrees: only the pair (0,1) passes, the
    rule asks for the directions (0, 0), and the GPU kernel leaves
    BACKGROUND in both slots. *)
Lemma three_peaks_gpu_background :
  let a := flags 360 [0; 180; 270] in
  let c := replicate 360 0%Q in
  peak_positions a = [0; 180; 270]
  /\ exists d1 d2,
      three_peak_rule (gpu_angle a c 0) (gpu_angle a c 180) (gpu_angle a c 270)
      = Some (d1, d2)
      /\ (d1 == 0)%Q /\ (d2 == 0)%Q
      /\ Gpu._direction a c 3 2 = inr [BACKGROUND_COLOR; BACKGROUND_COLOR]
      /\ ~ (BACKGROUND_COLOR == d1)%Q.
Proof.
  split; [vm_compute; reflexivity|].
  do 2 eexists. split; [vm_compute; reflexivity|].
  split; [vm_compute; reflexivity|].
  split; [vm_compute; reflexivity|].
  split; [vm_compute; reflexivity|].
  vm_compute. discriminate.
Qed.

Lemma cpu_angle_monotone (roi_len e e' : Z) :
  0 < roi_len / 2 -> e <= e' ->
  (cpu_angle roi_len e <= cpu_angle roi_len e')%Q.
Proof.
  intros Hz He. unfold cpu_angle.
  apply Qmult_le_compat_r.
  - rewrite <- Zle_Qle. lia.
  - apply Qlt_le_weak, Qlt_shift_div_l.
    + change 0%Q with (inject_Z 0). now rewrite <- Zlt_Qlt.
    + lra.
Qed.

(** C2, as the code has it.  CPU library, three surviving peaks in
    ascending order: when the first two are within 35 degrees of 180
    apart, slot 0 is the midpoint direction of that pair and slot 1 the
    direction of the third peak; when no pair is, both slots are
    BACKGROUND.  The GPU kernel leaves BACKGROUND in both slots for
    every pixel with three peaks. *)
Theorem three_peak_classification
  (roi_len : Z) (cut_edges : bool) (found : list Z) (e0 e1 e2 : Z)
  (a : list Z) (c : list Q) :
  0 < roi_len / 2 ->
  Cpu.surviving roi_len cut_edges found = ([e0; e1; e2], 3) ->
  e0 <= e1 <= e2 ->
  length c = length a ->
  let a0 := cpu_angle roi_len e0 in
  let a1 := cpu_angle roi_len e1 in
  let a2 := cpu_angle roi_len e2 in
  (Cpu.opposite a1 a0 = true ->
   Cpu.crossing_direction roi_len cut_edges found
   = inr (Cpu.midpoint a1 a0, Cpu.single a2))
  /\ (Cpu.opposite a1 a0 = false -> Cpu.opposite a2 a0 = false ->
      Cpu.opposite a2 a1 = false ->
      Cpu.crossing_direction roi_len cut_edges found
      = inr (BACKGROUND_COLOR, BACKGROUND_COLOR))
  /\ Gpu._direction a c 3 2 = inr [BACKGROUND_COLOR; BACKGROUND_COLOR].
Proof.
  intros Hz S3 He Hc a0 a1 a2.
  assert (H02 : Cpu.opposite a0 a2 = false).
  { apply opposite_descending, cpu_angle_monotone; lia. }
  assert (H12 : Cpu.opposite a1 a2 = false).
  { apply opposite_descending, cpu_angle_monotone; lia. }
  assert (Hz' : roi_len / 2 <> 0) by lia.
  pose proof (crossing_three_peaks roi_len cut_edges found Hz' e0 e1 e2 S3) as Hx.
  fold a0 a1 a2 in Hx. rewrite H02, H12 in Hx.
  split; [|split].
  - intros H10. now rewrite H10 in Hx.
  - intros H10 _ _. now rewrite H10 in Hx.
  - apply direction_odd; [exact Hc|discriminate|discriminate].
Qed.

Lemma three_peak_classification_witness :
  Cpu.crossing_direction 720 true [180; 360; 450]
  = inr (Cpu.midpoint (cpu_angle 720 360) (cpu_angle 720 180),
         Cpu.single (cpu_angle 720 450))
  /\ Gpu._direction (flags 8 [0; 4; 6]) (replicate 8 0%Q) 3 2
     = inr [BACKGROUND_COLOR; BACKGROUND_COLOR].
Proof.
  pose proof (three_peak_classification 720 true [180; 360; 450] 180 360 450
                (flags 8 [0; 4; 6]) (replicate 8 0%Q)
                ltac:(vm_compute; reflexivity) eq_refl
                ltac:(lia) eq_refl) as (H1 & _ & H3).
  split; [apply H1; vm_compute; reflexivity|exact H3].
Defined.

(** ** [_peakdistance] *)

Section GpuDistance.
Variables (a : list Z) (c : list Q).
Hypothesis Hc : length c = length a.

#[local] Arguments Gpu.peakdistance_body : simpl never.

Lemma peakdistance_loop_peaks n st :
  for_range (Gpu.peakdistance_body a c n) (seqZ 0 (len a)) st
  = for_range (Gpu.peakdistance_body a c n) (peak_positions a) st.
Proof using Type.
  clear Hc.
  apply for_range_peaks. intros i [cp res] Hi Hnp.
  rewrite <- list_elem_of_In, elem_of_seqZ in Hi.
  destruct (not_peak_rd a i) as (pk & Hrd & Hpk); [lia|assumption|].
  unfold Gpu.peakdistance_body. rewrite Hrd. simpl. now rewrite Hpk.
Qed.

Lemma peakdistance_one_peak p res :
  peak_positions a = [p] -> length res = length a ->
  Gpu._peakdistance a c 1 res = inr (<[Z.to_nat p := 360%Q]> res).
Proof using Type.
  clear Hc. intros E Hres. unfold Gpu._peakdistance.
  rewrite peakdistance_loop_peaks, E.
  assert (Hp : In p (peak_positions a)) by (rewrite E; now left).
  destruct (peak_positions_range a p Hp) as [Hr Hpk].
  simpl. unfold Gpu.peakdistance_body. rewrite Hpk. simpl.
  rewrite wr_in_range; [reflexivity|].
  unfold len in Hr |- *. rewrite Hres. exact Hr.
Qed.

(** One iteration of the loop on a peak of an even count whose partner
    is found. *)
Lemma peakdistance_body_even n l1 p l2 q cp res :
  peak_positions a = l1 ++ p :: l2 ->
  n mod 2 = 0 -> 0 < n / 2 ->
  l2 !! Z.to_nat (n / 2 - 1) = Some q ->
  length res = length a ->
  Gpu.peakdistance_body a c n p (cp, res)
  = ret ((if cp + 1 =? n / 2 then Break else Continue)
           (cp + 1, record_pairs a c [p] [q] res)).
Proof.
  intros E Heven Hhalf Hq Hres.
  assert (Hp : In p (peak_positions a)) by (rewrite E; apply in_elt).
  assert (Hq' : In q (peak_positions a)).
  { rewrite E. apply in_or_app. right. right.
    apply list_elem_of_In. eapply list_elem_of_lookup_2. exact Hq. }
  destruct (peak_positions_range a p Hp) as [Hpr Hpk].
  destruct (peak_positions_range a q Hq') as [Hqr _].
  unfold Gpu.peakdistance_body. rewrite Hpk. simpl.
  replace (n =? 1) with false.
  2:{ symmetry. apply Z.eqb_neq. intros ->. discriminate. }
  replace (n mod 2 =? 0) with true by lia.
  rewrite (rd_cent_peak a c Hc p Hp). simpl.
  rewrite (find_partner_spec a l1 p l2 (n / 2) q E Hhalf Hq). simpl.
  rewrite (rd_cent_peak a c Hc q Hq'). simpl.
  rewrite wr_in_range by (unfold len in *; lia). simpl.
  rewrite wr_in_range by (rewrite len_insert; unfold len in *; lia). simpl.
  fold (gpu_angle a c p). fold (gpu_angle a c q). fold (gap a c p q).
  destruct (cp + 1 =? n / 2); reflexivity.
Qed.

Lemma record_pairs_length first : forall second res,
  length (record_pairs a c first second res) = length res.
Proof.
  induction first as [|p first IH]; intros [|q second] res; simpl; auto.
  now rewrite IH, !length_insert.
Qed.

(** The loop over the first half of the peaks, from any point on. *)
Lemma peakdistance_loop_even n : forall todo before partners_before partners res,
  peak_positions a = before ++ todo ++ partners_before ++ partners ->
  length before = length partners_before ->
  length todo = length partners ->
  todo <> [] ->
  n = 2 * (len before + len todo) ->
  length res = length a ->
  for_range (Gpu.peakdistance_body a c n) (todo ++ partners_before ++ partners)
    (len before, res)
  = inr (len before + len todo, record_pairs a c todo partners res).
Proof.
  induction todo as [|p todo IH];
    intros before partners_before partners res E Hb Ht Hne Hn Hres;
    [congruence|].
  destruct partners as [|q partners]; [discriminate|].
  assert (Hhalf : n / 2 = len before + len (p :: todo)).
  { rewrite Hn, Z.mul_comm. apply Z.div_mul. discriminate. }
  assert (Heven : n mod 2 = 0).
  { rewrite Hn, Z.mul_comm. apply Z.mod_mul. discriminate. }
  cbn [app for_range].
  rewrite (peakdistance_body_even n before p
             (todo ++ partners_before ++ q :: partners) q); auto.
  - cbn [bind ret]. destruct todo as [|p' todo].
    + rewrite Hhalf. change (len [p]) with 1. rewrite Z.eqb_refl.
      reflexivity.
    + assert (Hmore : (len before + 1 =? n / 2) = false).
      { rewrite Hhalf. apply Z.eqb_neq. unfold len.
        rewrite !length_cons. lia. }
      rewrite Hmore. cbn [record_pairs].
      replace (len before + 1) with (len (before ++ [p]))
        by (unfold len; rewrite length_app; simpl; lia).
      replace (len before + len (p :: p' :: todo))
        with (len (before ++ [p]) + len (p' :: todo))
        by (unfold len; rewrite length_app; simpl; lia).
      replace ((p' :: todo) ++ partners_before ++ q :: partners)
        with ((p' :: todo) ++ (partners_before ++ [q]) ++ partners)
        by (now rewrite <- (app_assoc partners_before)).
      apply IH.
      * rewrite E, <- !app_assoc. reflexivity.
      * rewrite !length_app. simpl. lia.
      * simpl in Ht. simpl. lia.
      * discriminate.
      * rewrite Hn. unfold len. rewrite length_app. simpl. lia.
      * now rewrite !length_insert.
  - rewrite Hhalf. unfold len. rewrite length_cons. lia.
  - rewrite Hhalf.
    replace (Z.to_nat (len before + len (p :: todo) - 1))
      with (length todo + (length partners_before + 0))%nat
      by (unfold len; rewrite length_cons; lia).
    rewrite lookup_app_r by lia.
    replace (length todo + (length partners_before + 0) - length todo)%nat
      with (length partners_before + 0)%nat by lia.
    rewrite lookup_app_r by lia.
    now replace (length partners_before + 0 - length partners_before)%nat
      with 0%nat by lia.
Qed.

(** Positions that are in neither list keep their value. *)
Lemma record_pairs_other first : forall second res i,
  ~ In (Z.of_nat i) first -> ~ In (Z.of_nat i) second ->
  Forall (fun p => 0 <= p) first -> Forall (fun p => 0 <= p) second ->
  record_pairs a c first second res !! i = res !! i.
Proof.
  induction first as [|p first IH]; intros [|q second] res i Hf Hs Pf Ps;
    simpl; auto.
  inversion Pf; inversion Ps; subst.
  rewrite IH; auto.
  - rewrite !list_lookup_insert_ne; auto.
    + intros <-. apply Hf. left. lia.
    + intros <-. apply Hs. left. lia.
  - intros H. apply Hf. now right.
  - intros H. apply Hs. now right.
Qed.

(** What is read at the two peaks of a pair once all pairs are
    recorded. *)
Lemma record_pairs_lookup first : forall second res k p q,
  NoDup (first ++ second) ->
  Forall (fun p => 0 <= p < len res) (first ++ second) ->
  length first = length second ->
  first !! k = Some p -> second !! k = Some q ->
  record_pairs a c first second res !! Z.to_nat p = Some (gap a c p q)
  /\ record_pairs a c first second res !! Z.to_nat q = Some (360 - gap a c p q)%Q.
Proof.
  induction first as [|p0 first IH]; intros [|q0 second] res k p q Hnd Hr Hl Hp Hq;
    try discriminate.
  simpl in Hnd, Hr.
  apply NoDup_cons in Hnd as [Hp0 Hnd].
  assert (Hnd' : NoDup (first ++ second)).
  { apply NoDup_app in Hnd as (H1 & H2 & H3). apply NoDup_cons in H3 as [_ H3].
    apply NoDup_app. split; [exact H1|]. split; [|exact H3].
    intros x Hx Hx'. apply (H2 x Hx). now right. }
  assert (Hq0 : q0 ∉ first ++ second).
  { apply NoDup_app in Hnd as (H1 & H2 & H3). apply NoDup_cons in H3 as [H3 _].
    intros Hin. apply elem_of_app in Hin as [Hin|Hin]; [|contradiction].
    apply (H2 q0 Hin). now left. }
  assert (Hp0' : p0 ∉ first ++ second).
  { intros Hin. apply Hp0. apply elem_of_app in Hin as [Hin|Hin];
      apply elem_of_app; [now left|right; now right]. }
  assert (Hpq : p0 <> q0).
  { intros ->. apply Hp0. apply elem_of_app. right. now left. }
  inversion Hr as [|? ? Hp0r Hr']; subst.
  assert (Hq0r : 0 <= q0 < len res).
  { rewrite Forall_app in Hr'. destruct Hr' as [_ Hr'].
    now inversion Hr'. }
  assert (Hr'' : Forall (fun p => 0 <= p < len res) (first ++ second)).
  { rewrite Forall_app in Hr'. destruct Hr' as [H1 H2]. inversion H2; subst.
    rewrite Forall_app. now split. }
  assert (Hnn : forall x, x ∈ first ++ second -> 0 <= x).
  { intros x Hx. rewrite Forall_forall in Hr''. apply Hr'' in Hx. lia. }
  destruct k as [|k]; simpl in Hp, Hq.
  - injection Hp as <-. injection Hq as <-. simpl.
    assert (Hf : Forall (fun p => 0 <= p) first).
    { apply Forall_forall. intros x Hx. apply Hnn, elem_of_app. now left. }
    assert (Hs : Forall (fun p => 0 <= p) second).
    { apply Forall_forall. intros x Hx. apply Hnn, elem_of_app. now right. }
    rewrite !record_pairs_other; auto.
    + split.
      * rewrite list_lookup_insert_ne by lia.
        apply list_lookup_insert_eq. unfold len in *. lia.
      * apply list_lookup_insert_eq. rewrite length_insert.
        unfold len in *. lia.
    + rewrite Z2Nat.id by lia. intros H. apply Hq0, elem_of_app. left.
      now apply list_elem_of_In.
    + rewrite Z2Nat.id by lia. intros H. apply Hq0, elem_of_app. right.
      now apply list_elem_of_In.
    + rewrite Z2Nat.id by lia. intros H. apply Hp0', elem_of_app. left.
      now apply list_elem_of_In.
    + rewrite Z2Nat.id by lia. intros H. apply Hp0', elem_of_app. right.
      now apply list_elem_of_In.
  - simpl. apply (IH second _ k p q); auto.
    rewrite Forall_forall in Hr'' |- *. intros x Hx.
    rewrite !len_insert. now apply Hr''.
Qed.
End GpuDistance.

(** C4.  A pixel with an even number [2m] of surviving peaks, listed in
    ascending order as [first ++ second] with [m] peaks in each half:
    the partner of the [k]-th peak [p] is [q], the peak [m] places
    further in the list, and [p] is in turn the peak [m] places after
    [q] when the list is walked around the circle.  The kernel stores
    the raw gap [angle q - angle p] at [p] and the complementary gap
    [360 - gap] at [q], and nothing away from the peaks.  A pixel with a
    single peak stores exactly 360 at that peak. *)
Theorem peak_distance_pairs
  (a : list Z) (c res : list Q) (first second : list Z) (k : nat) (p q : Z)
  (a1 : list Z) (c1 res1 : list Q) (p1 : Z) :
  length c = length a -> length res = length a ->
  peak_positions a = first ++ second ->
  length first = length second ->
  first !! k = Some p -> second !! k = Some q ->
  peak_positions a1 = [p1] -> length res1 = length a1 ->
  let m := length first in
  (peak_positions a !! ((k + m) mod (2 * m))%nat = Some q
   /\ peak_positions a !! ((k + m + m) mod (2 * m))%nat = Some p)
  /\ (exists out,
        Gpu._peakdistance a c (len (peak_positions a)) res = inr out
        /\ out !! Z.to_nat p = Some (gap a c p q)
        /\ out !! Z.to_nat q = Some (360 - gap a c p q)%Q
        /\ forall i, ~ In (Z.of_nat i) (peak_positions a) ->
                     out !! i = res !! i)
  /\ Gpu._peakdistance a1 c1 1 res1 = inr (<[Z.to_nat p1 := 360%Q]> res1).
Proof.
  intros Hc Hres E Hhalf Hp Hq E1 Hres1 m.
  assert (Hk : (k < m)%nat) by (now apply lookup_lt_Some in Hp).
  split; [|split].
  - rewrite E. split.
    + rewrite Nat.mod_small by lia.
      rewrite lookup_app_r by (fold m; lia). fold m.
      now replace (k + m - m)%nat with k by lia.
    + replace (k + m + m)%nat with (k + 1 * (2 * m))%nat by lia.
      rewrite Nat.Div0.mod_add, Nat.mod_small by lia.
      now rewrite lookup_app_l by (fold m; lia).
  - assert (Hne : first <> []) by (intros ->; discriminate).
    assert (Hloop :
      for_range (Gpu.peakdistance_body a c (len (peak_positions a)))
        (first ++ second) (0, res)
      = inr (0 + len first, record_pairs a c first second res)).
    { apply (peakdistance_loop_even a c Hc (len (peak_positions a))
               first [] [] second res E eq_refl Hhalf Hne); [|exact Hres].
      rewrite E. unfold len. rewrite length_app. simpl. lia. }
    exists (record_pairs a c first second res).
    assert (Hrange : Forall (fun x => 0 <= x < len res) (first ++ second)).
    { apply Forall_forall. intros x Hx. rewrite <- E in Hx.
      apply list_elem_of_In, peak_positions_range in Hx.
      unfold len in *. rewrite Hres. tauto. }
    assert (Hnd : NoDup (first ++ second))
      by (rewrite <- E; apply peak_positions_NoDup).
    split; [|split; [|split]].
    + unfold Gpu._peakdistance. rewrite peakdistance_loop_peaks.
      rewrite E at 2. now rewrite Hloop.
    + now apply (record_pairs_lookup a c Hc first second res k p q).
    + now apply (record_pairs_lookup a c Hc first second res k p q).
    + intros i Hi. rewrite E in Hi. rewrite Forall_app in Hrange.
      destruct Hrange as [Hf Hs].
      apply record_pairs_other; [exact Hc| | | |].
      * intros H. apply Hi, in_or_app. now left.
      * intros H. apply Hi, in_or_app. now right.
      * eapply Forall_impl; [exact Hf|]. simpl. intros; lia.
      * eapply Forall_impl; [exact Hs|]. simpl. intros; lia.
  - now apply peakdistance_one_peak.
Qed.

Lemma peak_distance_pairs_witness :
  let a := flags 36 [3; 9; 20; 30] in
  let c := replicate 36 0%Q in
  (exists out,
     Gpu._peakdistance a c 4 (replicate 36 7%Q) = inr out
     /\ out !! 9%nat = Some (gap a c 9 30)
     /\ out !! 30%nat = Some (360 - gap a c 9 30)%Q)
  /\ Gpu._peakdistance (flags 36 [5]) c 1 (replicate 36 7%Q)
     = inr (<[5%nat := 360%Q]> (replicate 36 7%Q)).
Proof.
  pose proof (peak_distance_pairs
                (flags 36 [3; 9; 20; 30]) (replicate 36 0%Q) (replicate 36 7%Q)
                [3; 9] [20; 30] 1 9 30
                (flags 36 [5]) (replicate 36 0%Q) (replicate 36 7%Q) 5
                eq_refl eq_refl eq_refl eq_refl eq_refl eq_refl eq_refl eq_refl)
    as (_ & (out & H1 & H2 & H3 & _) & H4).
  intros a c. split; [exists out; auto|exact H4].
Defined.

(** ** Index safety of the prominence and width scans *)

Section ProminenceSafety.
Variables (sub_image : list Q) (n : Z) (vp : Q).
Hypothesis Himg : len sub_image = n.

(** The left scan only reads indices between [-n/2] and its start. *)
Lemma prominence_left_total : forall wlen i left_min,
  i < n -> exists m, Gpu.prominence_left sub_image n vp wlen i left_min = inr m.
Proof.
  induction wlen as [|wlen IH]; intros i left_min Hi; simpl;
    unfold Gpu.above_i_min; destruct (- n <=? 2 * i) eqn:Hmin; eauto.
  - assert (Hx : exists x, rd sub_image i = inr x).
    { destruct (Z.lt_ge_cases i 0).
      - destruct (rd_wrapped sub_image i) as (x & Hx & _); [lia|eauto].
      - destruct (rd_in_range sub_image i) as (x & Hx & _); [lia|eauto]. }
    destruct Hx as (x & ->). simpl. destruct (Qle_bool x vp); eauto.
  - assert (Hx : exists x, rd sub_image i = inr x).
    { destruct (Z.lt_ge_cases i 0).
      - destruct (rd_wrapped sub_image i) as (x & Hx & _); [lia|eauto].
      - destruct (rd_in_range sub_image i) as (x & Hx & _); [lia|eauto]. }
    destruct Hx as (x & ->). simpl. destruct (Qle_bool x vp); eauto.
    apply IH. lia.
Qed.

(** The right scan reads at [i % n], always inside the array. *)
Lemma prominence_right_total : forall wlen i right_min,
  0 < n ->
  exists m, Gpu.prominence_right sub_image n vp wlen i right_min = inr m.
Proof.
  induction wlen as [|wlen IH]; intros i right_min Hn; simpl;
    destruct (Gpu.below_i_max n i); eauto.
  - destruct (rd_in_range sub_image (i mod n)) as (x & -> & _).
    { rewrite Himg. now apply Z.mod_pos_bound. }
    simpl. destruct (Qle_bool x vp); eauto.
  - destruct (rd_in_range sub_image (i mod n)) as (x & -> & _).
    { rewrite Himg. now apply Z.mod_pos_bound. }
    simpl. destruct (Qle_bool x vp); eauto.
Qed.
End ProminenceSafety.

(** Every read of [_prominence] is inside the array: the kernel
    returns a value at every position. *)
Lemma prominence_at_total (sub_image : list Q) (sub_peak_array : list Z) pos :
  length sub_image = length sub_peak_array ->
  0 <= pos < len sub_peak_array ->
  exists v, Gpu.prominence_at sub_image sub_peak_array pos = inr v.
Proof.
  intros Hlen Hpos.
  assert (Himg : len sub_image = len sub_peak_array)
    by (unfold len; now rewrite Hlen).
  unfold Gpu.prominence_at.
  destruct (rd_in_range sub_peak_array pos Hpos) as (pk & -> & _). simpl.
  destruct (pk =? 1); [|eauto].
  destruct (rd_in_range sub_image pos) as (vp & -> & _); [lia|]. simpl.
  destruct (prominence_left_total sub_image _ vp Himg
              (Z.to_nat (len sub_peak_array - 1)) pos vp) as (l & ->); [lia|].
  simpl.
  destruct (prominence_right_total sub_image _ vp Himg
              (Z.to_nat (len sub_peak_array - 1)) pos vp) as (r & ->); [lia|].
  simpl. eauto.
Qed.

Lemma fill_total {A} (f : Z -> run A) (range : list Z) :
  (forall pos, In pos range -> exists v, f pos = inr v) ->
  exists out, fill f range = inr out /\ length out = length range.
Proof.
  induction range as [|pos range IH]; intros Hf; simpl; [eauto|].
  destruct (Hf pos (or_introl eq_refl)) as (v & ->).
  destruct IH as (out & -> & Hout); [intros; apply Hf; now right|].
  simpl. exists (v :: out). split; [reflexivity|]. simpl. now rewrite Hout.
Qed.

Lemma prominence_total (sub_image : list Q) (sub_peak_array : list Z) :
  length sub_image = length sub_peak_array ->
  exists out, Gpu._prominence sub_image sub_peak_array = inr out
              /\ length out = length sub_peak_array.
Proof.
  intros Hlen. unfold Gpu._prominence.
  destruct (fill_total (Gpu.prominence_at sub_image sub_peak_array)
              (seqZ 0 (len sub_peak_array))) as (out & Hout & Hl).
  - intros pos Hpos. rewrite <- list_elem_of_In, elem_of_seqZ in Hpos.
    apply prominence_at_total; [exact Hlen|lia].
  - exists out. split; [exact Hout|].
    rewrite Hl, length_seqZ. unfold len. lia.
Qed.

(** C5.  A three-sample profile that rises to a peak at its last
    position, [0, 1, 2]: the prominence kernel, whose right scan indexes
    with [i % len], returns the prominence 1; the right scan of the
    width kernel indexes with [i] itself, steps from the peak to index 3
    and reads past the end of the array. *)
Theorem peakwidth_right_scan_out_of_bounds :
  let sub_image := [0; 1; 2]%Q in
  let sub_peak_array := [0; 0; 1] in
  Gpu._prominence sub_image sub_peak_array = inr [0; 0; 2 - 1]%Q
  /\ rd sub_image 3 = inl OutOfBounds
  /\ Gpu.width_right sub_image 3 (2 - 1 * (1 # 2)) 6 2 = inl OutOfBounds
  /\ Gpu._peakwidth sub_image sub_peak_array [0; 0; 1]%Q (1 # 2)
     = inl OutOfBounds.
Proof. repeat split; vm_compute; reflexivity. Qed.

(** ** [_prominence] against the scan of the specification *)


Lemma rd_circular (sub_image : list Q) (i : Z) :
  - len sub_image <= i < len sub_image ->
  rd sub_image i = inr (circular sub_image i).
Proof.
  intros Hi. unfold circular.
  destruct (Z.lt_ge_cases i 0) as [Hneg|Hpos].
  - destruct (rd_wrapped sub_image i) as (x & -> & Hx); [lia|].
    f_equal. symmetry.
    replace (i mod len sub_image) with (i + len sub_image).
    + now apply nth_lookup_Some with (d := 0%Q) in Hx.
    + apply Z.mod_unique with (q := -1); lia.
  - destruct (rd_in_range sub_image i) as (x & -> & Hx); [lia|].
    f_equal. symmetry. rewrite Z.mod_small by lia.
    now apply nth_lookup_Some with (d := 0%Q) in Hx.
Qed.

Lemma rd_modulo (sub_image : list Q) (i : Z) :
  0 < len sub_image ->
  rd sub_image (i mod len sub_image) = inr (circular sub_image i).
Proof.
  intros Hn. rewrite rd_circular.
  - unfold circular. now rewrite Z.mod_mod by lia.
  - pose proof (Z.mod_pos_bound i (len sub_image) Hn). lia.
Qed.

Lemma prominence_left_scan (sub_image : list Q) (vp : Q) :
  forall wlen i least,
  i < len sub_image ->
  Gpu.prominence_left sub_image (len sub_image) vp wlen i least
  = inr (scan sub_image vp (-1)
           (Nat.min wlen (Z.to_nat (i + len sub_image / 2 + 1))) i least).
Proof.
  induction wlen as [|wlen IH]; intros i least Hi; simpl;
    unfold Gpu.above_i_min; destruct (- len sub_image <=? 2 * i) eqn:Hmin.
  - rewrite rd_circular by lia. simpl. now destruct (Qle_bool _ vp).
  - reflexivity.
  - rewrite rd_circular by lia. simpl.
    apply Z.leb_le in Hmin.
    assert (Hk : Z.to_nat (i + len sub_image / 2 + 1)
                 = Datatypes.S (Z.to_nat (i - 1 + len sub_image / 2 + 1)))
      by lia.
    rewrite Hk. simpl. destruct (Qle_bool _ vp); [|reflexivity].
    apply IH. lia.
  - apply Z.leb_gt in Hmin.
    assert (Hk : Z.to_nat (i + len sub_image / 2 + 1) = 0%nat) by lia.
    rewrite Hk. reflexivity.
Qed.

Lemma prominence_right_scan (sub_image : list Q) (vp : Q) :
  forall wlen i least,
  0 < len sub_image ->
  Gpu.prominence_right sub_image (len sub_image) vp wlen i least
  = inr (scan sub_image vp 1
           (Nat.min wlen (Z.to_nat ((3 * len sub_image) / 2 - i + 1))) i least).
Proof.
  induction wlen as [|wlen IH]; intros i least Hn; simpl;
    unfold Gpu.below_i_max; destruct (i <=? 3 * len sub_image / 2) eqn:Hmax.
  - rewrite rd_modulo by lia. simpl. now destruct (Qle_bool _ vp).
  - reflexivity.
  - rewrite rd_modulo by lia. simpl.
    apply Z.leb_le in Hmax.
    assert (Hk : Z.to_nat (3 * len sub_image / 2 - i + 1)
                 = Datatypes.S (Z.to_nat (3 * len sub_image / 2 - (i + 1) + 1)))
      by lia.
    rewrite Hk. simpl. destruct (Qle_bool _ vp); [|reflexivity].
    now apply IH.
  - apply Z.leb_gt in Hmax.
    assert (Hk : Z.to_nat (3 * len sub_image / 2 - i + 1) = 0%nat) by lia.
    rewrite Hk. reflexivity.
Qed.

(** An eight-sample profile with its peak at position 0 and its lowest
    sample at position 2: a left window of 7 samples reaches position 2
    (through 7, 6, 5, 4, 3), the kernel stops at [i_min = -4], after
    position 4.  The specification gives the prominence 9, the kernel
    5. *)
Lemma prominence_stops_at_i_min :
  let sub_image := [10; 5; 1; 5; 5; 5; 5; 5]%Q in
  let sub_peak_array := [1; 0; 0; 0; 0; 0; 0; 0] in
  exists v,
    Gpu.prominence_at sub_image sub_peak_array 0 = inr v
    /\ (v == 5)%Q
    /\ (prominence_spec sub_image 0 == 9)%Q
    /\ ~ (v == prominence_spec sub_image 0)%Q.
Proof.
  eexists. split; [vm_compute; reflexivity|].
  split; [vm_compute; reflexivity|].
  split; [vm_compute; reflexivity|].
  vm_compute. discriminate.
Qed.

(** C8, as the code has it.  At a peak [pos] the left and right scans
    each stop at the first sample strictly above [value(pos)], after
    [n - 1] samples, or when the index leaves [-n/2 .. 3n/2], whichever
    comes first; the prominence is [value(pos)] minus the larger of the
    two least samples seen.  Away from the peaks it is 0. *)
Theorem prominence_postcondition
  (sub_image : list Q) (sub_peak_array : list Z) (pos : Z) :
  length sub_image = length sub_peak_array ->
  0 <= pos < len sub_peak_array ->
  let n := len sub_peak_array in
  let vp := circular sub_image pos in
  (is_peak sub_peak_array pos = true ->
   Gpu.prominence_at sub_image sub_peak_array pos
   = inr (vp - pymax (scan sub_image vp (-1) (left_window n pos) pos vp)
                     (scan sub_image vp 1 (right_window n pos) pos vp))%Q)
  /\ (is_peak sub_peak_array pos = false ->
      Gpu.prominence_at sub_image sub_peak_array pos = inr 0%Q).
Proof.
  intros Hlen Hpos n vp.
  assert (Himg : len sub_image = n) by (unfold n, len; now rewrite Hlen).
  unfold Gpu.prominence_at, is_peak.
  destruct (rd_in_range sub_peak_array pos Hpos) as (pk & -> & _). simpl.
  split; intros ->; [|reflexivity].
  fold n. rewrite <- Himg.
  rewrite rd_circular by lia. simpl. fold vp.
  rewrite prominence_left_scan by lia. simpl.
  rewrite prominence_right_scan by lia. simpl.
  reflexivity.
Qed.

Lemma prominence_postcondition_witness :
  Gpu.prominence_at [10; 5; 1; 5; 5; 5; 5; 5]%Q [1; 0; 0; 0; 0; 0; 0; 0] 0
  = inr (10 - pymax (scan [10; 5; 1; 5; 5; 5; 5; 5]%Q 10 (-1) 5 0 10)
                    (scan [10; 5; 1; 5; 5; 5; 5; 5]%Q 10 1 7 0 10))%Q.
Proof.
  apply (proj1 (prominence_postcondition
                  [10; 5; 1; 5; 5; 5; 5; 5]%Q [1; 0; 0; 0; 0; 0; 0; 0] 0
                  eq_refl ltac:(unfold len; simpl; lia))).
  reflexivity.
Defined.

(** ** [_centroid] *)

(** Whatever the kernel returns has been clamped. *)
Lemma centroid_clamped sub_image sub_peaks lbs rbs pos v :
  Gpu.centroid_at sub_image sub_peaks lbs rbs pos = inr v ->
  (-1 <= v <= 1)%Q.
Proof.
  unfold Gpu.centroid_at.
  destruct (rd sub_peaks pos) as [|pk]; [discriminate|]. simpl.
  destruct (pk =? 1).
  2:{ intros [= <-]. split; discriminate. }
  destruct (rd lbs pos) as [|lb]; [discriminate|]. simpl.
  destruct (rd rbs pos) as [|rb]; [discriminate|]. simpl.
  destruct (for_each _ _ _) as [|sums]; [discriminate|]. simpl.
  destruct (fdiv _ _) as [|centroid]; [discriminate|]. simpl.
  intros [= <-].
  destruct (Qlt_b 1 centroid) eqn:Hhi.
  - replace (Qlt_b 1 (-1)) with false by reflexivity. split; discriminate.
  - apply Qlt_b_ge in Hhi.
    destruct (Qlt_b centroid (-1)) eqn:Hlo.
    + split; discriminate.
    + apply Qlt_b_ge in Hlo. now split.
Qed.

(** C6.  A peak of height 0.5 between two samples of height 0.1; the
    base kernel gives it the window [pos - 1, pos + 1].  The centroid
    kernel compares the interpolated samples with
    [sub_peaks[pos] * 0.94], the peak flag times 0.94, not with 0.94
    times the peak value 0.5; no sample passes, both sums stay 0 and the
    quotient is not a finite number, where the specification gives the
    offset 0.  On the profile [2, 10, 6] the kernel keeps all the
    samples above 0.94 and returns 67/700, where the specification keeps
    those above 9.4 and gives 161/4860. *)
Theorem centroid_threshold_uses_peak_flag :
  Gpu._centroid_correction_bases [1 # 10; 5 # 10; 1 # 10]%Q [0; 1; 0] [1; 0; 1]
  = inr ([0; 1; 0], [0; 1; 0])
  /\ Gpu.centroid_at [1 # 10; 5 # 10; 1 # 10]%Q [0; 1; 0] [0; 1; 0] [0; 1; 0] 1
     = inl NotFinite
  /\ Gpu._centroid [1 # 10; 5 # 10; 1 # 10]%Q [0; 1; 0] [0; 1; 0] [0; 1; 0]
     = inl NotFinite
  /\ (exists w, centroid_spec [1 # 10; 5 # 10; 1 # 10]%Q 1 1 1 = inr w
                /\ (w == 0)%Q)
  /\ (exists v w,
        Gpu.centroid_at [2; 10; 6]%Q [0; 1; 0] [0; 1; 0] [0; 1; 0] 1 = inr v
        /\ centroid_spec [2; 10; 6]%Q 1 1 1 = inr w
        /\ (v == 67 # 700)%Q /\ (w == 161 # 4860)%Q).
Proof.
  split; [vm_compute; reflexivity|].
  split; [vm_compute; reflexivity|].
  split; [vm_compute; reflexivity|].
  split.
  - eexists. split; vm_compute; reflexivity.
  - do 2 eexists. split; [vm_compute; reflexivity|].
    split; [vm_compute; reflexivity|].
    split; vm_compute; reflexivity.
Qed.

(** ** [_peak_cleanup] and its input array *)

Lemma clear1_idem x : clear1 (clear1 x) = clear1 x.
Proof. unfold clear1. destruct (x =? 1) eqn:E; [reflexivity|now rewrite E]. Qed.

Lemma clear1_other x : x <> 1 -> clear1 x = x.
Proof. intros Hx. unfold clear1. now replace (x =? 1) with false by lia. Qed.

Lemma faded_refl l : faded l l.
Proof. split; auto. Qed.

Lemma faded_trans l1 l2 l3 : faded l1 l2 -> faded l2 l3 -> faded l1 l3.
Proof.
  intros [H1 H12] [H2 H23]. split; [congruence|].
  intros j x Hx. destruct (H12 j x Hx) as [Hy|Hy].
  - exact (H23 j x Hy).
  - destruct (H23 j _ Hy) as [Hz|Hz]; [now right|].
    right. now rewrite clear1_idem in Hz.
Qed.

Lemma faded_insert l j : l !! j = Some 1 -> faded l (<[j := 0]> l).
Proof.
  intros Hj. split; [apply length_insert|].
  intros i x Hx. destruct (Nat.eq_dec j i) as [<-|Hne].
  - right. rewrite list_lookup_insert_eq by (now apply lookup_lt_Some in Hj).
    now replace x with 1 by congruence.
  - left. now rewrite list_lookup_insert_ne.
Qed.

(** An entry other than one keeps its value. *)
Lemma faded_keeps old new j x :
  faded old new -> old !! j = Some x -> x <> 1 -> new !! j = Some x.
Proof.
  intros [_ H] Hx Hne. destruct (H j x Hx) as [Hy|Hy]; [exact Hy|].
  now rewrite clear1_other in Hy.
Qed.

Lemma faded_len old new : faded old new -> len new = len old.
Proof. intros [H _]. unfold len. now rewrite H. Qed.

Lemma mod_turn pos n : 0 <= pos < n -> (pos + n) mod n = pos.
Proof. intros H. symmetry. apply Z.mod_unique with (q := 1); lia. Qed.

(** The inner loop stops within one turn of the array, and has cleared
    the entries it went over. *)
Lemma cleanup_run_spec : forall fuel pos offset peaks res,
  0 <= pos < len peaks ->
  1 <= offset <= len peaks ->
  len peaks - offset <= Z.of_nat fuel ->
  length res = length peaks ->
  (exists x, peaks !! Z.to_nat pos = Some x /\ x <> 1) ->
  exists offset' peaks' res',
    Gpu.cleanup_run fuel pos offset peaks res = inr (offset', (peaks', res'))
    /\ offset <= offset' <= len peaks
    /\ faded peaks peaks'
    /\ length res' = length res
    /\ forall k, offset <= k < offset' ->
                 peaks' !! Z.to_nat ((pos + k) mod len peaks) = Some 0.
Proof.
  induction fuel as [|fuel IH]; intros pos offset peaks res Hpos Hoff Hfuel Hres
    (x0 & Hx0 & Hne0).
  - assert (offset = len peaks) by lia. subst offset.
    simpl. rewrite (mod_turn pos (len peaks) Hpos).
    rewrite (rd_lookup peaks pos x0) by (lia || assumption). simpl.
    replace (x0 =? 1) with false by lia.
    exists (len peaks), peaks, res.
    split; [reflexivity|]. split; [lia|]. split; [apply faded_refl|].
    split; [reflexivity|]. intros k Hk. lia.
  - simpl.
    assert (Hidx : 0 <= (pos + offset) mod len peaks < len peaks)
      by (apply Z.mod_pos_bound; lia).
    destruct (rd_in_range peaks _ Hidx) as (pk & -> & Hpk). simpl.
    destruct (pk =? 1) eqn:Epk.
    + apply Z.eqb_eq in Epk. subst pk.
      assert (Hidxne : (pos + offset) mod len peaks <> pos).
      { intros Heq. rewrite Heq in Hpk. congruence. }
      assert (Hlt : offset < len peaks).
      { destruct (Z.eq_dec offset (len peaks)) as [->|]; [|lia].
        exfalso. apply Hidxne. now apply mod_turn. }
      rewrite wr_in_range by (unfold len in *; lia). simpl.
      rewrite wr_in_range by lia. simpl.
      set (peaks1 := <[Z.to_nat ((pos + offset) mod len peaks) := 0]> peaks).
      assert (Hlen1 : len peaks1 = len peaks) by apply len_insert.
      destruct (IH pos (offset + 1) peaks1
                  (<[Z.to_nat ((pos + offset) mod len peaks) := 0]> res))
        as (offset' & peaks' & res' & Hrun & Hoff' & Hfad & Hres' & Hzero).
      * lia.
      * lia.
      * lia.
      * unfold peaks1. now rewrite !length_insert.
      * exists x0. split; [|exact Hne0]. unfold peaks1.
        rewrite list_lookup_insert_ne by lia. exact Hx0.
      * exists offset', peaks', res'.
        assert (Hfad1 : faded peaks peaks1) by now apply faded_insert.
        split; [exact Hrun|]. split; [lia|].
        split; [eapply faded_trans; eassumption|].
        split; [now rewrite Hres', length_insert|].
        intros k Hk. destruct (Z.eq_dec k offset) as [->|Hko].
        -- apply (faded_keeps peaks1); [exact Hfad| |discriminate].
           unfold peaks1. apply list_lookup_insert_eq.
           now apply lookup_lt_Some in Hpk.
        -- rewrite <- Hlen1. apply Hzero. lia.
    + exists offset, peaks, res.
      split; [reflexivity|]. split; [lia|]. split; [apply faded_refl|].
      split; [reflexivity|]. intros k Hk. lia.
Qed.

(** The outer loop reaches the end of the array, leaving no one
    behind. *)
Lemma cleanup_loop_spec (orig : list Z) : forall fuel pos peaks res,
  0 <= pos ->
  len peaks - pos <= Z.of_nat fuel ->
  length res = length peaks ->
  faded orig peaks ->
  no_one_upto peaks pos ->
  exists peaks' res',
    Gpu.cleanup_loop fuel pos peaks res = inr (peaks', res')
    /\ faded orig peaks'
    /\ no_one_upto peaks' (len peaks)
    /\ length res' = length res.
Proof.
  induction fuel as [|fuel IH]; intros pos peaks res Hpos Hfuel Hres Hfad Hno.
  - simpl. replace (pos <? len peaks) with false by lia.
    exists peaks, res. split; [reflexivity|]. split; [exact Hfad|].
    split; [|reflexivity]. intros j x Hj. apply Hno. lia.
  - simpl. destruct (pos <? len peaks) eqn:Hlt.
    2:{ exists peaks, res. split; [reflexivity|]. split; [exact Hfad|].
        split; [|reflexivity]. intros j x Hj. apply Hno. lia. }
    apply Z.ltb_lt in Hlt.
    destruct (rd_in_range peaks pos) as (pk & -> & Hpk); [lia|]. simpl.
    destruct (pk =? 1) eqn:Epk.
    + apply Z.eqb_eq in Epk. subst pk.
      rewrite wr_in_range by lia. simpl.
      set (peaks1 := <[Z.to_nat pos := 0]> peaks).
      assert (Hlen1 : len peaks1 = len peaks) by apply len_insert.
      assert (Hlen1' : length peaks1 = length peaks) by apply length_insert.
      destruct (cleanup_run_spec (length peaks1) pos 1 peaks1 res)
        as (offset & peaks2 & res2 & -> & Hoff & Hfad2 & Hres2 & Hzero).
      * lia.
      * lia.
      * unfold len. lia.
      * now rewrite Hlen1'.
      * exists 0. split; [|discriminate]. unfold peaks1.
        apply list_lookup_insert_eq. now apply lookup_lt_Some in Hpk.
      * simpl. rewrite Hlen1 in Hoff, Hzero.
        assert (Hlen2 : len peaks2 = len peaks)
          by (rewrite (faded_len _ _ Hfad2); exact Hlen1).
        rewrite wr_in_range.
        2:{ replace (len res2) with (len peaks)
              by (unfold len; now rewrite Hres2, Hres).
            apply Z.mod_pos_bound. lia. }
        simpl.
        destruct (IH (pos + offset) peaks2
                    (<[Z.to_nat ((pos + (offset - 1) / 2) mod len peaks) := 1]>
                       res2))
          as (peaks' & res' & Hrun & Hfad' & Hno' & Hres').
        -- lia.
        -- lia.
        -- rewrite length_insert, Hres2, Hres.
           destruct Hfad2 as [Hl _]. now rewrite Hl.
        -- eapply faded_trans; [exact Hfad|].
           eapply faded_trans; [|exact Hfad2]. now apply faded_insert.
        -- intros j x Hj Hx.
           destruct (Z.lt_ge_cases (Z.of_nat j) pos) as [Hjp|Hjp].
           ++ destruct (lookup_lt_is_Some_2 peaks j) as [y Hy].
              { apply lookup_lt_Some in Hx. destruct Hfad2 as [Hl _].
                rewrite Hl, Hlen1' in Hx. exact Hx. }
              assert (Hy1 : y <> 1) by (apply (Hno j y); assumption).
              assert (Hy' : peaks1 !! j = Some y).
              { unfold peaks1. rewrite list_lookup_insert_ne by lia. exact Hy. }
              rewrite (faded_keeps _ _ _ _ Hfad2 Hy' Hy1) in Hx. congruence.
           ++ assert (Hjn : Z.of_nat j < len peaks).
              { apply lookup_lt_Some in Hx. unfold len in *. lia. }
              destruct (Z.eq_dec (Z.of_nat j) pos) as [Hjeq|Hjne].
              ** assert (H0 : peaks1 !! j = Some 0).
                 { unfold peaks1. replace j with (Z.to_nat pos) by lia.
                   apply list_lookup_insert_eq.
                   now apply lookup_lt_Some in Hpk. }
                 rewrite (faded_keeps _ _ _ _ Hfad2 H0) in Hx by discriminate.
                 injection Hx as <-. discriminate.
              ** specialize (Hzero (Z.of_nat j - pos) ltac:(lia)).
                 replace (pos + (Z.of_nat j - pos)) with (Z.of_nat j) in Hzero
                   by lia.
                 rewrite Z.mod_small, Nat2Z.id in Hzero by lia.
                 rewrite Hzero in Hx. injection Hx as <-. discriminate.
        -- rewrite Hlen2 in Hno'. rewrite Hrun.
           exists peaks', res'. split; [reflexivity|]. split; [exact Hfad'|].
           split; [exact Hno'|].
           now rewrite Hres', length_insert, Hres2.
    + rewrite wr_in_range by (unfold len in *; lia). simpl.
      destruct (IH (pos + 1) peaks (<[Z.to_nat pos := 0]> res))
        as (peaks' & res' & Hrun & Hfad' & Hno' & Hres').
      * lia.
      * lia.
      * now rewrite length_insert.
      * exact Hfad.
      * intros j x Hj Hx.
        destruct (Z.eq_dec (Z.of_nat j) pos) as [Hjeq|Hjne].
        -- replace j with (Z.to_nat pos) in Hx by lia.
           replace x with pk by congruence. lia.
        -- apply (Hno j x); [lia|exact Hx].
      * exists peaks', res'. split; [exact Hrun|]. split; [exact Hfad'|].
        split; [exact Hno'|]. now rewrite Hres', length_insert.
Qed.

(** A peak array with a plateau of two ones: the kernel leaves its input
    all zero, and run again on that array it no longer finds the peak. *)
Lemma peak_cleanup_overwrites_input :
  let peaks := [0; 1; 1; 0] in
  let res := [0; 0; 0; 0] in
  exists peaks' res' res'',
    Gpu._peak_cleanup peaks res = inr (peaks', res')
    /\ peaks' <> peaks
    /\ res' = [0; 1; 0; 0]
    /\ Gpu._peak_cleanup peaks' res = inr (peaks', res'')
    /\ res'' <> res'.
Proof.
  do 3 eexists. split; [vm_compute; reflexivity|].
  split; [discriminate|]. split; [reflexivity|].
  split; [vm_compute; reflexivity|]. discriminate.
Qed.

(** C10, as the code has it.  [_peak_cleanup] overwrites its input: when
    it returns, every entry of the input peak array that was 1 is 0 and
    every other entry is as before; the result array keeps its
    length. *)
Theorem peak_cleanup_clears_input (peaks res : list Z) :
  length res = length peaks ->
  exists res',
    Gpu._peak_cleanup peaks res = inr (map clear1 peaks, res')
    /\ length res' = length res.
Proof.
  intros Hres. unfold Gpu._peak_cleanup.
  destruct (cleanup_loop_spec peaks (length peaks) 0 peaks res)
    as (peaks' & res' & Hrun & [Hlen Hfad] & Hno & Hres').
  - lia.
  - unfold len. lia.
  - exact Hres.
  - apply faded_refl.
  - intros j x Hj. lia.
  - exists res'. split; [|exact Hres'].
    rewrite Hrun. do 2 f_equal.
    apply list_eq. intros j. rewrite list_lookup_fmap.
    destruct (peaks !! j) as [x|] eqn:Hx; simpl.
    + destruct (lookup_lt_is_Some_2 peaks' j) as [y Hy].
      { rewrite Hlen. now apply lookup_lt_Some in Hx. }
      assert (Hy1 : y <> 1).
      { apply (Hno j y); [|exact Hy]. apply lookup_lt_Some in Hx.
        unfold len. lia. }
      rewrite Hy. f_equal.
      destruct (Hfad j x Hx) as [Hz|Hz]; rewrite Hy in Hz;
        injection Hz as ->; [now rewrite clear1_other|reflexivity].
    + apply lookup_ge_None. rewrite Hlen. now apply lookup_ge_None in Hx.
Qed.

Lemma peak_cleanup_clears_input_witness :
  exists res',
    Gpu._peak_cleanup [0; 1; 1; 0; 2] [7; 7; 7; 7; 7]
    = inr ([0; 0; 0; 0; 2], res')
    /\ length res' = 5%nat.
Proof.
  exact (peak_cleanup_clears_input [0; 1; 1; 0; 2] [7; 7; 7; 7; 7] eq_refl).
Defined.

(** ** [_peakwidth]: sign and monotonicity *)

Lemma fdiv_positive (x y : Q) : (0 < y)%Q -> fdiv x y = inr (x / y)%Q.
Proof.
  intros Hy. unfold fdiv. destruct (Qeq_bool y 0) eqn:E; [|reflexivity].
  apply Qeq_bool_eq in E. rewrite E in Hy. now apply Qlt_irrefl in Hy.
Qed.

Lemma fraction_bounds (x d : Q) :
  (0 < x)%Q -> (x < d)%Q -> (0 < x / d)%Q /\ (x / d < 1)%Q.
Proof.
  intros Hx Hd. assert (Hd0 : (0 < d)%Q) by lra. split.
  - apply Qlt_shift_div_l; [exact Hd0|lra].
  - apply Qlt_shift_div_r; [exact Hd0|lra].
Qed.

Lemma fraction_monotone (x x' d : Q) :
  (0 < d)%Q -> (x' <= x)%Q -> (x' / d <= x / d)%Q.
Proof.
  intros Hd Hx. unfold Qdiv. apply Qmult_le_compat_r; [exact Hx|].
  apply Qinv_le_0_compat. lra.
Qed.

Lemma inject_Z_succ (i : Z) : (inject_Z (i + 1) == inject_Z i + 1)%Q.
Proof. rewrite inject_Z_plus. reflexivity. Qed.

Lemma inject_Z_pred (i : Z) : (inject_Z (i - 1) == inject_Z i - 1)%Q.
Proof.
  unfold Z.sub. rewrite inject_Z_plus. reflexivity.
Qed.

Lemma inject_Z_le (i j : Z) : i <= j -> (inject_Z i <= inject_Z j)%Q.
Proof. intros H. now rewrite <- Zle_Qle. Qed.

Section Width.
Variables (sub_image : list Q) (n : Z).
Hypothesis Himg : len sub_image = n.

Lemma width_left_stop (height : Q) : forall fuel i,
  i < n -> 2 * i + n <= 2 * Z.of_nat fuel ->
  exists iL, Gpu.width_left sub_image n height fuel i = inr iL
             /\ left_stop sub_image n height i iL.
Proof.
  induction fuel as [|fuel IH]; intros i Hi Hfuel.
  - simpl. replace (- n <? 2 * i) with false by lia.
    exists i. split; [reflexivity|]. split; [lia|]. split; [intros; lia|].
    left. lia.
  - simpl. destruct (- n <? 2 * i) eqn:Hmin.
    2:{ exists i. split; [reflexivity|]. split; [lia|].
        split; [intros; lia|]. left. lia. }
    apply Z.ltb_lt in Hmin.
    rewrite rd_circular by lia. simpl.
    destruct (Qlt_b height (circular sub_image i)) eqn:Hh.
    + apply Qlt_b_lt in Hh.
      destruct (IH (i - 1)) as (iL & -> & HiL & Hover & Hstop); [lia|lia|].
      exists iL. split; [reflexivity|]. split; [lia|]. split; [|exact Hstop].
      intros k Hk. destruct (Z.eq_dec k i) as [->|]; [now split|].
      apply Hover. lia.
    + apply Qlt_b_ge in Hh.
      exists i. split; [reflexivity|]. split; [lia|].
      split; [intros; lia|]. now right.
Qed.

Lemma width_right_stop (height : Q) (j : Z) : forall fuel i,
  0 <= i <= j -> j < n -> (circular sub_image j <= height)%Q ->
  3 * n / 2 - i <= Z.of_nat fuel ->
  exists iR, Gpu.width_right sub_image n height fuel i = inr iR
             /\ right_stop sub_image n height i iR /\ iR <= j.
Proof.
  induction fuel as [|fuel IH]; intros i Hi Hj Hlow Hfuel.
  - simpl. replace (i <? 3 * n / 2) with false by lia.
    exists i. split; [reflexivity|]. split; [|lia].
    split; [lia|]. split; [intros; lia|]. left. lia.
  - simpl. destruct (i <? 3 * n / 2) eqn:Hmax.
    2:{ exists i. split; [reflexivity|]. split; [|lia].
        split; [lia|]. split; [intros; lia|]. left. lia. }
    apply Z.ltb_lt in Hmax.
    rewrite rd_circular by lia. simpl.
    destruct (Qlt_b height (circular sub_image i)) eqn:Hh.
    + apply Qlt_b_lt in Hh.
      assert (Hij : i < j).
      { destruct (Z.eq_dec i j) as [->|]; [|lia]. lra. }
      destruct (IH (i + 1)) as (iR & -> & (HiR & Hover & Hstop) & HiRj);
        [lia|lia|exact Hlow|lia|].
      exists iR. split; [reflexivity|]. split; [|exact HiRj].
      split; [lia|]. split; [|exact Hstop].
      intros k Hk. destruct (Z.eq_dec k i) as [->|]; [now split|].
      apply Hover. lia.
    + apply Qlt_b_ge in Hh.
      exists i. split; [reflexivity|]. split; [|lia].
      split; [lia|]. split; [intros; lia|]. now right.
Qed.

Section Ends.
Variables (height : Q) (pos : Z).
Hypothesis Hpos : 0 <= pos < n.
Hypothesis Hheight : (height <= circular sub_image pos)%Q.

(** At a stop below [height], the neighbour towards the peak is above
    it. *)
Lemma left_stop_neighbour i :
  left_stop sub_image n height pos i ->
  (circular sub_image i < height)%Q ->
  i < pos /\ (height < circular sub_image (i + 1))%Q.
Proof.
  intros (Hi & Hover & _) Hlow.
  assert (Hne : i <> pos) by (intros ->; lra).
  split; [lia|]. apply Hover. lia.
Qed.

Lemma right_stop_neighbour i :
  right_stop sub_image n height pos i ->
  (circular sub_image i < height)%Q ->
  pos < i /\ (height < circular sub_image (i - 1))%Q.
Proof.
  intros (Hi & Hover & _) Hlow.
  assert (Hne : i <> pos) by (intros ->; lra).
  split; [lia|]. apply Hover. lia.
Qed.

Lemma left_ip_bounds i :
  left_stop sub_image n height pos i ->
  (inject_Z i <= left_ip sub_image height i)%Q
  /\ (left_ip sub_image height i <= inject_Z pos)%Q
  /\ (i < pos -> (left_ip sub_image height i < inject_Z i + 1)%Q).
Proof.
  intros Hstop. unfold left_ip.
  destruct (Qlt_b (circular sub_image i) height) eqn:Hlow.
  - apply Qlt_b_lt in Hlow.
    destruct (left_stop_neighbour i Hstop Hlow) as [Hi Hnext].
    destruct (fraction_bounds (height - circular sub_image i)
                (circular sub_image (i + 1) - circular sub_image i))
      as [Hf0 Hf1]; [lra|lra|].
    pose proof (inject_Z_le (i + 1) pos ltac:(lia)) as Hle.
    rewrite inject_Z_succ in Hle.
    split; [lra|]. split; [lra|]. intros _. lra.
  - destruct Hstop as (Hi & _).
    pose proof (inject_Z_le i pos Hi).
    split; [lra|]. split; [lra|]. intros _. lra.
Qed.

Lemma right_ip_bounds i :
  right_stop sub_image n height pos i ->
  (right_ip sub_image height i <= inject_Z i)%Q
  /\ (inject_Z pos <= right_ip sub_image height i)%Q
  /\ (pos < i -> (inject_Z i - 1 < right_ip sub_image height i)%Q).
Proof.
  intros Hstop. unfold right_ip.
  destruct (Qlt_b (circular sub_image i) height) eqn:Hlow.
  - apply Qlt_b_lt in Hlow.
    destruct (right_stop_neighbour i Hstop Hlow) as [Hi Hnext].
    destruct (fraction_bounds (height - circular sub_image i)
                (circular sub_image (i - 1) - circular sub_image i))
      as [Hf0 Hf1]; [lra|lra|].
    pose proof (inject_Z_le pos (i - 1) ltac:(lia)) as Hle.
    rewrite inject_Z_pred in Hle.
    split; [lra|]. split; [lra|]. intros _. lra.
  - destruct Hstop as (Hi & _).
    pose proof (inject_Z_le pos i Hi).
    split; [lra|]. split; [lra|]. intros _. lra.
Qed.
End Ends.
End Width.

Section WidthOrder.
Variables (sub_image : list Q) (n : Z).
Hypothesis Himg : len sub_image = n.
Variables (pos : Z) (high low : Q).
Hypothesis Hpos : 0 <= pos < n.
Hypothesis Hlow : (low <= high)%Q.
Hypothesis Hhigh : (high <= circular sub_image pos)%Q.

(** Scanning at a lower height goes at least as far. *)
Lemma left_stop_order i i' :
  left_stop sub_image n high pos i -> left_stop sub_image n low pos i' ->
  i' <= i.
Proof.
  intros (Hi & Hover & _) (Hi' & _ & Hstop').
  destruct (Z.le_gt_cases i' i) as [|Hgt]; [assumption|].
  destruct (Hover i' ltac:(lia)) as [Hb Hs].
  destruct Hstop' as [Hb'|Hs']; [lia|lra].
Qed.

Lemma right_stop_order i i' :
  right_stop sub_image n high pos i -> right_stop sub_image n low pos i' ->
  i <= i'.
Proof.
  intros (Hi & Hover & _) (Hi' & _ & Hstop').
  destruct (Z.le_gt_cases i i') as [|Hgt]; [assumption|].
  destruct (Hover i' ltac:(lia)) as [Hb Hs].
  destruct Hstop' as [Hb'|Hs']; [lia|lra].
Qed.

Lemma left_ip_monotone i i' :
  left_stop sub_image n high pos i -> left_stop sub_image n low pos i' ->
  (left_ip sub_image low i' <= left_ip sub_image high i)%Q.
Proof.
  intros Hs Hs'.
  assert (Hlow' : (low <= circular sub_image pos)%Q) by lra.
  pose proof (left_stop_order i i' Hs Hs') as Hle.
  destruct (left_ip_bounds sub_image n high pos Hpos Hhigh i Hs) as (Hb1 & Hb2 & Hb3).
  destruct (left_ip_bounds sub_image n low pos Hpos Hlow' i' Hs') as (Hc1 & Hc2 & Hc3).
  destruct (Z.eq_dec i' i) as [->|Hne].
  - unfold left_ip in *.
    destruct (Qlt_b (circular sub_image i) low) eqn:E1;
      destruct (Qlt_b (circular sub_image i) high) eqn:E2.
    + apply Qlt_b_lt in E1, E2.
      destruct (left_stop_neighbour sub_image n high pos Hpos Hhigh i Hs E2)
        as [_ Hnext].
      pose proof (fraction_monotone (high - circular sub_image i)
                    (low - circular sub_image i)
                    (circular sub_image (i + 1) - circular sub_image i)
                    ltac:(lra) ltac:(lra)).
      lra.
    + apply Qlt_b_lt in E1. apply Qlt_b_ge in E2. lra.
    + exact Hb1.
    + apply Qle_refl.
  - destruct Hs as (Hi & _).
    specialize (Hc3 ltac:(lia)).
    pose proof (inject_Z_le (i' + 1) i ltac:(lia)) as Hz.
    rewrite inject_Z_succ in Hz. lra.
Qed.

Lemma right_ip_monotone i i' :
  right_stop sub_image n high pos i -> right_stop sub_image n low pos i' ->
  (right_ip sub_image high i <= right_ip sub_image low i')%Q.
Proof.
  intros Hs Hs'.
  assert (Hlow' : (low <= circular sub_image pos)%Q) by lra.
  pose proof (right_stop_order i i' Hs Hs') as Hle.
  destruct (right_ip_bounds sub_image n high pos Hpos Hhigh i Hs) as (Hb1 & Hb2 & Hb3).
  destruct (right_ip_bounds sub_image n low pos Hpos Hlow' i' Hs') as (Hc1 & Hc2 & Hc3).
  destruct (Z.eq_dec i' i) as [->|Hne].
  - unfold right_ip in *.
    destruct (Qlt_b (circular sub_image i) low) eqn:E1;
      destruct (Qlt_b (circular sub_image i) high) eqn:E2.
    + apply Qlt_b_lt in E1, E2.
      destruct (right_stop_neighbour sub_image n high pos Hpos Hhigh i Hs E2)
        as [_ Hnext].
      pose proof (fraction_monotone (high - circular sub_image i)
                    (low - circular sub_image i)
                    (circular sub_image (i - 1) - circular sub_image i)
                    ltac:(lra) ltac:(lra)).
      lra.
    + apply Qlt_b_lt in E1. apply Qlt_b_ge in E2. lra.
    + exact Hb1.
    + apply Qle_refl.
  - destruct Hs as (Hi & _).
    specialize (Hc3 ltac:(lia)).
    pose proof (inject_Z_le i (i' - 1) ltac:(lia)) as Hz.
    rewrite inject_Z_pred in Hz. lra.
Qed.
End WidthOrder.

(** The value of the kernel at a peak, when the right scan meets a
    sample at or below [height] before the end of the array. *)
Lemma peakwidth_at_value (sub_image : list Q) (sub_peak_array : list Z)
  (sub_prominence : list Q) (target_height : Q) (pos j : Z) :
  length sub_image = length sub_peak_array ->
  length sub_prominence = length sub_peak_array ->
  0 <= pos < len sub_peak_array ->
  is_peak sub_peak_array pos = true ->
  let n := len sub_peak_array in
  let height :=
    (circular sub_image pos - entry sub_prominence pos * target_height)%Q in
  (height <= circular sub_image pos)%Q ->
  pos <= j < n -> (circular sub_image j <= height)%Q ->
  exists iL iR,
    Gpu.peakwidth_at sub_image sub_peak_array sub_prominence target_height pos
    = inr (right_ip sub_image height iR - left_ip sub_image height iL)%Q
    /\ left_stop sub_image n height pos iL
    /\ right_stop sub_image n height pos iR.
Proof.
  intros Hlen Hplen Hpos Hpk n height Hheight Hj Hlow.
  assert (Himg : len sub_image = n) by (unfold n, len; now rewrite Hlen).
  assert (Hprom : len sub_prominence = n) by (unfold n, len; now rewrite Hplen).
  unfold Gpu.peakwidth_at.
  unfold is_peak in Hpk.
  destruct (rd sub_peak_array pos) as [|pk]; [discriminate|]. simpl.
  rewrite Hpk. fold n.
  rewrite rd_circular by lia. simpl.
  assert (Hentry : rd sub_prominence pos = inr (entry sub_prominence pos)).
  { destruct (rd_in_range sub_prominence pos) as (x & -> & Hx); [lia|].
    unfold entry. f_equal. symmetry.
    now apply nth_lookup_Some with (d := 0%Q) in Hx. }
  rewrite Hentry. simpl. fold height.
  destruct (width_left_stop sub_image n Himg height (Z.to_nat (2 * n)) pos)
    as (iL & -> & HL); [lia|lia|]. simpl.
  destruct (width_right_stop sub_image n Himg height j (Z.to_nat (2 * n)) pos)
    as (iR & HR' & HR & HRj); [lia|lia|exact Hlow|lia|].
  exists iL, iR. split; [|now split].
  assert (HiL : - n <= iL <= pos).
  { destruct HL as (H1 & H2 & _). split; [|exact H1].
    destruct (Z.eq_dec iL pos) as [->|]; [lia|].
    destruct (H2 (iL + 1) ltac:(lia)) as [Hb _]. lia. }
  rewrite rd_circular by lia. simpl.
  assert (Hleft :
    (if Qlt_b (circular sub_image iL) height
     then let* x1 := rd sub_image (iL + 1)
          in let* d := fdiv (height - circular sub_image iL)
                         (x1 - circular sub_image iL)
             in ret (inject_Z iL + d)%Q
     else ret (inject_Z iL)) = inr (left_ip sub_image height iL)).
  { unfold left_ip.
    destruct (Qlt_b (circular sub_image iL) height) eqn:E; [|reflexivity].
    apply Qlt_b_lt in E.
    destruct (left_stop_neighbour sub_image n height pos Hpos Hheight iL HL E)
      as [Hlt Hnext].
    rewrite rd_circular by lia. simpl.
    rewrite fdiv_positive by lra. reflexivity. }
  rewrite Hleft. simpl. rewrite HR'. simpl.
  assert (HiR : pos <= iR <= j) by (destruct HR as (H1 & _); lia).
  rewrite rd_circular by lia. simpl.
  assert (Hright :
    (if Qlt_b (circular sub_image iR) height
     then let* x1 := rd sub_image (iR - 1)
          in let* d := fdiv (height - circular sub_image iR)
                         (x1 - circular sub_image iR)
             in ret (inject_Z iR - d)%Q
     else ret (inject_Z iR)) = inr (right_ip sub_image height iR)).
  { unfold right_ip.
    destruct (Qlt_b (circular sub_image iR) height) eqn:E; [|reflexivity].
    apply Qlt_b_lt in E.
    destruct (right_stop_neighbour sub_image n height pos Hpos Hheight iR HR E)
      as [Hlt Hnext].
    rewrite rd_circular by lia. simpl.
    rewrite fdiv_positive by lra. reflexivity. }
  rewrite Hright. reflexivity.
Qed.

(** A triangular peak [0, 1, 2, 1, 0] of prominence 2: at the fraction
    1/2 the width is 2, at the smaller fraction 1/4 it is 1. *)
Lemma width_shrinks_with_smaller_fraction :
  let sub_image := [0; 1; 2; 1; 0]%Q in
  let sub_peak_array := [0; 0; 1; 0; 0] in
  let sub_prominence := [0; 0; 2; 0; 0]%Q in
  exists w1 w2,
    Gpu.peakwidth_at sub_image sub_peak_array sub_prominence (1 # 2) 2 = inr w1
    /\ Gpu.peakwidth_at sub_image sub_peak_array sub_prominence (1 # 4) 2
       = inr w2
    /\ (1 # 4 < 1 # 2)%Q
    /\ (w1 == 2)%Q /\ (w2 == 1)%Q
    /\ ~ (w1 <= w2)%Q.
Proof.
  do 2 eexists. split; [vm_compute; reflexivity|].
  split; [vm_compute; reflexivity|].
  split; [reflexivity|].
  split; [vm_compute; reflexivity|].
  split; [vm_compute; reflexivity|].
  vm_compute. intros H. apply H. reflexivity.
Qed.

(** C9, as the code has it.  At a peak with non-negative prominence,
    for two fractions [0 <= h2 <= h1], when the profile comes down to
    the intersection height of [h1] between the peak and the end of the
    array (at [j]): the kernel returns a width for both fractions, both
    are non-negative, and the width at the larger fraction [h1] is the
    larger one: the width does not decrease as [h] grows. *)
Theorem width_nonnegative_and_monotone
  (sub_image : list Q) (sub_peak_array : list Z) (sub_prominence : list Q)
  (h1 h2 : Q) (pos j : Z) :
  length sub_image = length sub_peak_array ->
  length sub_prominence = length sub_peak_array ->
  0 <= pos < len sub_peak_array ->
  is_peak sub_peak_array pos = true ->
  (0 <= entry sub_prominence pos)%Q ->
  (0 <= h2)%Q -> (h2 <= h1)%Q ->
  pos <= j < len sub_peak_array ->
  (circular sub_image j
   <= circular sub_image pos - entry sub_prominence pos * h1)%Q ->
  exists w1 w2,
    Gpu.peakwidth_at sub_image sub_peak_array sub_prominence h1 pos = inr w1
    /\ Gpu.peakwidth_at sub_image sub_peak_array sub_prominence h2 pos = inr w2
    /\ (0 <= w1)%Q /\ (0 <= w2)%Q /\ (w2 <= w1)%Q.
Proof.
  intros Hlen Hplen Hpos Hpk Hprom Hh2 Hh12 Hj Hlow.
  set (vp := circular sub_image pos) in *.
  set (pr := entry sub_prominence pos) in *.
  assert (Hm2 : (0 <= pr * h2)%Q) by (apply Qmult_le_0_compat; lra).
  assert (Hm12 : (pr * h2 <= pr * h1)%Q).
  { rewrite !(Qmult_comm pr). apply Qmult_le_compat_r; assumption. }
  assert (Himg : len sub_image = len sub_peak_array)
    by (unfold len; now rewrite Hlen).
  destruct (peakwidth_at_value sub_image sub_peak_array sub_prominence h1 pos j)
    as (iL1 & iR1 & -> & HL1 & HR1); auto; fold vp pr; [lra|].
  destruct (peakwidth_at_value sub_image sub_peak_array sub_prominence h2 pos j)
    as (iL2 & iR2 & -> & HL2 & HR2); auto; fold vp pr; [lra|lra|].
  do 2 eexists. split; [reflexivity|]. split; [reflexivity|].
  assert (Hb1 : (vp - pr * h1 <= vp)%Q) by lra.
  assert (Hb2 : (vp - pr * h2 <= vp)%Q) by lra.
  assert (Hb12 : (vp - pr * h1 <= vp - pr * h2)%Q) by lra.
  destruct (left_ip_bounds sub_image _ _ pos Hpos Hb1 iL1 HL1) as (_ & Hl1 & _).
  destruct (right_ip_bounds sub_image _ _ pos Hpos Hb1 iR1 HR1) as (_ & Hr1 & _).
  destruct (left_ip_bounds sub_image _ _ pos Hpos Hb2 iL2 HL2) as (_ & Hl2 & _).
  destruct (right_ip_bounds sub_image _ _ pos Hpos Hb2 iR2 HR2) as (_ & Hr2 & _).
  pose proof (left_ip_monotone sub_image _ pos _ _ Hpos Hb12 Hb2
                iL2 iL1 HL2 HL1) as Hml.
  pose proof (right_ip_monotone sub_image _ pos _ _ Hpos Hb12 Hb2
                iR2 iR1 HR2 HR1) as Hmr.
  split; [lra|]. split; lra.
Qed.

Lemma width_nonnegative_and_monotone_witness :
  exists w1 w2,
    Gpu.peakwidth_at [0; 1; 2; 1; 0]%Q [0; 0; 1; 0; 0] [0; 0; 2; 0; 0]%Q
      (1 # 2) 2 = inr w1
    /\ Gpu.peakwidth_at [0; 1; 2; 1; 0]%Q [0; 0; 1; 0; 0] [0; 0; 2; 0; 0]%Q
         (1 # 4) 2 = inr w2
    /\ (0 <= w1)%Q /\ (0 <= w2)%Q /\ (w2 <= w1)%Q.
Proof.
  apply (width_nonnegative_and_monotone
           [0; 1; 2; 1; 0]%Q [0; 0; 1; 0; 0] [0; 0; 2; 0; 0]%Q
           (1 # 2) (1 # 4) 2 4); try reflexivity.
  - unfold len; simpl; lia.
  - vm_compute. discriminate.
  - vm_compute. discriminate.
  - vm_compute. discriminate.
  - unfold len; simpl; lia.
  - vm_compute. discriminate.
Defined.

(** * Further properties of the code *)

(** ** The range of [%] *)

Lemma pymod_range (x m : Q) :
  (0 < m)%Q -> (0 <= pymod x m)%Q /\ (pymod x m < m)%Q.
Proof.
  intros Hm. unfold pymod.
  pose proof (Qfloor_le (x / m)) as Hlo.
  pose proof (Qlt_floor (x / m)) as Hhi.
  rewrite inject_Z_plus in Hhi.
  assert (Hx : (x == m * (x / m))%Q) by (field; lra).
  set (f := inject_Z (Qfloor (x / m))) in *.
  assert (H1 : (m * f <= m * (x / m))%Q)
    by (apply Qmult_le_l; assumption).
  assert (H2 : (m * (x / m) < m * (f + inject_Z 1))%Q)
    by (apply Qmult_lt_l; assumption).
  assert (H3 : (m * (f + inject_Z 1) == m * f + m)%Q) by ring.
  split; lra.
Qed.

Lemma direction_value_pymod (x : Q) : direction_value (pymod x 180).
Proof. right. apply pymod_range. reflexivity. Qed.

Lemma direction_value_background : direction_value BACKGROUND_COLOR.
Proof. now left. Qed.

(** ** Invariants of loops *)

Lemma for_range_invariant {S} (P : S -> Prop) (body : Z -> S -> run (ctl S))
  (range : list Z) :
  (forall i s s', P s ->
                  body i s = inr (Continue s') \/ body i s = inr (Break s') ->
                  P s') ->
  forall s r, P s -> for_range body range s = inr r -> P r.
Proof.
  intros Hbody. induction range as [|i range IH]; intros s r Hs Hr.
  - now injection Hr as <-.
  - simpl in Hr. destruct (body i s) as [f|[s'|s']] eqn:E; simpl in Hr.
    + discriminate.
    + apply (IH s'); [|exact Hr]. apply (Hbody i s); auto.
    + injection Hr as <-. apply (Hbody i s); auto.
Qed.

Lemma wr_inr {A} (a a' : list A) (i : Z) (v : A) :
  wr a i v = inr a' -> exists k, a' = <[k := v]> a.
Proof.
  unfold wr. destruct (_ && _); [|discriminate].
  intros [= <-]. eauto.
Qed.

(** ** The values of the direction slots *)

Lemma direction_body_range a c n nd i st st' :
  Forall direction_value (snd st) /\ length (snd st) = nd ->
  Gpu.direction_body a c n i st = inr (Continue st')
  \/ Gpu.direction_body a c n i st = inr (Break st') ->
  Forall direction_value (snd st') /\ length (snd st') = nd.
Proof.
  intros Hres H. destruct st as [cd res]. simpl in Hres.
  unfold Gpu.direction_body in H.
  destruct (rd a i) as [|pk]; simpl in H; [destruct H; discriminate|].
  destruct (pk =? 1).
  2:{ destruct H as [H|H]; [now injection H as <-|discriminate]. }
  destruct (rd c i) as [|ci]; simpl in H; [destruct H; discriminate|].
  destruct (n =? 1).
  { destruct (wr res cd _) as [|res'] eqn:W; simpl in H;
      [destruct H; discriminate|].
    apply wr_inr in W as [k ->].
    destruct H as [H|H]; [discriminate|injection H as <-]. simpl.
    destruct Hres as [Hv Hl]. split.
    - apply Forall_insert; [exact Hv|apply direction_value_pymod].
    - now rewrite length_insert. }
  destruct (n mod 2 =? 0).
  2:{ destruct H as [H|H]; [now injection H as <-|discriminate]. }
  destruct (Gpu.find_partner a i (n / 2)) as [|[cur rsp]]; simpl in H;
    [destruct H; discriminate|].
  match type of H with
  | context [bind ?m _] => set (inner := m) in H
  end.
  assert (Hinner : forall res', inner = inr res' ->
                   Forall direction_value res' /\ length res' = nd).
  { unfold inner. destruct (rsp =? 0); [|now intros ? [= <-]].
    destruct (rd c cur) as [|cc]; simpl; [discriminate|].
    destruct (_ || _); [|now intros ? [= <-]].
    intros res' W. apply wr_inr in W as [k ->].
    destruct Hres as [Hv Hl]. split.
    - apply Forall_insert; [exact Hv|apply direction_value_pymod].
    - now rewrite length_insert. }
  destruct inner as [|res'] eqn:E; simpl in H; [destruct H; discriminate|].
  destruct (cd + 1 =? n / 2); destruct H as [H|H]; try discriminate;
    injection H as <-; simpl; now apply Hinner.
Qed.

(** X1.  Whatever the peak array, the centroid offsets and the peak
    count, a result returned by [_direction] has [num_directions]
    entries, and each of them is BACKGROUND or a direction in
    [0, 180). *)
Theorem direction_slots_in_range (sub_peak_array : list Z)
  (sub_centroid_array : list Q) (current_number_of_peaks : Z)
  (num_directions : nat) (result : list Q) :
  Gpu._direction sub_peak_array sub_centroid_array current_number_of_peaks
    num_directions = inr result ->
  length result = num_directions /\ Forall direction_value result.
Proof.
  unfold Gpu._direction. intros H.
  assert (H0 : Forall direction_value
                 (replicate num_directions BACKGROUND_COLOR)
               /\ length (replicate num_directions BACKGROUND_COLOR)
                  = num_directions).
  { split; [|apply length_replicate].
    apply Forall_forall. intros v Hv. apply elem_of_replicate in Hv as [-> _].
    apply direction_value_background. }
  destruct (_ <=? _).
  - destruct (for_range _ _ _) as [|st] eqn:E; simpl in H; [discriminate|].
    injection H as <-.
    pose proof (for_range_invariant
                  (fun st => Forall direction_value (snd st)
                             /\ length (snd st) = num_directions)
                  _ _ (direction_body_range _ _ _ num_directions)
                  (0, replicate num_directions BACKGROUND_COLOR) st H0 E)
      as [Hv Hl].
    now split.
  - injection H as <-. destruct H0. now split.
Qed.

Lemma direction_slots_in_range_witness :
  exists result,
    Gpu._direction (flags 8 [1; 6]) (replicate 8 (1 # 4)) 2 2 = inr result
    /\ length result = 2%nat /\ Forall direction_value result.
Proof.
  eexists. split; [vm_compute; reflexivity|].
  apply (direction_slots_in_range (flags 8 [1; 6]) (replicate 8 (1 # 4)) 2 2).
  vm_compute. reflexivity.
Defined.

(** ** [_direction] and [_peakdistance]: the other peak counts *)

(** X2.  The GPU kernel on four peaks: slot 0 is decided by the pair
    (0,2) alone and slot 1 by the pair (1,3) alone; each holds the
    midpoint direction of its pair when the pair is within 35 degrees of
    180 apart, and BACKGROUND otherwise. *)
Theorem gpu_four_peaks_independent (a : list Z) (c : list Q) (p0 p1 p2 p3 : Z) :
  length c = length a ->
  peak_positions a = [p0; p1; p2; p3] ->
  Gpu._direction a c 4 2
  = inr [if gpu_opposite a c p0 p2 then gpu_midpoint a c p0 p2
         else BACKGROUND_COLOR;
         if gpu_opposite a c p1 p3 then gpu_midpoint a c p1 p3
         else BACKGROUND_COLOR].
Proof. intros Hc E. exact (direction_four_peaks a c Hc p0 p1 p2 p3 E). Qed.

Lemma gpu_four_peaks_independent_witness :
  let a := flags 36 [0; 1; 10; 19] in
  let c := replicate 36 0%Q in
  Gpu._direction a c 4 2
  = inr [if gpu_opposite a c 0 10 then gpu_midpoint a c 0 10
         else BACKGROUND_COLOR;
         if gpu_opposite a c 1 19 then gpu_midpoint a c 1 19
         else BACKGROUND_COLOR].
Proof.
  exact (gpu_four_peaks_independent (flags 36 [0; 1; 10; 19])
           (replicate 36 0%Q) 0 1 10 19 eq_refl eq_refl).
Defined.

(** X3.  [_direction] leaves BACKGROUND in both slots, whatever the
    arrays hold, when the pixel has no peak, when the peak count is odd
    and not 1, and when it is 6 or more. *)
Theorem direction_background_cases (a : list Z) (c : list Q) (n : Z) :
  length c = length a ->
  peak_positions a = [] \/ (n mod 2 <> 0 /\ n <> 1) \/ 6 <= n ->
  Gpu._direction a c n 2 = inr [BACKGROUND_COLOR; BACKGROUND_COLOR].
Proof.
  intros Hc [E|[[Hodd Hn1]|Hn]].
  - now apply direction_no_peak.
  - now apply direction_odd.
  - now apply direction_too_many.
Qed.

Lemma direction_background_cases_witness :
  Gpu._direction (flags 8 [1; 3; 5; 6; 7]) (replicate 8 0%Q) 5 2
  = inr [BACKGROUND_COLOR; BACKGROUND_COLOR].
Proof.
  apply (direction_background_cases (flags 8 [1; 3; 5; 6; 7])
           (replicate 8 0%Q) 5 eq_refl).
  right. left. split; discriminate.
Defined.

(** The partner search runs off the end of the array when fewer than
    [r] peaks follow its start. *)
Lemma walk_right_missing a : forall d cur r,
  d = Z.to_nat (len a - cur) -> 0 <= cur < len a -> 0 < r ->
  Z.of_nat (length (peaks_after a cur)) < r ->
  Gpu.walk_right a d cur r = inl OutOfBounds.
Proof.
  induction d as [|d IH]; intros cur r Hd Hcur Hr Hfew; [lia|].
  simpl. replace (0 <? r) with true by lia.
  destruct (Z.eq_dec (cur + 1) (len a)) as [Heq|Hne].
  { rewrite Heq, rd_at_len. reflexivity. }
  destruct (rd_in_range a (cur + 1)) as (pk & Hrd & _); [lia|].
  rewrite Hrd. simpl.
  unfold peaks_after in Hfew. rewrite seqZ_cons in Hfew by lia.
  simpl in Hfew. unfold is_peak in Hfew at 1. rewrite Hrd in Hfew.
  replace (Z.succ (cur + 1)) with (cur + 1 + 1) in Hfew by lia.
  replace (Z.pred (len a - cur - 1)) with (len a - (cur + 1) - 1) in Hfew by lia.
  fold (peaks_after a (cur + 1)) in Hfew.
  destruct (pk =? 1).
  - simpl in Hfew. apply IH; lia.
  - apply IH; lia.
Qed.

(** X4.  An even peak count that promises more peaks than the array
    holds: at the first peak the partner search of [_direction] and of
    [_peakdistance] walks to the end of the peak array and reads
    [sub_peak_array[len(sub_peak_array)]], one entry past its end. *)
Theorem partner_search_runs_past_the_end (a : list Z) (c res : list Q)
  (n p : Z) (rest : list Z) :
  length c = length a ->
  peak_positions a = p :: rest ->
  n mod 2 = 0 -> 0 < n / 2 ->
  Z.of_nat (length rest) < n / 2 ->
  (n / 2 <= 2 -> Gpu._direction a c n 2 = inl OutOfBounds)
  /\ Gpu._peakdistance a c n res = inl OutOfBounds.
Proof.
  intros Hc E Heven Hhalf Hfew.
  assert (Hp : In p (peak_positions a)) by (rewrite E; now left).
  destruct (peak_positions_range a p Hp) as [Hpr Hpk].
  assert (Hn1 : (n =? 1) = false).
  { apply Z.eqb_neq. intros ->. discriminate. }
  assert (Hwalk : Gpu.find_partner a p (n / 2) = inl OutOfBounds).
  { unfold Gpu.find_partner. apply walk_right_missing; auto.
    now rewrite (peaks_after_split a [] p rest E). }
  split.
  - intros Hguard. unfold Gpu._direction.
    assert (Hg : (n / 2 <=? Z.of_nat 2) = true)
      by (apply Z.leb_le; exact Hguard).
    rewrite Hg.
    rewrite (direction_loop_peaks a c Hc), E. simpl.
    unfold Gpu.direction_body. rewrite Hpk, (rd_cent_peak a c Hc p Hp). simpl.
    rewrite Hn1. replace (n mod 2 =? 0) with true by lia.
    now rewrite Hwalk.
  - unfold Gpu._peakdistance. rewrite peakdistance_loop_peaks, E. simpl.
    unfold Gpu.peakdistance_body. rewrite Hpk. simpl.
    rewrite Hn1. replace (n mod 2 =? 0) with true by lia.
    rewrite (rd_cent_peak a c Hc p Hp). simpl. now rewrite Hwalk.
Qed.

Lemma partner_search_runs_past_the_end_witness :
  Gpu._direction (flags 36 [3]) (replicate 36 0%Q) 2 2 = inl OutOfBounds
  /\ Gpu._peakdistance (flags 36 [3]) (replicate 36 0%Q) 2 (replicate 36 0%Q)
     = inl OutOfBounds.
Proof.
  destruct (partner_search_runs_past_the_end
              (flags 36 [3]) (replicate 36 0%Q) (replicate 36 0%Q) 2 3 []
              eq_refl eq_refl eq_refl eq_refl eq_refl) as [H1 H2].
  split; [apply H1; discriminate|exact H2].
Defined.

(** A loop whose body never changes the state, whether it goes on or
    breaks. *)
Lemma for_range_unchanged {S} (body : Z -> S -> run (ctl S)) (range : list Z)
  (s : S) :
  (forall i, In i range ->
             body i s = ret (Continue s) \/ body i s = ret (Break s)) ->
  for_range body range s = ret s.
Proof.
  induction range as [|i range IH]; intros Hsame; [reflexivity|].
  simpl. destruct (Hsame i (or_introl eq_refl)) as [-> | ->]; simpl.
  - apply IH. intros j Hj. apply Hsame. now right.
  - reflexivity.
Qed.

(** X5.  [_peakdistance] writes nothing, whatever the arrays hold, when
    the peak count is odd and not 1, and when the pixel has no peak: the
    result slice is returned as the caller allocated it. *)
Theorem peakdistance_leaves_result (a : list Z) (c res : list Q) (n : Z) :
  (n mod 2 <> 0 /\ n <> 1) \/ peak_positions a = [] ->
  Gpu._peakdistance a c n res = inr res.
Proof.
  intros [[Hodd Hn1]|E]; unfold Gpu._peakdistance.
  - rewrite for_range_unchanged; [reflexivity|].
    intros i Hi. rewrite <- list_elem_of_In, elem_of_seqZ in Hi.
    destruct (rd_in_range a i) as (pk & Hrd & _); [lia|].
    unfold Gpu.peakdistance_body. rewrite Hrd. simpl.
    destruct (pk =? 1); [|now left].
    replace (n =? 1) with false by lia.
    replace (n mod 2 =? 0) with false by lia. simpl.
    destruct (n / 2); [now right|now left|now left].
  - rewrite peakdistance_loop_peaks, E. reflexivity.
Qed.

Lemma peakdistance_leaves_result_witness :
  Gpu._peakdistance (flags 8 [1; 3; 6]) (replicate 8 0%Q) 3 (replicate 8 7%Q)
  = inr (replicate 8 7%Q).
Proof.
  apply (peakdistance_leaves_result (flags 8 [1; 3; 6]) (replicate 8 0%Q)).
  left. split; discriminate.
Defined.

(** ** [_prominence]: bounds *)

(** X6.  For a profile and a peak array of the same length,
    [_prominence] reads no sample outside the profile and stores a value
    at every position. *)
Theorem prominence_always_in_bounds (sub_image : list Q)
  (sub_peak_array : list Z) :
  length sub_image = length sub_peak_array ->
  exists out, Gpu._prominence sub_image sub_peak_array = inr out
              /\ length out = length sub_peak_array.
Proof. apply prominence_total. Qed.

Lemma prominence_always_in_bounds_witness :
  exists out,
    Gpu._prominence [3; 1; 4; 1; 5; 9; 2; 6]%Q [0; 0; 1; 0; 0; 1; 0; 0]
    = inr out /\ length out = 8%nat.
Proof.
  exact (prominence_always_in_bounds
           [3; 1; 4; 1; 5; 9; 2; 6]%Q [0; 0; 1; 0; 0; 1; 0; 0] eq_refl).
Defined.

Lemma circular_member (sub_image : list Q) (i : Z) :
  0 < len sub_image -> In (circular sub_image i) sub_image.
Proof.
  intros Hn. unfold circular. apply nth_In.
  pose proof (Z.mod_pos_bound i (len sub_image) Hn). unfold len in *. lia.
Qed.

(** The least sample of a scan lies between any lower bound of the
    profile and the value it starts from. *)
Lemma scan_bounds (sub_image : list Q) (vp : Q) (step : Z) (m : Q) :
  0 < len sub_image ->
  (forall x, In x sub_image -> (m <= x)%Q) ->
  forall window i least,
    (m <= least)%Q ->
    (m <= scan sub_image vp step window i least)%Q
    /\ (scan sub_image vp step window i least <= least)%Q.
Proof.
  intros Hn Hm. induction window as [|window IH]; intros i least Hl; simpl.
  - split; [exact Hl|apply Qle_refl].
  - destruct (Qle_bool _ vp); [|split; [exact Hl|apply Qle_refl]].
    pose proof (Hm _ (circular_member sub_image i Hn)) as Hx.
    destruct (Qlt_b (circular sub_image i) least) eqn:E.
    + apply Qlt_b_lt in E.
      destruct (IH (i + step) (circular sub_image i) Hx) as [H1 H2].
      split; [exact H1|lra].
    + exact (IH (i + step) least Hl).
Qed.

Lemma pymax_bounds (x y lo hi : Q) :
  (lo <= x <= hi)%Q -> (lo <= y <= hi)%Q -> (lo <= pymax x y <= hi)%Q.
Proof. intros Hx Hy. unfold pymax. now destruct (Qlt_b x y). Qed.

(** X7.  The value [_prominence] stores at a position is never
    negative, and never more than the sample at that position minus a
    lower bound [m] of the profile. *)
Theorem prominence_bounds (sub_image : list Q) (sub_peak_array : list Z)
  (pos : Z) (v m : Q) :
  length sub_image = length sub_peak_array ->
  0 <= pos < len sub_peak_array ->
  (forall x, In x sub_image -> (m <= x)%Q) ->
  Gpu.prominence_at sub_image sub_peak_array pos = inr v ->
  (0 <= v)%Q /\ (v <= circular sub_image pos - m)%Q.
Proof.
  intros Hlen Hpos Hm Hv.
  assert (Himg : len sub_image = len sub_peak_array)
    by (unfold len; now rewrite Hlen).
  assert (Hn : 0 < len sub_image) by lia.
  pose proof (Hm _ (circular_member sub_image pos Hn)) as Hvp.
  unfold Gpu.prominence_at in Hv.
  destruct (rd_in_range sub_peak_array pos Hpos) as (pk & Hpk & _).
  rewrite Hpk in Hv. simpl in Hv.
  destruct (pk =? 1).
  - rewrite <- Himg in Hv. rewrite rd_circular in Hv by lia. simpl in Hv.
    rewrite prominence_left_scan in Hv by lia. simpl in Hv.
    rewrite prominence_right_scan in Hv by lia. simpl in Hv.
    rewrite Himg in Hv. fold (left_window (len sub_peak_array) pos) in Hv.
    fold (right_window (len sub_peak_array) pos) in Hv.
    injection Hv as <-.
    set (vp := circular sub_image pos) in *.
    destruct (scan_bounds sub_image vp (-1) m Hn Hm
                (left_window (len sub_peak_array) pos) pos vp Hvp).
    destruct (scan_bounds sub_image vp 1 m Hn Hm
                (right_window (len sub_peak_array) pos) pos vp Hvp).
    pose proof (pymax_bounds
                  (scan sub_image vp (-1)
                     (left_window (len sub_peak_array) pos) pos vp)
                  (scan sub_image vp 1
                     (right_window (len sub_peak_array) pos) pos vp)
                  m vp ltac:(split; assumption) ltac:(split; assumption)).
    split; lra.
  - injection Hv as <-. split; lra.
Qed.

Lemma prominence_bounds_witness :
  exists v,
    Gpu.prominence_at [3; 1; 4; 1; 5; 9; 2; 6]%Q [0; 0; 1; 0; 0; 1; 0; 0] 5
    = inr v
    /\ (0 <= v)%Q /\ (v <= circular [3; 1; 4; 1; 5; 9; 2; 6]%Q 5 - 1)%Q.
Proof.
  eexists. split; [vm_compute; reflexivity|].
  apply (prominence_bounds [3; 1; 4; 1; 5; 9; 2; 6]%Q
           [0; 0; 1; 0; 0; 1; 0; 0] 5 _ 1 eq_refl).
  - unfold len; simpl; lia.
  - intros x Hx. simpl in Hx.
    repeat (destruct Hx as [<-|Hx]; [discriminate|]). destruct Hx.
  - vm_compute. reflexivity.
Defined.

(** ** [_peakwidth]: edge behaviour *)

(** With every sample from [i] to the end of the array above [height],
    the right scan either reads the entry past the end or stops exactly
    there. *)
Lemma width_right_past_end (sub_image : list Q) (height : Q) :
  forall fuel i,
  0 <= i <= len sub_image ->
  (forall k, i <= k < len sub_image -> (height < circular sub_image k)%Q) ->
  len sub_image - i <= Z.of_nat fuel ->
  Gpu.width_right sub_image (len sub_image) height fuel i = inl OutOfBounds
  \/ Gpu.width_right sub_image (len sub_image) height fuel i
     = inr (len sub_image).
Proof.
  induction fuel as [|fuel IH]; intros i Hi Habove Hfuel.
  - assert (i = len sub_image) by lia. subst i. simpl.
    destruct (_ <? _); [|now right]. rewrite rd_at_len. now left.
  - simpl. destruct (Z.eq_dec i (len sub_image)) as [->|Hne].
    + destruct (_ <? _); [|now right]. rewrite rd_at_len. now left.
    + replace (i <? 3 * len sub_image / 2) with true by lia.
      rewrite rd_circular by lia. simpl.
      assert (Hh : Qlt_b height (circular sub_image i) = true)
        by (apply Qlt_b_lt, Habove; lia).
      rewrite Hh. apply IH; [lia| |lia].
      intros k Hk. apply Habove. lia.
Qed.

(** X8.  A peak whose samples stay above the intersection height from
    the peak to the last sample of the profile: the left end is found,
    and the right scan of [_peakwidth], which does not wrap, reads the
    entry past the end of the profile. *)
Theorem peakwidth_reads_past_the_end (sub_image : list Q)
  (sub_peak_array : list Z) (sub_prominence : list Q) (target_height : Q)
  (pos : Z) :
  length sub_image = length sub_peak_array ->
  length sub_prominence = length sub_peak_array ->
  0 <= pos < len sub_peak_array ->
  is_peak sub_peak_array pos = true ->
  (forall k, pos <= k < len sub_peak_array ->
             (circular sub_image pos - entry sub_prominence pos * target_height
              < circular sub_image k)%Q) ->
  Gpu.peakwidth_at sub_image sub_peak_array sub_prominence target_height pos
  = inl OutOfBounds.
Proof.
  intros Hlen Hplen Hpos Hpk Habove.
  set (n := len sub_peak_array) in *.
  set (height :=
         (circular sub_image pos - entry sub_prominence pos * target_height)%Q)
    in *.
  assert (Himg : len sub_image = n) by (unfold n, len; now rewrite Hlen).
  assert (Hheight : (height <= circular sub_image pos)%Q).
  { apply Qlt_le_weak, Habove. lia. }
  unfold Gpu.peakwidth_at. unfold is_peak in Hpk.
  destruct (rd sub_peak_array pos) as [|pk]; [discriminate|]. simpl.
  rewrite Hpk. fold n. rewrite rd_circular by lia. simpl.
  assert (Hentry : rd sub_prominence pos = inr (entry sub_prominence pos)).
  { destruct (rd_in_range sub_prominence pos) as (x & -> & Hx).
    - unfold len. rewrite Hplen. exact Hpos.
    - unfold entry. f_equal. symmetry.
      now apply nth_lookup_Some with (d := 0%Q) in Hx. }
  rewrite Hentry. simpl. fold height.
  destruct (width_left_stop sub_image n Himg height (Z.to_nat (2 * n)) pos)
    as (iL & -> & HL); [lia|lia|]. simpl.
  assert (HiL : - n <= iL <= pos).
  { destruct HL as (H1 & H2 & _). split; [|exact H1].
    destruct (Z.eq_dec iL pos) as [->|]; [lia|].
    destruct (H2 (iL + 1) ltac:(lia)) as [Hb _]. lia. }
  rewrite rd_circular by lia. simpl.
  assert (Hleft :
    (if Qlt_b (circular sub_image iL) height
     then let* x1 := rd sub_image (iL + 1)
          in let* d := fdiv (height - circular sub_image iL)
                         (x1 - circular sub_image iL)
             in ret (inject_Z iL + d)%Q
     else ret (inject_Z iL)) = inr (left_ip sub_image height iL)).
  { unfold left_ip.
    destruct (Qlt_b (circular sub_image iL) height) eqn:E; [|reflexivity].
    apply Qlt_b_lt in E.
    destruct (left_stop_neighbour sub_image n height pos Hpos Hheight iL HL E)
      as [Hlt Hnext].
    rewrite rd_circular by lia. simpl.
    rewrite fdiv_positive by lra. reflexivity. }
  rewrite Hleft. simpl. rewrite <- Himg.
  destruct (width_right_past_end sub_image height
              (Z.to_nat (2 * len sub_image)) pos) as [-> | ->].
  - lia.
  - intros k Hk. apply Habove. lia.
  - lia.
  - reflexivity.
  - simpl. rewrite rd_at_len. reflexivity.
Qed.

Lemma peakwidth_reads_past_the_end_witness :
  Gpu.peakwidth_at [5; 1; 0; 1; 4; 6; 5]%Q [0; 0; 0; 0; 0; 1; 0]
    [0; 0; 0; 0; 0; 5; 0]%Q (1 # 2) 5 = inl OutOfBounds.
Proof.
  apply peakwidth_reads_past_the_end; try reflexivity.
  - unfold len; simpl; lia.
  - intros k Hk. unfold len in Hk. simpl in Hk.
    assert (Hc : k = 5 \/ k = 6) by lia.
    destruct Hc as [-> | ->]; vm_compute; reflexivity.
Defined.

(** X9.  When the prominence of a peak times the fraction is zero, the
    intersection height is the peak value: neither scan moves, and the
    width is zero. *)
Theorem peakwidth_zero_at_the_top (sub_image : list Q)
  (sub_peak_array : list Z) (sub_prominence : list Q) (target_height : Q)
  (pos : Z) :
  length sub_image = length sub_peak_array ->
  length sub_prominence = length sub_peak_array ->
  0 <= pos < len sub_peak_array ->
  is_peak sub_peak_array pos = true ->
  (entry sub_prominence pos * target_height == 0)%Q ->
  exists w,
    Gpu.peakwidth_at sub_image sub_peak_array sub_prominence target_height pos
    = inr w /\ (w == 0)%Q.
Proof.
  intros Hlen Hplen Hpos Hpk Hzero.
  set (n := len sub_peak_array) in *.
  assert (Himg : len sub_image = n) by (unfold n, len; now rewrite Hlen).
  unfold Gpu.peakwidth_at. unfold is_peak in Hpk.
  destruct (rd sub_peak_array pos) as [|pk]; [discriminate|]. simpl.
  rewrite Hpk. fold n. rewrite rd_circular by lia. simpl.
  assert (Hentry : rd sub_prominence pos = inr (entry sub_prominence pos)).
  { destruct (rd_in_range sub_prominence pos) as (x & -> & Hx).
    - unfold len. rewrite Hplen. exact Hpos.
    - unfold entry. f_equal. symmetry.
      now apply nth_lookup_Some with (d := 0%Q) in Hx. }
  rewrite Hentry. simpl.
  set (vp := circular sub_image pos).
  set (height := (vp - entry sub_prominence pos * target_height)%Q).
  assert (Hup : Qlt_b height vp = false)
    by (apply Qlt_b_ge; unfold height; lra).
  assert (Hdown : Qlt_b vp height = false)
    by (apply Qlt_b_ge; unfold height; lra).
  assert (HL : Gpu.width_left sub_image n height (Z.to_nat (2 * n)) pos
               = inr pos).
  { destruct (Z.to_nat (2 * n)); simpl;
      (destruct (- n <? 2 * pos); [|reflexivity]);
      rewrite rd_circular by lia; simpl; fold vp; now rewrite Hup. }
  assert (HR : Gpu.width_right sub_image n height (Z.to_nat (2 * n)) pos
               = inr pos).
  { destruct (Z.to_nat (2 * n)); simpl;
      (destruct (pos <? 3 * n / 2); [|reflexivity]);
      rewrite rd_circular by lia; simpl; fold vp; now rewrite Hup. }
  rewrite HL. simpl. rewrite rd_circular by lia. simpl. fold vp.
  rewrite Hdown. simpl. rewrite HR. simpl.
  rewrite rd_circular by lia. simpl. fold vp. rewrite Hdown. simpl.
  eexists. split; [reflexivity|]. ring.
Qed.

Lemma peakwidth_zero_at_the_top_witness :
  exists w,
    Gpu.peakwidth_at [0; 1; 2; 1; 0]%Q [0; 0; 1; 0; 0] [0; 0; 2; 0; 0]%Q 0 2
    = inr w /\ (w == 0)%Q.
Proof.
  apply peakwidth_zero_at_the_top; try reflexivity.
  unfold len; simpl; lia.
Defined.

(** ** [_centroid]: when the offset is a number *)

(** X10.  An offset returned by [_centroid] lies in [-1, 1]. *)
Theorem centroid_offset_clamped (sub_image : list Q) (sub_peaks : list Z)
  (sub_left_bases sub_right_bases : list Z) (pos : Z) (v : Q) :
  Gpu.centroid_at sub_image sub_peaks sub_left_bases sub_right_bases pos
  = inr v ->
  (-1 <= v <= 1)%Q.
Proof. apply centroid_clamped. Qed.

Lemma centroid_offset_clamped_witness :
  exists v,
    Gpu.centroid_at [2; 10; 6]%Q [0; 1; 0] [0; 1; 0] [0; 1; 0] 1 = inr v
    /\ (-1 <= v <= 1)%Q.
Proof.
  eexists. split; [vm_compute; reflexivity|].
  apply (centroid_offset_clamped [2; 10; 6]%Q [0; 1; 0] [0; 1; 0] [0; 1; 0] 1).
  vm_compute. reflexivity.
Defined.

Lemma fold_left_fixed {S I} (f : S -> I -> S) (l : list I) (s : S) :
  (forall i, In i l -> f s i = s) -> fold_left f l s = s.
Proof.
  induction l as [|i l IH]; intros Hf; [reflexivity|].
  simpl. rewrite (Hf i (or_introl eq_refl)). apply IH.
  intros j Hj. apply Hf. now right.
Qed.

(** [interp / NUMBER_OF_SAMPLES] runs from 0 to 1. *)
Lemma step_range (interp : Z) :
  In interp (seqZ 0 (NUMBER_OF_SAMPLES + 1)) ->
  (0 <= inject_Z interp / inject_Z NUMBER_OF_SAMPLES)%Q
  /\ (inject_Z interp / inject_Z NUMBER_OF_SAMPLES <= 1)%Q.
Proof.
  rewrite <- list_elem_of_In, elem_of_seqZ. unfold NUMBER_OF_SAMPLES.
  intros Hi.
  assert (H0 : (inject_Z 0 <= inject_Z interp)%Q) by (rewrite <- Zle_Qle; lia).
  assert (H1 : (inject_Z interp <= inject_Z 100)%Q) by (rewrite <- Zle_Qle; lia).
  split.
  - apply Qle_shift_div_l; [reflexivity|]. change (inject_Z 0) with 0%Q in H0.
    lra.
  - apply Qle_shift_div_r; [reflexivity|]. lra.
Qed.

(** A point between two samples is no higher than the higher one. *)
Lemma interpolation_below (a b t step : Q) :
  (a <= t)%Q -> (b <= t)%Q -> (0 <= step)%Q -> (step <= 1)%Q ->
  (a + (b - a) * step <= t)%Q.
Proof.
  intros Ha Hb H0 H1.
  assert (H : (a + (b - a) * step == a * (1 - step) + b * step)%Q) by ring.
  assert (Ha' : (a * (1 - step) <= t * (1 - step))%Q)
    by (apply Qmult_le_compat_r; lra).
  assert (Hb' : (b * step <= t * step)%Q)
    by (apply Qmult_le_compat_r; lra).
  assert (Ht : (t * (1 - step) + t * step == t)%Q) by ring.
  lra.
Qed.

Lemma centroid_samples_none (threshold : Q) (x : Z) (a b : Q) (sums : Q * Q) :
  (a <= threshold)%Q -> (b <= threshold)%Q ->
  Gpu.centroid_samples threshold x a b sums = sums.
Proof.
  intros Ha Hb. unfold Gpu.centroid_samples.
  apply fold_left_fixed. intros interp Hi. destruct sums as [top bottom].
  destruct (step_range interp Hi) as [H0 H1].
  assert (Hf : Qlt_b threshold
                 (a + (b - a)
                      * (inject_Z interp / inject_Z NUMBER_OF_SAMPLES))
               = false).
  { apply Qlt_b_ge. now apply interpolation_below. }
  now rewrite Hf.
Qed.

(** X11.  A profile none of whose samples exceeds 0.94: at every peak
    both sums of [_centroid] stay 0, and the offset, 0.0 / 0.0, is not
    a finite number. *)
Theorem centroid_not_finite_on_low_profiles (sub_image : list Q)
  (sub_peaks sub_left_bases sub_right_bases : list Z) (pos : Z) :
  length sub_image = length sub_peaks ->
  length sub_left_bases = length sub_peaks ->
  length sub_right_bases = length sub_peaks ->
  0 <= pos < len sub_peaks ->
  is_peak sub_peaks pos = true ->
  (forall x, In x sub_image -> (x <= TARGET_PEAK_HEIGHT)%Q) ->
  Gpu.centroid_at sub_image sub_peaks sub_left_bases sub_right_bases pos
  = inl NotFinite.
Proof.
  intros Hlen Hl Hr Hpos Hpk Hlow.
  assert (Hn : 0 < len sub_image) by (unfold len in *; lia).
  unfold Gpu.centroid_at. unfold is_peak in Hpk.
  destruct (rd sub_peaks pos) as [|pk]; [discriminate|]. simpl.
  rewrite Hpk. apply Z.eqb_eq in Hpk. subst pk.
  destruct (rd_in_range sub_left_bases pos) as (lb & -> & _);
    [unfold len in *; lia|].
  destruct (rd_in_range sub_right_bases pos) as (rb & -> & _);
    [unfold len in *; lia|].
  simpl.
  assert (Hloop : forall range,
    for_each
      (fun x sums =>
         let* img_pixel := rd sub_image ((pos + x) mod len sub_image) in
         let* next_img_pixel :=
           rd sub_image ((pos + x + 1) mod len sub_image) in
         ret (Gpu.centroid_samples (inject_Z 1 * TARGET_PEAK_HEIGHT) x
                img_pixel next_img_pixel sums))
      range (0%Q, 0%Q) = inr (0%Q, 0%Q)).
  { induction range as [|x range IH]; [reflexivity|].
    simpl. rewrite !rd_modulo by exact Hn. simpl.
    rewrite centroid_samples_none.
    - exact IH.
    - pose proof (Hlow _ (circular_member sub_image (pos + x) Hn)).
      assert (inject_Z 1 * TARGET_PEAK_HEIGHT == TARGET_PEAK_HEIGHT)%Q by ring.
      lra.
    - pose proof (Hlow _ (circular_member sub_image (pos + x + 1) Hn)).
      assert (inject_Z 1 * TARGET_PEAK_HEIGHT == TARGET_PEAK_HEIGHT)%Q by ring.
      lra. }
  rewrite Hloop. reflexivity.
Qed.

Lemma centroid_not_finite_on_low_profiles_witness :
  Gpu.centroid_at [2 # 10; 9 # 10; 3 # 10; 1 # 10]%Q [0; 1; 0; 0]
    [0; 2; 0; 0] [0; 2; 0; 0] 1 = inl NotFinite.
Proof.
  apply centroid_not_finite_on_low_profiles; try reflexivity.
  - unfold len; simpl; lia.
  - intros x Hx. simpl in Hx.
    repeat (destruct Hx as [<-|Hx]; [discriminate|]). destruct Hx.
Defined.

Lemma for_each_app {S} (body : Z -> S -> run S) (l1 l2 : list Z) (s : S) :
  for_each body (l1 ++ l2) s
  = let* s' := for_each body l1 s in for_each body l2 s'.
Proof.
  revert s. induction l1 as [|i l1 IH]; intros s; [reflexivity|].
  simpl. destruct (body i s) as [f|s']; [reflexivity|]. simpl. apply IH.
Qed.

(** Every sample that is summed is above the threshold, so the lower
    sum never decreases. *)
Lemma samples_fold_grow (threshold : Q) (x : Z) (a b : Q) (l : list Z) :
  (0 <= threshold)%Q ->
  forall sums : Q * Q,
    (snd sums
     <= snd (fold_left
               (fun '(centroid_sum_top, centroid_sum_bottom) interp =>
                  let step :=
                    (inject_Z interp / inject_Z NUMBER_OF_SAMPLES)%Q in
                  let func_val := (a + (b - a) * step)%Q in
                  if Qlt_b threshold func_val
                  then ((centroid_sum_top + (inject_Z x + step) * func_val)%Q,
                        (centroid_sum_bottom + func_val)%Q)
                  else (centroid_sum_top, centroid_sum_bottom))
               l sums))%Q.
Proof.
  intros Hthr.
  induction l as [|interp l IH]; intros [top bottom]; [apply Qle_refl|].
  simpl fold_left.
  destruct (Qlt_b threshold _) eqn:E.
  - eapply Qle_trans; [|apply IH]. simpl. apply Qlt_b_lt in E. lra.
  - apply IH.
Qed.

Lemma centroid_samples_grow (threshold : Q) (x : Z) (a b : Q) (sums : Q * Q) :
  (0 <= threshold)%Q ->
  (snd sums <= snd (Gpu.centroid_samples threshold x a b sums))%Q.
Proof. intros Hthr. now apply samples_fold_grow. Qed.

(** The first sample of an interval is its left end. *)
Lemma centroid_samples_gain (threshold : Q) (x : Z) (a b : Q) (sums : Q * Q) :
  (0 <= threshold)%Q -> (threshold < a)%Q ->
  (snd sums + a <= snd (Gpu.centroid_samples threshold x a b sums))%Q.
Proof.
  intros Hthr Ha. unfold Gpu.centroid_samples.
  rewrite seqZ_cons by (unfold NUMBER_OF_SAMPLES; lia).
  generalize (seqZ (Z.succ 0) (Z.pred (NUMBER_OF_SAMPLES + 1))). intros l.
  destruct sums as [top bottom]. cbn [fold_left].
  assert (H0 : (a + (b - a) * (inject_Z 0 / inject_Z NUMBER_OF_SAMPLES) == a)%Q).
  { assert (H : (inject_Z 0 / inject_Z NUMBER_OF_SAMPLES == 0)%Q)
      by reflexivity.
    rewrite H. ring. }
  assert (E : Qlt_b threshold
                (a + (b - a) * (inject_Z 0 / inject_Z NUMBER_OF_SAMPLES))
              = true).
  { apply Qlt_b_lt. lra. }
  rewrite E.
  eapply Qle_trans; [|apply samples_fold_grow; exact Hthr].
  simpl. lra.
Qed.

(** X12.  A peak whose sample exceeds 0.94, with a window that reaches
    at least one position to the right: [_centroid] gives a number, in
    [-1, 1]. *)
Theorem centroid_finite_on_high_peaks (sub_image : list Q)
  (sub_peaks sub_left_bases sub_right_bases : list Z) (pos lb rb : Z) :
  length sub_image = length sub_peaks ->
  0 <= pos < len sub_peaks ->
  is_peak sub_peaks pos = true ->
  rd sub_left_bases pos = inr lb ->
  rd sub_right_bases pos = inr rb ->
  0 <= lb -> 1 <= rb ->
  (TARGET_PEAK_HEIGHT < circular sub_image pos)%Q ->
  exists v,
    Gpu.centroid_at sub_image sub_peaks sub_left_bases sub_right_bases pos
    = inr v
    /\ (-1 <= v <= 1)%Q.
Proof.
  intros Hlen Hpos Hpk Hlb Hrb Hl Hr Hhigh.
  assert (Hn : 0 < len sub_image) by (unfold len in *; lia).
  assert (Hthr : (inject_Z 1 * TARGET_PEAK_HEIGHT == TARGET_PEAK_HEIGHT)%Q)
    by ring.
  assert (Hthr0 : (0 <= inject_Z 1 * TARGET_PEAK_HEIGHT)%Q)
    by (rewrite Hthr; discriminate).
  cut (exists v,
         Gpu.centroid_at sub_image sub_peaks sub_left_bases sub_right_bases pos
         = inr v).
  { intros [v Hv]. exists v. split; [exact Hv|].
    now apply centroid_clamped in Hv. }
  unfold Gpu.centroid_at. unfold is_peak in Hpk.
  destruct (rd sub_peaks pos) as [|pk]; [discriminate|]. simpl.
  rewrite Hpk. apply Z.eqb_eq in Hpk. subst pk.
  rewrite Hlb, Hrb. simpl.
  set (body := fun x sums =>
         let* img_pixel := rd sub_image ((pos + x) mod len sub_image) in
         let* next_img_pixel :=
           rd sub_image ((pos + x + 1) mod len sub_image) in
         ret (Gpu.centroid_samples (inject_Z 1 * TARGET_PEAK_HEIGHT) x
                img_pixel next_img_pixel sums)).
  assert (Hgrow : forall range sums,
            exists sums', for_each body range sums = inr sums'
                          /\ (snd sums <= snd sums')%Q).
  { induction range as [|x range IH]; intros sums.
    - exists sums. split; [reflexivity|apply Qle_refl].
    - simpl. unfold body at 1. rewrite !rd_modulo by exact Hn. simpl.
      destruct (IH (Gpu.centroid_samples (inject_Z 1 * TARGET_PEAK_HEIGHT) x
                      (circular sub_image (pos + x))
                      (circular sub_image (pos + x + 1)) sums))
        as (sums' & -> & Hle).
      exists sums'. split; [reflexivity|].
      eapply Qle_trans; [|exact Hle]. now apply centroid_samples_grow. }
  replace (rb - - lb) with (lb + rb) by lia.
  rewrite seqZ_app by lia. replace (- lb + lb) with 0 by lia.
  rewrite (seqZ_cons 0 rb) by lia.
  rewrite for_each_app.
  destruct (Hgrow (seqZ (- lb) lb) (0%Q, 0%Q)) as (s1 & -> & H1). simpl in H1.
  simpl. unfold body at 1. rewrite !rd_modulo by exact Hn. simpl.
  destruct (Hgrow (seqZ (Z.succ 0) (Z.pred rb))
              (Gpu.centroid_samples (inject_Z 1 * TARGET_PEAK_HEIGHT) 0
                 (circular sub_image (pos + 0))
                 (circular sub_image (pos + 0 + 1)) s1))
    as (s2 & -> & H2).
  simpl.
  assert (Hgain := centroid_samples_gain (inject_Z 1 * TARGET_PEAK_HEIGHT) 0
                     (circular sub_image (pos + 0))
                     (circular sub_image (pos + 0 + 1)) s1 Hthr0).
  replace (pos + 0) with pos in * by lia.
  assert (Hpos2 : (0 < snd s2)%Q).
  { assert (Hp : (0 < TARGET_PEAK_HEIGHT)%Q) by reflexivity.
    assert (Hg := Hgain ltac:(lra)). lra. }
  rewrite fdiv_positive by exact Hpos2. simpl. eauto.
Qed.

Lemma centroid_finite_on_high_peaks_witness :
  exists v,
    Gpu.centroid_at [1 # 2; 1; 1 # 2; 1 # 4]%Q [0; 1; 0; 0]
      [0; 1; 0; 0] [0; 1; 0; 0] 1 = inr v
    /\ (-1 <= v <= 1)%Q.
Proof.
  apply (centroid_finite_on_high_peaks [1 # 2; 1; 1 # 2; 1 # 4]%Q [0; 1; 0; 0]
           [0; 1; 0; 0] [0; 1; 0; 0] 1 1 1); try reflexivity.
  - unfold len; simpl; lia.
  - lia.
Defined.

(** ** [_centroid_correction_bases]: the bases it stores *)

Lemma rd_total {A} (a : list A) (i : Z) :
  - len a <= i < len a -> exists x, rd a i = inr x.
Proof.
  intros Hi. destruct (Z.lt_ge_cases i 0).
  - destruct (rd_wrapped a i) as (x & Hx & _); [lia|eauto].
  - destruct (rd_in_range a i) as (x & Hx & _); [lia|eauto].
Qed.

Lemma image_maximum_nonneg (sub_image : list Q) :
  (0 <= Gpu.image_maximum sub_image)%Q.
Proof.
  unfold Gpu.image_maximum.
  assert (H : forall l m, (0 <= m)%Q ->
            (0 <= fold_left
                    (fun max_pos x => if Qlt_b max_pos x then x else max_pos)
                    l m)%Q).
  { induction l as [|x l IH]; intros m Hm; [exact Hm|].
    simpl. apply IH. destruct (Qlt_b m x) eqn:E; [|exact Hm].
    apply Qlt_b_lt in E. lra. }
  apply H. apply Qle_refl.
Qed.

(** A shrinking loop either leaves the base where it was, or moves it
    to the first offset whose sample is below the target height. *)
Lemma shrink_base_spec (sub_image : list Q) (index : Z -> Z)
  (target_peak_height : Q) (position : Z) :
  (forall offset, 0 <= offset < position ->
                  exists x, rd sub_image (index offset) = inr x) ->
  exists r,
    Gpu.shrink_base sub_image index target_peak_height position = inr r
    /\ (r = position
        \/ (0 <= r < position
            /\ exists x, rd sub_image (index r) = inr x
                         /\ Qlt_b x target_peak_height = true)).
Proof.
  intros Hrd. unfold Gpu.shrink_base.
  assert (H : forall range s,
            (forall offset, In offset range -> 0 <= offset < position) ->
            exists r,
              for_range
                (fun offset position =>
                   let* x := rd sub_image (index offset) in
                   if Qlt_b x target_peak_height then ret (Break offset)
                   else ret (Continue position))
                range s = inr r
              /\ (r = s
                  \/ (0 <= r < position
                      /\ exists x, rd sub_image (index r) = inr x
                                   /\ Qlt_b x target_peak_height = true))).
  { induction range as [|offset range IH]; intros s Hin.
    - exists s. split; [reflexivity|now left].
    - simpl.
      destruct (Hrd offset (Hin offset (or_introl eq_refl))) as [x Hx].
      rewrite Hx. simpl.
      destruct (Qlt_b x target_peak_height) eqn:E; simpl.
      + exists offset. split; [reflexivity|]. right.
        split; [apply Hin; now left|eauto].
      + apply IH. intros o Ho. apply Hin. now right. }
  apply H. intros offset Ho.
  apply list_elem_of_In, elem_of_seqZ in Ho. lia.
Qed.

(** X13.  In a pixel of at least two samples [_centroid_correction_bases]
    reads within its arrays, and the two bases it stores at a position
    lie between 0 and [MAX_DISTANCE_FOR_CENTROID_ESTIMATION]; those of a
    peak with a sample that is not negative are at least 1. *)
Theorem centroid_bases_range (sub_image : list Q)
  (sub_peaks sub_reverse_peaks : list Z) (pos : Z) :
  length sub_image = length sub_peaks ->
  length sub_reverse_peaks = length sub_peaks ->
  2 <= len sub_peaks ->
  0 <= pos < len sub_peaks ->
  exists l r,
    Gpu.centroid_correction_bases_at sub_image sub_peaks sub_reverse_peaks pos
    = inr (l, r)
    /\ 0 <= l <= MAX_DISTANCE_FOR_CENTROID_ESTIMATION
    /\ 0 <= r <= MAX_DISTANCE_FOR_CENTROID_ESTIMATION
    /\ (is_peak sub_peaks pos = true ->
        (0 <= circular sub_image pos)%Q ->
        1 <= l /\ 1 <= r).
Proof.
  intros Himg Hrev Hn Hpos.
  assert (Hlen : len sub_image = len sub_peaks) by (unfold len; lia).
  assert (Hlenr : len sub_reverse_peaks = len sub_peaks) by (unfold len; lia).
  unfold Gpu.centroid_correction_bases_at, is_peak.
  destruct (rd_in_range sub_peaks pos Hpos) as (pk & -> & _). simpl.
  destruct (pk =? 1).
  2:{ exists 0, 0. unfold MAX_DISTANCE_FOR_CENTROID_ESTIMATION.
      repeat split; try lia; discriminate. }
  rewrite rd_circular by lia. simpl.
  set (target := pymax 0 _).
  change (Z.of_nat 0 + 1) with 1. change (Z.of_nat 1 + 1) with 2.
  destruct (rd_total sub_reverse_peaks (pos - 1)) as [l1 ->]; [lia|].
  destruct (rd_total sub_reverse_peaks ((pos + 1) mod len sub_reverse_peaks))
    as [r1 ->]; [lia|].
  simpl.
  destruct (rd_total sub_reverse_peaks (pos - 2)) as [l2 ->]; [lia|].
  destruct (rd_total sub_reverse_peaks ((pos + 2) mod len sub_reverse_peaks))
    as [r2 ->]; [lia|].
  simpl.
  set (lp := if l2 =? 1 then 2 else if l1 =? 1 then 1 else _).
  set (rp := if r2 =? 1 then 2 else if r1 =? 1 then 1 else _).
  assert (Hlp : 1 <= lp <= 3)
    by (subst lp; unfold MAX_DISTANCE_FOR_CENTROID_ESTIMATION;
        destruct (l2 =? 1), (l1 =? 1); simpl; lia).
  assert (Hrp : 1 <= rp <= 3)
    by (subst rp; unfold MAX_DISTANCE_FOR_CENTROID_ESTIMATION;
        destruct (r2 =? 1), (r1 =? 1); simpl; lia).
  destruct (shrink_base_spec sub_image (fun offset => pos - offset) target
              (Z.abs lp)) as (l & -> & Hl).
  { intros offset Ho. apply rd_total. lia. }
  destruct (shrink_base_spec sub_image
              (fun offset => (pos + offset) mod len sub_image) target rp)
    as (r & -> & Hr).
  { intros offset Ho. apply rd_total. lia. }
  simpl. exists l, r. split; [reflexivity|].
  unfold MAX_DISTANCE_FOR_CENTROID_ESTIMATION.
  split; [lia|]. split; [lia|].
  intros _ Hv.
  assert (Htarget : forall x, (x == circular sub_image pos)%Q ->
                              Qlt_b x target = false).
  { intros x Hx. apply Qlt_b_ge. subst target. unfold pymax.
    pose proof (image_maximum_nonneg sub_image) as Hmax.
    assert (H6 : (0 <= Gpu.image_maximum sub_image * (1 - TARGET_PEAK_HEIGHT))%Q).
    { apply Qmult_le_0_compat; [exact Hmax|discriminate]. }
    destruct (Qlt_b 0 _); lra. }
  split.
  - destruct Hl as [->|(Hl0 & x & Hx & Hlow)]; [lia|].
    destruct (Z.eq_dec l 0) as [->|]; [|lia].
    replace (pos - 0) with pos in Hx by lia.
    rewrite rd_circular in Hx by lia. injection Hx as <-.
    rewrite Htarget in Hlow by reflexivity. discriminate.
  - destruct Hr as [->|(Hr0 & x & Hx & Hlow)]; [lia|].
    destruct (Z.eq_dec r 0) as [->|]; [|lia].
    rewrite rd_modulo in Hx by lia. injection Hx as <-.
    rewrite Htarget in Hlow; [discriminate|].
    now replace (pos + 0) with pos by lia.
Qed.

Lemma centroid_bases_range_witness :
  exists l r,
    Gpu.centroid_correction_bases_at [2; 10; 6; 1]%Q [0; 1; 0; 0] [0; 0; 0; 1] 1
    = inr (l, r)
    /\ 0 <= l <= MAX_DISTANCE_FOR_CENTROID_ESTIMATION
    /\ 0 <= r <= MAX_DISTANCE_FOR_CENTROID_ESTIMATION
    /\ (is_peak [0; 1; 0; 0] 1 = true ->
        (0 <= circular [2; 10; 6; 1]%Q 1)%Q ->
        1 <= l /\ 1 <= r).
Proof.
  apply (centroid_bases_range [2; 10; 6; 1]%Q [0; 1; 0; 0] [0; 0; 0; 1] 1);
    try reflexivity; unfold len; simpl; lia.
Defined.

(** ** [_peak_cleanup] on isolated peaks *)

Lemma cleanup_run_stop (fuel : nat) (pos offset : Z) (peaks res : list Z)
  (x : Z) :
  rd peaks ((pos + offset) mod len peaks) = inr x -> x <> 1 ->
  Gpu.cleanup_run fuel pos offset peaks res = inr (offset, (peaks, res)).
Proof.
  intros Hx Hne. destruct fuel; simpl; rewrite Hx; simpl;
    now replace (x =? 1) with false by lia.
Qed.

Lemma cleanup_loop_isolated (orig : list Z) :
  isolated orig ->
  forall fuel pos peaks res,
    0 <= pos <= len orig ->
    len orig - pos <= Z.of_nat fuel ->
    length res = length orig ->
    length peaks = length orig ->
    no_one_upto peaks pos ->
    (forall j, pos <= Z.of_nat j -> peaks !! j = orig !! j) ->
    (forall j, Z.of_nat j < pos -> res !! j = flag <$> orig !! j) ->
    exists peaks',
      Gpu.cleanup_loop fuel pos peaks res = inr (peaks', map flag orig).
Proof.
  intros Hiso.
  assert (Hdone : forall res : list Z,
            length res = length orig ->
            (forall j, Z.of_nat j < len orig -> res !! j = flag <$> orig !! j) ->
            res = map flag orig).
  { intros res Hres Hall. apply list_eq. intros j.
    rewrite list_lookup_fmap.
    destruct (Z.lt_ge_cases (Z.of_nat j) (len orig)) as [Hj|Hj].
    - now apply Hall.
    - unfold len in Hj.
      rewrite (lookup_ge_None_2 res) by lia.
      now rewrite (lookup_ge_None_2 orig) by lia. }
  induction fuel as [|fuel IH]; intros pos peaks res Hpos Hfuel Hres Hpeaks Hno
    Hrest Hflag;
    assert (Hlen : len peaks = len orig) by (unfold len; lia).
  - simpl. replace (pos <? len peaks) with false by lia.
    exists peaks. do 2 f_equal. apply Hdone; [exact Hres|].
    intros j Hj. apply Hflag. lia.
  - simpl. destruct (pos <? len peaks) eqn:Hlt.
    2:{ exists peaks. do 2 f_equal. apply Hdone; [exact Hres|].
        intros j Hj. apply Hflag. lia. }
    apply Z.ltb_lt in Hlt.
    destruct (rd_in_range peaks pos) as (pk & -> & Hpk); [lia|]. simpl.
    assert (Horig : orig !! Z.to_nat pos = Some pk)
      by (rewrite <- Hrest by lia; exact Hpk).
    destruct (pk =? 1) eqn:E.
    + apply Z.eqb_eq in E. subst pk.
      rewrite wr_in_range by lia. simpl.
      set (p1 := <[Z.to_nat pos := 0]> peaks).
      assert (Hlen1 : len p1 = len orig)
        by (subst p1; rewrite len_insert; exact Hlen).
      assert (Hno1 : no_one_upto p1 (pos + 1)).
      { intros j x Hj Hx. subst p1.
        destruct (Nat.eq_dec j (Z.to_nat pos)) as [->|Hne].
        - rewrite list_lookup_insert_eq in Hx by (unfold len in *; lia).
          injection Hx as <-. lia.
        - rewrite list_lookup_insert_ne in Hx by lia.
          apply (Hno j x); [lia|exact Hx]. }
      assert (Hbound : 0 <= (pos + 1) mod len p1 < len p1)
        by (apply Z.mod_pos_bound; lia).
      destruct (rd_in_range p1 ((pos + 1) mod len p1) Hbound)
        as (x & Hrd & Hx).
      assert (Hx1 : x <> 1).
      { destruct (Z.eq_dec (pos + 1) (len orig)) as [Hend|Hend].
        - rewrite Hlen1, Hend, Z.mod_same in Hx by lia.
          apply (Hno1 _ x) in Hx; [exact Hx|]. simpl. lia.
        - rewrite Hlen1, Z.mod_small in Hx by lia.
          subst p1. rewrite list_lookup_insert_ne in Hx by lia.
          rewrite Hrest in Hx by lia.
          pose proof (Hiso _ Horig) as Hnext.
          replace (S (Z.to_nat pos)) with (Z.to_nat (pos + 1)) in Hnext by lia.
          congruence. }
      rewrite (cleanup_run_stop _ pos 1 p1 res x Hrd Hx1).
      simpl. rewrite Hlen.
      replace ((pos + (1 - 1) / 2) mod len orig) with pos
        by (rewrite Z.mod_small; lia).
      rewrite wr_in_range by (unfold len in *; lia). simpl.
      apply IH.
      * lia.
      * lia.
      * now rewrite length_insert.
      * subst p1. now rewrite length_insert.
      * exact Hno1.
      * intros j Hj. subst p1. rewrite list_lookup_insert_ne by lia.
        apply Hrest. lia.
      * intros j Hj. destruct (Nat.eq_dec j (Z.to_nat pos)) as [->|Hne].
        -- rewrite list_lookup_insert_eq by (unfold len in *; lia).
           now rewrite Horig.
        -- rewrite list_lookup_insert_ne by lia. apply Hflag. lia.
    + rewrite wr_in_range by (unfold len in *; lia). simpl.
      apply IH.
      * lia.
      * lia.
      * now rewrite length_insert.
      * exact Hpeaks.
      * intros j x Hj Hx.
        destruct (Nat.eq_dec j (Z.to_nat pos)) as [->|Hne].
        -- rewrite Hpk in Hx. injection Hx as <-. lia.
        -- apply (Hno j x); [lia|exact Hx].
      * intros j Hj. apply Hrest. lia.
      * intros j Hj. destruct (Nat.eq_dec j (Z.to_nat pos)) as [->|Hne].
        -- rewrite list_lookup_insert_eq by (unfold len in *; lia).
           rewrite Horig. simpl. unfold flag. now rewrite E.
        -- rewrite list_lookup_insert_ne by lia. apply Hflag. lia.
Qed.

(** X14.  Where no two ones of the input stand at consecutive positions
    of the array, [_peak_cleanup] stores a 1 at each position of a one
    and a 0 at every other position: the peaks stay where they are.
    This holds also with a one at the last and a one at the first
    position, neighbours on the circle: the first has been cleared when
    the search from the last one wraps around to it. *)
Theorem peak_cleanup_keeps_isolated_peaks (sub_peak_array resulting_peaks
  : list Z) :
  length resulting_peaks = length sub_peak_array ->
  isolated sub_peak_array ->
  exists sub_peak_array',
    Gpu._peak_cleanup sub_peak_array resulting_peaks
    = inr (sub_peak_array', map flag sub_peak_array).
Proof.
  intros Hres Hiso. unfold Gpu._peak_cleanup.
  apply (cleanup_loop_isolated sub_peak_array Hiso).
  - unfold len. lia.
  - unfold len. lia.
  - exact Hres.
  - reflexivity.
  - intros j x Hj. lia.
  - reflexivity.
  - intros j Hj. lia.
Qed.

Lemma peak_cleanup_keeps_isolated_peaks_witness :
  exists sub_peak_array',
    Gpu._peak_cleanup [1; 0; 0; 1; 0; 1] [7; 7; 7; 7; 7; 7]
    = inr (sub_peak_array', [1; 0; 0; 1; 0; 1]).
Proof.
  apply (peak_cleanup_keeps_isolated_peaks [1; 0; 0; 1; 0; 1]
           [7; 7; 7; 7; 7; 7]); [reflexivity|].
  intros j Hj.
  do 6 (destruct j as [|j]; [first [discriminate Hj|vm_compute; discriminate]|]).
  discriminate Hj.
Defined.

(** ** The CPU library: the peaks of a ROI *)

Lemma filter_all {A} (f : A -> bool) (l : list A) :
  Forall (fun x => f x = true) l -> List.filter f l = l.
Proof.
  induction 1 as [|x l Hx _ IH]; [reflexivity|].
  simpl. now rewrite Hx, IH.
Qed.

Lemma cut_all (z roi_len : Z) (peaks : list Z) :
  Forall (fun p => (z / 2 <=? p) && (p <=? roi_len - z / 2) = true)
    (Cpu.cut z roi_len peaks).
Proof.
  unfold Cpu.cut. apply List.Forall_forall. intros p Hp.
  now apply List.filter_In in Hp.
Qed.

Lemma Forall_tail_of {A} (P : A -> Prop) (l : list A) :
  Forall P l -> Forall P (tail l).
Proof. intros H. destruct H; [constructor|assumption]. Qed.

(** The second filter of the source removes nothing: the number of peaks
    is the length of the array of peaks. *)
Lemma surviving_count (roi_len : Z) (cut_edges : bool) (found : list Z) :
  snd (Cpu.surviving roi_len cut_edges found)
  = len (fst (Cpu.surviving roi_len cut_edges found)).
Proof.
  unfold Cpu.surviving. destruct cut_edges; [|reflexivity].
  simpl. f_equal.
  apply filter_all.
  destruct (_ && _); [apply Forall_tail_of|]; apply cut_all.
Qed.

(** X15.  Whatever [find_peaks] returned, the body of
    [crossing_direction_array_from_roiset] reads no peak that is not
    there: for a profile of at least two samples it returns a row, of two
    values that are BACKGROUND or a direction in [0, 180). *)
Theorem crossing_direction_returns (roi_len : Z) (cut_edges : bool)
  (found : list Z) :
  roi_len / 2 <> 0 ->
  exists d0 d1,
    Cpu.crossing_direction roi_len cut_edges found = inr (d0, d1)
    /\ direction_value d0 /\ direction_value d1.
Proof.
  intros Hz.
  pose proof (surviving_count roi_len cut_edges found) as Hcount.
  unfold Cpu.crossing_direction.
  destruct (Cpu.surviving roi_len cut_edges found) as [peaks amount].
  simpl in Hcount. subst amount.
  rewrite (fdiv_nonzero _ _ Hz). simpl.
  pose proof direction_value_background as Hb.
  pose proof direction_value_pymod as Hm.
  unfold Cpu.single, Cpu.midpoint.
  destruct peaks as [|e0 [|e1 [|e2 [|e3 [|e4 rest]]]]].
  6:{ replace (len (e0 :: e1 :: e2 :: e3 :: e4 :: rest) =? 1) with false
        by (symmetry; apply Z.eqb_neq; unfold len; simpl length; lia).
      replace (len (e0 :: e1 :: e2 :: e3 :: e4 :: rest) =? 2) with false
        by (symmetry; apply Z.eqb_neq; unfold len; simpl length; lia).
      replace (len (e0 :: e1 :: e2 :: e3 :: e4 :: rest) =? 3) with false
        by (symmetry; apply Z.eqb_neq; unfold len; simpl length; lia).
      replace (len (e0 :: e1 :: e2 :: e3 :: e4 :: rest) =? 4) with false
        by (symmetry; apply Z.eqb_neq; unfold len; simpl length; lia).
      eauto. }
  all: simpl;
    repeat match goal with
           | |- context [Cpu.opposite ?x ?y] => destruct (Cpu.opposite x y)
           end;
    eauto.
Qed.

Lemma crossing_direction_returns_witness :
  exists d0 d1,
    Cpu.crossing_direction 720 true [90; 180; 270; 450; 540; 630] = inr (d0, d1)
    /\ direction_value d0 /\ direction_value d1.
Proof.
  apply (crossing_direction_returns 720 true [90; 180; 270; 450; 540; 630]).
  vm_compute. discriminate.
Defined.

(** X16.  The body of [non_crossing_direction_array_from_roiset] returns
    a value for every profile of at least two samples, BACKGROUND or a
    direction in [0, 180).  With one or two peaks it is the value that
    [crossing_direction_array_from_roiset] stores in both slots; with
    any other number of peaks it is BACKGROUND. *)
Theorem non_crossing_direction_returns (roi_len : Z) (cut_edges : bool)
  (found : list Z) :
  roi_len / 2 <> 0 ->
  exists d,
    Cpu.non_crossing_direction roi_len cut_edges found = inr d
    /\ direction_value d
    /\ (snd (Cpu.surviving roi_len cut_edges found) = 1
        \/ snd (Cpu.surviving roi_len cut_edges found) = 2 ->
        Cpu.crossing_direction roi_len cut_edges found = inr (d, d))
    /\ (snd (Cpu.surviving roi_len cut_edges found) <> 1 ->
        snd (Cpu.surviving roi_len cut_edges found) <> 2 ->
        d = BACKGROUND_COLOR).
Proof.
  intros Hz.
  pose proof (surviving_count roi_len cut_edges found) as Hcount.
  unfold Cpu.non_crossing_direction, Cpu.crossing_direction.
  destruct (Cpu.surviving roi_len cut_edges found) as [peaks amount].
  simpl in Hcount. subst amount.
  rewrite (fdiv_nonzero _ _ Hz). simpl.
  pose proof direction_value_background as Hb.
  pose proof direction_value_pymod as Hm.
  unfold Cpu.single, Cpu.midpoint.
  destruct peaks as [|e0 [|e1 [|e2 rest]]].
  - simpl. eexists. split; [reflexivity|]. split; [exact Hb|].
    split; [|reflexivity]. unfold len. simpl. lia.
  - simpl. eexists. split; [reflexivity|]. split; [apply Hm|].
    split; [reflexivity|]. unfold len. simpl. lia.
  - simpl. eexists. split; [reflexivity|]. split; [apply Hm|].
    split; [reflexivity|]. unfold len. simpl. lia.
  - replace (len (e0 :: e1 :: e2 :: rest) =? 1) with false
      by (symmetry; apply Z.eqb_neq; unfold len; simpl length; lia).
    replace (len (e0 :: e1 :: e2 :: rest) =? 2) with false
      by (symmetry; apply Z.eqb_neq; unfold len; simpl length; lia).
    eexists. split; [reflexivity|]. split; [exact Hb|].
    split; [|reflexivity]. unfold len. simpl length. lia.
Qed.

Lemma non_crossing_direction_returns_witness :
  exists d,
    Cpu.non_crossing_direction 720 true [270; 450] = inr d
    /\ direction_value d
    /\ (snd (Cpu.surviving 720 true [270; 450]) = 1
        \/ snd (Cpu.surviving 720 true [270; 450]) = 2 ->
        Cpu.crossing_direction 720 true [270; 450] = inr (d, d))
    /\ (snd (Cpu.surviving 720 true [270; 450]) <> 1 ->
        snd (Cpu.surviving 720 true [270; 450]) <> 2 ->
        d = BACKGROUND_COLOR).
Proof.
  apply (non_crossing_direction_returns 720 true [270; 450]).
  vm_compute. discriminate.
Defined.

Lemma filter_refine {A} (f g h : A -> bool) (l : list A) :
  (forall x, g x = f x && h x) ->
  List.filter g l = List.filter h (List.filter f l).
Proof.
  intros Hg. induction l as [|x l IH]; [reflexivity|].
  simpl. rewrite Hg. destruct (f x); simpl; [|exact IH].
  destruct (h x); now rewrite IH.
Qed.

Lemma ascending_filter (f : Z -> bool) (l : list Z) :
  ascending l -> ascending (List.filter f l).
Proof.
  induction l as [|p l IH]; [trivial|].
  intros [Hp Hl]. simpl. destruct (f p); [|now apply IH].
  split; [|now apply IH].
  apply List.Forall_forall. intros q Hq. apply List.filter_In in Hq.
  rewrite List.Forall_forall in Hp. now apply Hp.
Qed.

Lemma isin_In (x : Z) (peaks : list Z) :
  Cpu.isin x peaks = true <-> In x peaks.
Proof.
  unfold Cpu.isin. rewrite existsb_exists. split.
  - intros (y & Hy & E). apply Z.eqb_eq in E. now subst y.
  - intros Hx. exists x. split; [exact Hx|apply Z.eqb_refl].
Qed.

(** X17.  The profile is extended by half a period on each side, so the
    two ends of the window, [z//2] and [len(roi) - z//2], are one
    position of the measurement.  When [find_peaks], whose indices
    ascend, reports a peak at both, the one at the lower end is dropped
    and the one at the upper end is kept: the peaks are those of
    [found] above [z//2] and up to [len(roi) - z//2]. *)
Theorem seam_peak_counted_once (roi_len : Z) (found : list Z) :
  0 <= roi_len ->
  ascending found ->
  In (roi_len / 2 / 2) found ->
  In (roi_len - roi_len / 2 / 2) found ->
  let kept :=
    List.filter
      (fun p => (roi_len / 2 / 2 <? p) && (p <=? roi_len - roi_len / 2 / 2))
      found in
  Cpu.surviving roi_len true found = (kept, len kept).
Proof.
  intros Hlen Hasc Hlo Hhi kept.
  pose proof (surviving_count roi_len true found) as Hcount.
  assert (Hfst : fst (Cpu.surviving roi_len true found) = kept).
  2:{ destruct (Cpu.surviving roi_len true found) as [peaks amount].
      simpl in *. now subst. }
  clear Hcount. unfold Cpu.surviving. cbn [fst].
  set (m := roi_len / 2 / 2) in *. set (hi := roi_len - m) in *.
  assert (Hm : m <= hi) by (subst m hi; lia).
  assert (Hinlo : In m (Cpu.cut (roi_len / 2) roi_len found)).
  { apply List.filter_In. split; [exact Hlo|]. fold m. fold hi. lia. }
  assert (Hinhi : In hi (Cpu.cut (roi_len / 2) roi_len found)).
  { apply List.filter_In. split; [exact Hhi|]. fold m. fold hi. lia. }
  fold m. fold hi.
  rewrite (proj2 (isin_In _ _) Hinlo), (proj2 (isin_In _ _) Hinhi). simpl.
  subst kept.
  rewrite (filter_refine
             (fun p => (roi_len / 2 / 2 <=? p)
                       && (p <=? roi_len - roi_len / 2 / 2))
             _ (fun p => m <? p)).
  2:{ intros x. fold m. fold hi. lia. }
  fold (Cpu.cut (roi_len / 2) roi_len found).
  pose proof (ascending_filter
                (fun p => (roi_len / 2 / 2 <=? p)
                          && (p <=? roi_len - roi_len / 2 / 2))
                found Hasc) as Hcut.
  fold (Cpu.cut (roi_len / 2) roi_len found) in Hcut.
  pose proof (cut_all (roi_len / 2) roi_len found) as Hall.
  destruct (Cpu.cut (roi_len / 2) roi_len found) as [|h t]; [destruct Hinlo|].
  destruct Hcut as [Hh Ht]. rewrite List.Forall_forall in Hh.
  assert (Hhm : h = m).
  { destruct Hinlo as [E|Hin]; [exact E|].
    apply Hh in Hin. inversion Hall as [|? ? Hhr _]; subst. fold m in Hhr.
    lia. }
  subst h. simpl. replace (m <? m) with false by lia.
  symmetry. apply filter_all. apply List.Forall_forall. intros q Hq.
  apply Hh in Hq. lia.
Qed.

Lemma seam_peak_counted_once_witness :
  Cpu.surviving 720 true [180; 270; 450; 540]
  = ([270; 450; 540], 3).
Proof.
  apply (seam_peak_counted_once 720 [180; 270; 450; 540]).
  - lia.
  - simpl. repeat constructor; lia.
  - simpl. auto.
  - simpl. auto 10.
Defined.

(** ** The extension of a profile *)

Lemma extend_profile_parts {A} (roi : list A) :
  Cpu.extend_profile roi
  = drop (Z.to_nat (len roi / 2)) roi ++ roi
    ++ take (Z.to_nat (len roi / 2)) roi.
Proof.
  unfold Cpu.extend_profile, Cpu.slice_from, Cpu.slice_to.
  assert (Hn : 0 <= len roi) by (unfold len; lia).
  replace (len roi / 2 <? 0) with false by lia.
  destruct (- len roi / 2 <? 0) eqn:E.
  - do 3 f_equal. lia.
  - assert (Hz : len roi = 0) by lia.
    rewrite Hz. reflexivity.
Qed.

(** X18.  The extended profile has twice the length of the profile,
    for an odd length too: it fills the row of [2*z] entries that
    [zaxis_roiset] and [zaxis_from_imagej_roiset] allocate for it. *)
Theorem extend_profile_length {A} (roi : list A) :
  len (Cpu.extend_profile roi) = 2 * len roi.
Proof.
  rewrite extend_profile_parts. unfold len.
  rewrite !length_app, length_drop, length_take. lia.
Qed.

(** X19.  The extended profile is the periodic profile, started
    [ceil(z/2)] samples before its first: index [k] holds the sample
    [(k - ceil(z/2)) mod z].  For an odd [z] this is not the shift
    [z//2] that the direction functions subtract from a peak index. *)
Theorem extend_profile_periodic {A} (roi : list A) (k : Z) :
  0 <= k < 2 * len roi ->
  Cpu.extend_profile roi !! Z.to_nat k
  = roi !! Z.to_nat ((k - (len roi + 1) / 2) mod len roi).
Proof.
  intros Hk. rewrite extend_profile_parts.
  assert (Hn : 0 < len roi) by lia.
  set (z := len roi) in *.
  assert (Hz : Z.of_nat (length roi) = z) by reflexivity.
  destruct (Z.lt_ge_cases k ((z + 1) / 2)) as [Hlow|Hge].
  - rewrite lookup_app_l by (rewrite length_drop; lia).
    rewrite lookup_drop. f_equal.
    replace ((k - (z + 1) / 2) mod z) with (k - (z + 1) / 2 + z)
      by (apply Z.mod_unique with (q := -1); lia).
    lia.
  - rewrite lookup_app_r by (rewrite length_drop; lia).
    rewrite length_drop.
    destruct (Z.lt_ge_cases k ((z + 1) / 2 + z)) as [Hmid|Hhigh].
    + rewrite lookup_app_l by lia. f_equal.
      rewrite Z.mod_small by lia. lia.
    + rewrite lookup_app_r by lia.
      rewrite lookup_take_lt by lia. f_equal.
      replace ((k - (z + 1) / 2) mod z) with (k - (z + 1) / 2 - z)
        by (apply Z.mod_unique with (q := 1); lia).
      lia.
Qed.

Lemma extend_profile_periodic_witness :
  Cpu.extend_profile [10; 11; 12; 13; 14] !! Z.to_nat 1
  = [10; 11; 12; 13; 14] !! Z.to_nat ((1 - (len [10; 11; 12; 13; 14] + 1) / 2)
                                      mod len [10; 11; 12; 13; 14]).
Proof.
  apply (extend_profile_periodic [10; 11; 12; 13; 14] 1).
  unfold len. simpl. lia.
Defined.

(** X20.  Extending a profile does not change its background mask. *)
Theorem background_mask_of_extension (roi : list Q) (threshold : Q) :
  Cpu.create_background_mask (Cpu.extend_profile roi) threshold
  = Cpu.create_background_mask roi threshold.
Proof.
  rewrite extend_profile_parts. unfold Cpu.create_background_mask.
  rewrite !forallb_app.
  destruct (forallb _ roi) eqn:E.
  - rewrite forallb_forall in E.
    assert (Hd : forallb (fun x => Qlt_b x threshold)
                   (drop (Z.to_nat (len roi / 2)) roi) = true).
    { apply forallb_forall. intros x Hx. apply E.
      apply list_elem_of_In. apply list_elem_of_In in Hx.
      eapply subseteq_drop, Hx. }
    assert (Ht : forallb (fun x => Qlt_b x threshold)
                   (take (Z.to_nat (len roi / 2)) roi) = true).
    { apply forallb_forall. intros x Hx. apply E.
      apply list_elem_of_In. apply list_elem_of_In in Hx.
      eapply subseteq_take, Hx. }
    now rewrite Hd, Ht.
  - simpl. apply andb_false_r.
Qed.

(** ** [_peak_cleanup] on plateaus *)

(** Two plateaus that share a position are one plateau. *)
Lemma plateau_unique (a : list Z) (s k s' k' j : Z) :
  plateau a s k -> plateau a s' k' ->
  s <= j < s + k -> s' <= j < s' + k' ->
  s = s' /\ k = k'.
Proof.
  intros (Hs & Hk & Hn & Hones & Hleft & Hright)
         (Hs' & Hk' & Hn' & Hones' & Hleft' & Hright') Hj Hj'.
  assert (E : s = s').
  { destruct (Z.lt_trichotomy s s') as [Hlt|[E|Hlt]]; [|exact E|].
    - destruct (Hleft' ltac:(lia)). apply Hones. lia.
    - destruct (Hleft ltac:(lia)). apply Hones'. lia. }
  subst s'. split; [reflexivity|].
  destruct (Z.lt_trichotomy k k') as [Hlt|[E|Hlt]]; [|exact E|].
  - destruct (Hright ltac:(lia)). apply Hones'. lia.
  - destruct (Hright' ltac:(lia)). apply Hones. lia.
Qed.

(** The inner loop goes over the ones that follow [pos + offset - 1] in
    the array, clears them in both arrays, and stops at the first entry
    that is not a one, or at the end of the array: the entry it reads
    there, the first of the array, has been cleared before. *)
Lemma cleanup_run_char : forall fuel pos offset peaks res,
  0 <= pos -> 1 <= offset -> pos + offset <= len peaks ->
  len peaks - (pos + offset) <= Z.of_nat fuel ->
  length res = length peaks ->
  no_one_upto peaks (pos + offset) ->
  exists offset' peaks' res',
    Gpu.cleanup_run fuel pos offset peaks res = inr (offset', (peaks', res'))
    /\ offset <= offset' /\ pos + offset' <= len peaks
    /\ length peaks' = length peaks /\ length res' = length res
    /\ (forall j, pos + offset <= j < pos + offset' ->
                  peaks !! Z.to_nat j = Some 1
                  /\ peaks' !! Z.to_nat j = Some 0
                  /\ res' !! Z.to_nat j = Some 0)
    /\ (forall j : nat, ~ pos + offset <= Z.of_nat j < pos + offset' ->
                        peaks' !! j = peaks !! j /\ res' !! j = res !! j)
    /\ (pos + offset' < len peaks ->
        peaks !! Z.to_nat (pos + offset') <> Some 1).
Proof.
  assert (Hstop : forall fuel pos offset peaks res x,
            rd peaks ((pos + offset) mod len peaks) = inr x -> x <> 1 ->
            pos + offset <= len peaks ->
            (pos + offset < len peaks ->
             peaks !! Z.to_nat (pos + offset) <> Some 1) ->
            exists offset' peaks' res',
              Gpu.cleanup_run fuel pos offset peaks res
              = inr (offset', (peaks', res'))
              /\ offset <= offset' /\ pos + offset' <= len peaks
              /\ length peaks' = length peaks /\ length res' = length res
              /\ (forall j, pos + offset <= j < pos + offset' ->
                            peaks !! Z.to_nat j = Some 1
                            /\ peaks' !! Z.to_nat j = Some 0
                            /\ res' !! Z.to_nat j = Some 0)
              /\ (forall j : nat,
                     ~ pos + offset <= Z.of_nat j < pos + offset' ->
                     peaks' !! j = peaks !! j /\ res' !! j = res !! j)
              /\ (pos + offset' < len peaks ->
                  peaks !! Z.to_nat (pos + offset') <> Some 1)).
  { intros fuel pos offset peaks res x Hrd Hx Hle Hnext.
    exists offset, peaks, res.
    rewrite (cleanup_run_stop fuel pos offset peaks res x Hrd Hx).
    repeat split; try lia; try reflexivity; try exact Hnext.
    all: lia. }
  induction fuel as [|fuel IH];
    intros pos offset peaks res Hpos Hoff Hle Hfuel Hres Hno.
  - assert (E : pos + offset = len peaks) by lia.
    destruct (rd_in_range peaks 0) as (x & Hrd & Hx); [lia|].
    apply (Hstop _ _ _ _ _ x); [| |lia|lia].
    + now rewrite E, Z.mod_same by lia.
    + apply (Hno 0%nat x); [lia|exact Hx].
  - destruct (Z.eq_dec (pos + offset) (len peaks)) as [E|E].
    { destruct (rd_in_range peaks 0) as (x & Hrd & Hx); [lia|].
      apply (Hstop _ _ _ _ _ x); [| |lia|lia].
      + now rewrite E, Z.mod_same by lia.
      + apply (Hno 0%nat x); [lia|exact Hx]. }
    destruct (rd_in_range peaks (pos + offset)) as (x & Hrd & Hx); [lia|].
    destruct (Z.eq_dec x 1) as [->|Hx1].
    2:{ apply (Hstop _ _ _ _ _ x); [|exact Hx1|lia|].
        - now rewrite Z.mod_small by lia.
        - intros _. congruence. }
    simpl. rewrite Z.mod_small by lia. rewrite Hrd. simpl.
    rewrite wr_in_range by (unfold len in *; lia). simpl.
    rewrite wr_in_range by lia. simpl.
    set (idx := Z.to_nat (pos + offset)) in *.
    destruct (IH pos (offset + 1) (<[idx := 0]> peaks) (<[idx := 0]> res))
      as (offset' & peaks' & res' & Hrun & Hoff' & Hle' & Hlp & Hlr & Hin
          & Hout & Hnext).
    + lia.
    + lia.
    + rewrite len_insert. lia.
    + rewrite len_insert. lia.
    + now rewrite !length_insert.
    + intros j y Hj Hy. destruct (Nat.eq_dec j idx) as [->|Hne].
      * rewrite list_lookup_insert_eq in Hy by (unfold len in *; lia).
        injection Hy as <-. lia.
      * rewrite list_lookup_insert_ne in Hy by lia.
        apply (Hno j y); [lia|exact Hy].
    + rewrite len_insert in *. rewrite !length_insert in *.
      replace (pos + (offset + 1)) with (pos + offset + 1) in * by lia.
      exists offset', peaks', res'. split; [exact Hrun|].
      split; [lia|]. split; [lia|]. split; [exact Hlp|]. split; [exact Hlr|].
      split; [|split].
      * intros j Hj. destruct (Z.eq_dec j (pos + offset)) as [->|Hne].
        -- fold idx. split; [exact Hx|].
           destruct (Hout idx) as [Hp Hr]; [lia|].
           rewrite Hp, Hr.
           rewrite !list_lookup_insert_eq by (unfold len in *; lia).
           now split.
        -- destruct (Hin j) as (H1 & H2 & H3); [lia|].
           rewrite list_lookup_insert_ne in H1 by lia. now repeat split.
      * intros j Hj. destruct (Hout j) as [Hp Hr]; [lia|].
        rewrite Hp, Hr. rewrite !list_lookup_insert_ne by lia. now split.
      * intros Hlt. specialize (Hnext Hlt).
        now rewrite list_lookup_insert_ne in Hnext by lia.
Qed.

Lemma cleaned_prefix (a res0 res res' : list Z) (upto : Z) :
  cleaned a res0 res upto ->
  (forall j : nat, Z.of_nat j < upto -> res' !! j = res !! j) ->
  cleaned a res0 res' upto.
Proof.
  intros [Ha Hb] Hsame. split.
  - intros j x Hj Hx Hne. rewrite Hsame by lia. now apply (Ha j x).
  - intros s k Hp Hle. pose proof Hp as (Hs & Hk & _).
    destruct (Hb s k Hp Hle) as (H1 & H2 & H3).
    split; [|split].
    + rewrite Hsame by lia. exact H1.
    + intros j Hj Hne. rewrite Hsame by lia. now apply H2.
    + intros H3k. rewrite Hsame by lia. now apply H3.
Qed.

Lemma cleanup_loop_char (orig res0 : list Z) : forall fuel pos peaks res,
  0 <= pos <= len orig ->
  len orig - pos <= Z.of_nat fuel ->
  length peaks = length orig ->
  length res = length orig ->
  (forall j : nat, pos <= Z.of_nat j -> peaks !! j = orig !! j) ->
  no_one_upto peaks pos ->
  (0 < pos -> pos < len orig ->
   orig !! Z.to_nat (pos - 1) = Some 1 -> orig !! Z.to_nat pos <> Some 1) ->
  (forall j : nat, pos <= Z.of_nat j -> res !! j = res0 !! j) ->
  cleaned orig res0 res pos ->
  exists peaks' res',
    Gpu.cleanup_loop fuel pos peaks res = inr (peaks', res')
    /\ cleaned orig res0 res' (len orig).
Proof.
  induction fuel as [|fuel IH];
    intros pos peaks res Hpos Hfuel Hlp Hlr Hrest Hno Hedge Hres0 Hcl;
    assert (Hlen : len peaks = len orig) by (unfold len; lia).
  { simpl. replace (pos <? len peaks) with false by lia.
    exists peaks, res. split; [reflexivity|].
    now replace (len orig) with pos by lia. }
  simpl. destruct (pos <? len peaks) eqn:Hlt.
  2:{ exists peaks, res. split; [reflexivity|].
      now replace (len orig) with pos by lia. }
  apply Z.ltb_lt in Hlt.
  destruct (rd_in_range peaks pos) as (pk & -> & Hpk); [lia|]. simpl.
  assert (Horig : orig !! Z.to_nat pos = Some pk)
    by (rewrite <- Hrest by lia; exact Hpk).
  destruct (pk =? 1) eqn:E.
  - apply Z.eqb_eq in E. subst pk.
    rewrite wr_in_range by lia. simpl.
    set (p1 := <[Z.to_nat pos := 0]> peaks).
    assert (Hlp1 : length p1 = length orig)
      by (subst p1; now rewrite length_insert).
    assert (Hlen1 : len p1 = len orig) by (unfold len; lia).
    destruct (cleanup_run_char (length p1) pos 1 p1 res)
      as (k & p2 & res2 & -> & Hk1 & Hkn & Hlp2 & Hlr2 & Hin & Hout & Hnext).
    + lia.
    + lia.
    + lia.
    + unfold len. lia.
    + lia.
    + intros j x Hj Hx. subst p1.
      destruct (Nat.eq_dec j (Z.to_nat pos)) as [->|Hne].
      * rewrite list_lookup_insert_eq in Hx by (unfold len in *; lia).
        injection Hx as <-. lia.
      * rewrite list_lookup_insert_ne in Hx by lia.
        apply (Hno j x); [lia|exact Hx].
    + simpl. rewrite Hlen. rewrite Hlen1 in *.
      assert (Hmid : 0 <= (k - 1) / 2 < k) by lia.
      rewrite (Z.mod_small (pos + (k - 1) / 2)) by lia.
      rewrite wr_in_range by (unfold len in *; lia). simpl.
      set (mid := pos + (k - 1) / 2) in *.
      assert (Hplat : plateau orig pos k).
      { split; [lia|]. split; [lia|]. split; [lia|].
        split; [|split].
        - intros j Hj. destruct (Z.eq_dec j pos) as [->|Hne]; [exact Horig|].
          destruct (Hin j) as (H1 & _); [lia|].
          subst p1. rewrite list_lookup_insert_ne in H1 by lia.
          now rewrite Hrest in H1 by lia.
        - intros Hp H1. apply (Hedge Hp); [lia|exact H1|exact Horig].
        - intros Hlt' H1. apply (Hnext Hlt').
          subst p1. rewrite list_lookup_insert_ne by lia.
          now rewrite Hrest by lia. }
      apply IH.
      * lia.
      * lia.
      * lia.
      * rewrite length_insert. lia.
      * intros j Hj. destruct (Hout j) as [-> _]; [lia|].
        subst p1. rewrite list_lookup_insert_ne by lia. apply Hrest. lia.
      * intros j x Hj Hx.
        destruct (Z_lt_le_dec (Z.of_nat j) (pos + 1)) as [Hlow|Hhigh].
        -- destruct (Hout j) as [Hp _]; [lia|]. rewrite Hp in Hx. subst p1.
           destruct (Nat.eq_dec j (Z.to_nat pos)) as [->|Hne].
           ++ rewrite list_lookup_insert_eq in Hx by (unfold len in *; lia).
              injection Hx as <-. lia.
           ++ rewrite list_lookup_insert_ne in Hx by lia.
              apply (Hno j x); [lia|exact Hx].
        -- destruct (Hin (Z.of_nat j)) as (_ & H2 & _); [lia|].
           rewrite Nat2Z.id in H2. rewrite Hx in H2. injection H2 as ->. lia.
      * intros _ Hlt' H1. destruct Hplat as (_ & _ & _ & _ & _ & Hright).
        replace (pos + k - 1 + 1) with (pos + k) in * by lia.
        now apply Hright.
      * intros j Hj. rewrite list_lookup_insert_ne by lia.
        destruct (Hout j) as [_ ->]; [lia|]. apply Hres0. lia.
      * split.
        -- intros j x Hj Hx Hne.
           assert (Hjp : j < pos).
           { destruct (Z_lt_le_dec j pos) as [?|Hge]; [assumption|].
             destruct Hplat as (_ & _ & _ & Hones & _).
             rewrite Hones in Hx by lia. congruence. }
           rewrite list_lookup_insert_ne by lia.
           destruct (Hout (Z.to_nat j)) as [_ ->]; [lia|].
           destruct Hcl as [Ha _]. apply (Ha j x); [lia|exact Hx|exact Hne].
        -- intros s k' Hp' Hle.
           destruct (Z_le_gt_dec (s + k') pos) as [Hold|Hnew].
           { assert (Hcl' : cleaned orig res0 (<[Z.to_nat mid := 1]> res2) pos).
             { apply (cleaned_prefix _ _ res); [exact Hcl|].
               intros j Hj. rewrite list_lookup_insert_ne by lia.
               destruct (Hout j) as [_ ->]; [lia|reflexivity]. }
             destruct Hcl' as [_ Hb]. now apply Hb. }
           pose proof Hp' as (Hs' & Hk' & _).
           destruct (plateau_unique orig pos k s k' (s + k' - 1) Hplat Hp')
             as [<- <-]; [lia|lia|].
           fold mid. split; [|split].
           ++ apply list_lookup_insert_eq. unfold len in *. lia.
           ++ intros j Hj Hne. rewrite list_lookup_insert_ne by lia.
              now destruct (Hin j) as (_ & _ & H3); [lia|].
           ++ intros H3. rewrite list_lookup_insert_ne by lia.
              destruct (Hout (Z.to_nat pos)) as [_ ->]; [lia|].
              apply Hres0. lia.
  - apply Z.eqb_neq in E.
    rewrite wr_in_range by (unfold len in *; lia). simpl.
    apply IH.
    + lia.
    + lia.
    + exact Hlp.
    + now rewrite length_insert.
    + intros j Hj. apply Hrest. lia.
    + intros j x Hj Hx. destruct (Nat.eq_dec j (Z.to_nat pos)) as [->|Hne].
      * rewrite Hpk in Hx. injection Hx as <-. exact E.
      * apply (Hno j x); [lia|exact Hx].
    + intros _ _ H1. replace (pos + 1 - 1) with pos in H1 by lia. congruence.
    + intros j Hj. rewrite list_lookup_insert_ne by lia. apply Hres0. lia.
    + split.
      * intros j x Hj Hx Hne. destruct (Z.eq_dec j pos) as [->|Hjp].
        -- apply list_lookup_insert_eq. unfold len in *. lia.
        -- rewrite list_lookup_insert_ne by lia.
           destruct Hcl as [Ha _]. apply (Ha j x); [lia|exact Hx|exact Hne].
      * intros s k Hp Hle.
        destruct (Z_le_gt_dec (s + k) pos) as [Hold|Hnew].
        -- assert (Hcl' : cleaned orig res0 (<[Z.to_nat pos := 0]> res) pos).
           { apply (cleaned_prefix _ _ res); [exact Hcl|].
             intros j Hj. now rewrite list_lookup_insert_ne by lia. }
           destruct Hcl' as [_ Hb]. now apply Hb.
        -- destruct Hp as (Hs & Hk & _ & Hones & _).
           rewrite Hones in Horig by lia. congruence.
Qed.

(** X21.  What [_peak_cleanup] stores, for any peak array: a 0 at every
    position that holds no one; for every plateau of [k] ones from
    position [s] a 1 at its middle [s + (k - 1) // 2], and a 0 at its
    other positions after the first.  The first position of a plateau is
    its middle when [k] is 1 or 2; for three ones or more the kernel
    never writes it, and it holds what the caller's array held. *)
Theorem peak_cleanup_plateaus (sub_peak_array resulting_peaks : list Z) :
  length resulting_peaks = length sub_peak_array ->
  exists sub_peak_array' resulting_peaks',
    Gpu._peak_cleanup sub_peak_array resulting_peaks
    = inr (sub_peak_array', resulting_peaks')
    /\ cleaned sub_peak_array resulting_peaks resulting_peaks'
         (len sub_peak_array).
Proof.
  intros Hres. unfold Gpu._peak_cleanup.
  apply cleanup_loop_char.
  - unfold len. lia.
  - unfold len. lia.
  - reflexivity.
  - exact Hres.
  - reflexivity.
  - intros j x Hj. lia.
  - lia.
  - reflexivity.
  - split.
    + intros j x Hj. lia.
    + intros s k (Hs & Hk & _) Hle. lia.
Qed.

Lemma peak_cleanup_plateaus_witness :
  exists sub_peak_array' resulting_peaks',
    Gpu._peak_cleanup [0; 1; 1; 1; 0; 1; 1; 0] [7; 7; 7; 7; 7; 7; 7; 7]
    = inr (sub_peak_array', resulting_peaks')
    /\ cleaned [0; 1; 1; 1; 0; 1; 1; 0] [7; 7; 7; 7; 7; 7; 7; 7]
         resulting_peaks' (len [0; 1; 1; 1; 0; 1; 1; 0]).
Proof.
  apply (peak_cleanup_plateaus [0; 1; 1; 1; 0; 1; 1; 0]
           [7; 7; 7; 7; 7; 7; 7; 7]).
  reflexivity.
Defined.

(** * The two backends on one signal *)

(** ** The peaks the CPU library keeps *)

Lemma is_peak_lookup (l : list Z) (i : Z) :
  0 <= i ->
  is_peak l i
  = match l !! Z.to_nat i with Some pk => pk =? 1 | None => false end.
Proof.
  intros Hi. unfold is_peak, rd.
  replace (i <? 0) with false by lia.
  destruct (i <? len l) eqn:E.
  - replace (0 <=? i) with true by lia. simpl.
    destruct (l !! Z.to_nat i); reflexivity.
  - rewrite andb_false_r. rewrite lookup_ge_None_2; [reflexivity|].
    unfold len in E. lia.
Qed.

(** The sample at position [p] stands at index [extended a p] of the
    extended profile, and the first sample once more, a period later. *)
Lemma extended_middle (a : list Z) (p : Z) :
  0 <= p < len a ->
  Cpu.extend_profile a !! Z.to_nat (extended a p) = a !! Z.to_nat p.
Proof.
  intros Hp. rewrite extend_profile_parts. unfold extended.
  set (n := len a) in *.
  assert (Hn : Z.of_nat (length a) = n) by reflexivity.
  rewrite lookup_app_r by (rewrite length_drop; lia).
  rewrite length_drop. rewrite lookup_app_l by lia. f_equal. lia.
Qed.

Lemma extended_seam (a : list Z) :
  2 <= len a ->
  Cpu.extend_profile a !! Z.to_nat (len a + extended a 0) = a !! 0%nat.
Proof.
  intros Hlen. rewrite extend_profile_parts. unfold extended.
  set (n := len a) in *.
  assert (Hn : Z.of_nat (length a) = n) by reflexivity.
  rewrite lookup_app_r by (rewrite length_drop; lia).
  rewrite length_drop. rewrite lookup_app_r by lia.
  rewrite lookup_take_lt by lia. f_equal. lia.
Qed.

Lemma filter_window_out (w pk : Z -> bool) (l : list Z) :
  (forall e, In e l -> w e = false) ->
  List.filter w (List.filter pk l) = [].
Proof.
  intros H. induction l as [|e l IH]; [reflexivity|].
  simpl. destruct (pk e); simpl.
  - rewrite (H e) by now left. apply IH. intros; apply H; now right.
  - apply IH. intros; apply H; now right.
Qed.

Lemma Qfloor_unique (y : Q) (k : Z) :
  (inject_Z k <= y)%Q -> (y < inject_Z (k + 1))%Q -> Qfloor y = k.
Proof.
  intros Hlo Hhi.
  pose proof (Qfloor_le y) as H1. pose proof (Qlt_floor y) as H2.
  assert (H3 : (inject_Z (Qfloor y) < inject_Z (k + 1))%Q) by lra.
  assert (H4 : (inject_Z k < inject_Z (Qfloor y + 1))%Q) by lra.
  rewrite <- Zlt_Qlt in H3, H4. lia.
Qed.

(** [%] forgets whole multiples of the divisor. *)
Lemma pymod_turn (x : Q) (k : Z) :
  (pymod (x - 180 * inject_Z k) 180 == pymod x 180)%Q.
Proof.
  unfold pymod.
  assert (Hy : ((x - 180 * inject_Z k) / 180 == x / 180 - inject_Z k)%Q)
    by field.
  assert (Hf : Qfloor ((x - 180 * inject_Z k) / 180) = Qfloor (x / 180) - k).
  { rewrite (Qfloor_comp _ _ Hy).
    pose proof (Qfloor_le (x / 180)) as H1.
    pose proof (Qlt_floor (x / 180)) as H2.
    set (y := (x / 180)%Q) in *.
    apply Qfloor_unique.
    - unfold Z.sub. rewrite inject_Z_plus, inject_Z_opp. lra.
    - replace (Qfloor y - k + 1) with (Qfloor y + 1 + - k) by lia.
      rewrite inject_Z_plus, inject_Z_opp. lra. }
  rewrite Hf. unfold Z.sub. rewrite inject_Z_plus, inject_Z_opp. ring.
Qed.

Section Backends.
Variables (a : list Z) (c : list Q).
Hypothesis Hlen : 0 < len a.
Hypothesis Heven : len a mod 2 = 0.
Hypothesis Hc : length c = length a.
Hypothesis Hzero : forall p, In p (peak_positions a) -> (cent c p == 0)%Q.

Lemma roi_half : 2 * len a / 2 = len a.
Proof. rewrite Z.mul_comm. apply Z.div_mul. discriminate. Qed.

(** What the window [[z//2, len(roi) - z//2]] keeps of the indices
    found: one copy of every peak, and the second copy of a peak at
    position 0, at the upper end of the window. *)
Lemma found_window :
  Cpu.cut (len a) (2 * len a) (cpu_found a)
  = map (extended a) (peak_positions a)
    ++ (if is_peak a 0 then [len a + extended a 0] else []).
Proof.
  unfold cpu_found, peak_positions, Cpu.cut.
  assert (Hlen2 : len (Cpu.extend_profile a) = 2 * len a).
  { rewrite extend_profile_parts. unfold len.
    rewrite !length_app, length_drop, length_take. lia. }
  rewrite Hlen2.
  assert (Hext : forall p, extended a p = len a / 2 + p)
    by (intros p; unfold extended; lia).
  set (n := len a) in *. set (f := n / 2) in *.
  assert (Hf : 1 <= f /\ 2 * f = n) by (subst f; lia).
  assert (Hsplit : seqZ 0 (2 * n)
                   = seqZ 0 f ++ map (Z.add f) (seqZ 0 n) ++ [f + n]
                     ++ seqZ (f + n + 1) (f - 1)).
  { replace (2 * n) with (f + (n + (1 + (f - 1)))) by lia.
    rewrite !seqZ_app by lia. f_equal. f_equal.
    change (map (Z.add f) (seqZ 0 n)) with (Z.add f <$> seqZ 0 n).
    rewrite fmap_add_seqZ. f_equal. lia. }
  rewrite Hsplit, !List.filter_app.
  rewrite (filter_window_out _ _ (seqZ 0 f)).
  2:{ intros e He. apply list_elem_of_In, elem_of_seqZ in He. lia. }
  rewrite (filter_window_out _ _ (seqZ (f + n + 1) (f - 1))).
  2:{ intros e He. apply list_elem_of_In, elem_of_seqZ in He. lia. }
  rewrite app_nil_r. cbn [app]. f_equal.
  - rewrite !filter_map_swap.
    rewrite (map_ext (extended a) (Z.add f)) by exact Hext.
    f_equal.
    rewrite (filter_ext_in
               (fun p => is_peak (Cpu.extend_profile a) (f + p)) (is_peak a)).
    2:{ intros p Hp. apply list_elem_of_In, elem_of_seqZ in Hp.
        rewrite !is_peak_lookup by lia.
        rewrite <- Hext, extended_middle by (fold n; lia). reflexivity. }
    apply filter_all. apply List.Forall_forall. intros p Hp.
    apply List.filter_In in Hp as [Hp _].
    apply list_elem_of_In, elem_of_seqZ in Hp. lia.
  - cbn [List.filter].
    assert (Hpk : is_peak (Cpu.extend_profile a) (f + n) = is_peak a 0).
    { rewrite !is_peak_lookup by lia.
      replace (f + n) with (len a + extended a 0)
        by (rewrite Hext; fold n; lia).
      rewrite extended_seam by (fold n; lia). reflexivity. }
    rewrite Hpk. destruct (is_peak a 0); [|reflexivity].
    cbn [List.filter]. replace ((f <=? f + n) && (f + n <=? 2 * n - f))
      with true by lia.
    f_equal. rewrite Hext. lia.
Qed.

(** Without a peak at position 0 the library keeps one index for every
    peak. *)
Lemma surviving_found_plain :
  is_peak a 0 = false ->
  Cpu.surviving (2 * len a) true (cpu_found a)
  = (map (extended a) (peak_positions a), len (peak_positions a)).
Proof.
  intros E0.
  pose proof (surviving_count (2 * len a) true (cpu_found a)) as Hcount.
  assert (Hfst : fst (Cpu.surviving (2 * len a) true (cpu_found a))
                 = map (extended a) (peak_positions a)).
  { unfold Cpu.surviving. rewrite roi_half. cbn [fst].
    rewrite found_window, E0, app_nil_r.
    assert (Hend : Cpu.isin (2 * len a - len a / 2)
                     (map (extended a) (peak_positions a)) = false).
    { apply not_true_iff_false. intros Hin. apply isin_In in Hin.
      apply in_map_iff in Hin as (p & Hp & Hin).
      apply peak_positions_range in Hin as [Hin _]. unfold extended in Hp.
      lia. }
    now rewrite Hend, andb_false_r. }
  destruct (Cpu.surviving (2 * len a) true (cpu_found a)) as [peaks amount].
  simpl in *. subst. f_equal. unfold len. now rewrite length_map.
Qed.

(** With a peak at position 0 both ends of the window hold a copy of
    it; the lower copy is dropped, and the peak at position 0 comes last,
    a period later. *)
Lemma surviving_found_seam :
  is_peak a 0 = true ->
  exists rest,
    peak_positions a = 0 :: rest
    /\ Cpu.surviving (2 * len a) true (cpu_found a)
       = (map (extended a) rest ++ [len a + extended a 0],
          len (peak_positions a)).
Proof.
  intros E0.
  assert (Hpos : exists rest, peak_positions a = 0 :: rest).
  { unfold peak_positions. rewrite seqZ_cons by lia. simpl.
    rewrite E0. eauto. }
  destruct Hpos as [rest Hrest]. exists rest. split; [exact Hrest|].
  pose proof (surviving_count (2 * len a) true (cpu_found a)) as Hcount.
  assert (Hfst : fst (Cpu.surviving (2 * len a) true (cpu_found a))
                 = map (extended a) rest ++ [len a + extended a 0]).
  { unfold Cpu.surviving. rewrite roi_half. cbn [fst].
    rewrite found_window, E0, Hrest. cbn [map app].
    assert (E : extended a 0 = len a / 2) by (unfold extended; lia).
    assert (Hlo : Cpu.isin (len a / 2)
                    (extended a 0
                     :: map (extended a) rest ++ [len a + extended a 0])
                  = true).
    { apply isin_In. left. exact E. }
    assert (Hhi : Cpu.isin (2 * len a - len a / 2)
                    (extended a 0
                     :: map (extended a) rest ++ [len a + extended a 0])
                  = true).
    { apply isin_In. right. apply in_or_app. right. left. lia. }
    now rewrite Hlo, Hhi. }
  destruct (Cpu.surviving (2 * len a) true (cpu_found a)) as [peaks amount].
  simpl in *. subst peaks amount. f_equal. rewrite Hrest. unfold len.
  rewrite length_app, length_map. simpl. lia.
Qed.

Lemma nonzero_length : ~ (inject_Z (len a) == 0)%Q.
Proof. change 0%Q with (inject_Z 0). rewrite inject_Z_injective. lia. Qed.

Lemma angle_agree p :
  In p (peak_positions a) ->
  (gpu_angle a c p == cpu_angle (2 * len a) (extended a p))%Q.
Proof.
  intros Hp. unfold gpu_angle, Gpu.angle_of, cpu_angle, extended.
  rewrite roi_half, (Hzero p Hp).
  replace (p + (len a + 1) / 2 - len a / 2) with p by lia.
  field. exact nonzero_length.
Qed.

(** The second copy of the peak at position 0 stands at 360 degrees. *)
Lemma angle_seam :
  (cpu_angle (2 * len a) (len a + extended a 0) == 360)%Q.
Proof.
  unfold cpu_angle, extended. rewrite roi_half.
  replace (len a + (0 + (len a + 1) / 2) - len a / 2) with (len a) by lia.
  field. exact nonzero_length.
Qed.

Lemma single_agree p :
  In p (peak_positions a) ->
  (gpu_single a c p == Cpu.single (cpu_angle (2 * len a) (extended a p)))%Q.
Proof.
  intros Hp. unfold gpu_single, Cpu.single. apply pymod_comp.
  rewrite (angle_agree p Hp). reflexivity.
Qed.

Lemma midpoint_agree p q :
  In p (peak_positions a) -> In q (peak_positions a) ->
  (gpu_midpoint a c p q
   == Cpu.midpoint (cpu_angle (2 * len a) (extended a q))
        (cpu_angle (2 * len a) (extended a p)))%Q.
Proof.
  intros Hp Hq. unfold gpu_midpoint, Cpu.midpoint. apply pymod_comp.
  rewrite (angle_agree p Hp), (angle_agree q Hq). field.
Qed.

Lemma pair_test_agree p q :
  In p (peak_positions a) -> In q (peak_positions a) ->
  gpu_opposite a c p q
  = Cpu.opposite (cpu_angle (2 * len a) (extended a q))
      (cpu_angle (2 * len a) (extended a p)).
Proof.
  intros Hp Hq. unfold gpu_opposite.
  apply opposite_agree; now apply angle_agree.
Qed.

Lemma gpu_angle_seam :
  In 0 (peak_positions a) -> (gpu_angle a c 0 == 0)%Q.
Proof.
  intros H0. unfold gpu_angle, Gpu.angle_of. rewrite (Hzero 0 H0).
  field. exact nonzero_length.
Qed.

(** A lone peak at position 0: the library sees it at 360 degrees, the
    kernel at 0, and the direction is the same. *)
Lemma single_seam :
  In 0 (peak_positions a) ->
  (gpu_single a c 0
   == Cpu.single (cpu_angle (2 * len a) (len a + extended a 0)))%Q.
Proof.
  intros H0. unfold gpu_single, Cpu.single.
  rewrite <- (pymod_turn (270 - gpu_angle a c 0) 2).
  apply pymod_comp. rewrite angle_seam, (gpu_angle_seam H0).
  change (inject_Z 2) with 2%Q. ring.
Qed.

(** Two peaks, one of them at position 0: the midpoint that the library
    takes is half a turn from that of the kernel, and the direction is
    the same. *)
Lemma midpoint_seam q :
  In 0 (peak_positions a) -> In q (peak_positions a) ->
  (gpu_midpoint a c 0 q
   == Cpu.midpoint (cpu_angle (2 * len a) (len a + extended a 0))
        (cpu_angle (2 * len a) (extended a q)))%Q.
Proof.
  intros H0 Hq. unfold gpu_midpoint, Cpu.midpoint.
  rewrite <- (pymod_turn (270 - (gpu_angle a c 0 + gpu_angle a c q) / 2) 1).
  apply pymod_comp.
  rewrite angle_seam, (gpu_angle_seam H0), <- (angle_agree q Hq).
  change (inject_Z 1) with 1%Q. field.
Qed.

End Backends.

(** ** The directions of the two backends *)

(** C1, as the code has it.  A signal of even length whose peaks both
    paths have found, with zero centroid offsets; the CPU library works
    on the extended profile, where it meets the peaks at the indices
    [cpu_found].  The two paths count the same number of peaks.  When
    that number is not three, and, when it is four, no peak stands at
    position 0 and no separation test is at its boundary, the first
    direction of the GPU kernel [_direction] and of the CPU function
    [crossing_direction_array_from_roiset] are equal; so are the second
    directions when the number of peaks is neither one nor two and, for
    four peaks, the first direction is not BACKGROUND. *)
Theorem direction_backends_agree (a : list Z) (c : list Q) :
  0 < len a ->
  len a mod 2 = 0 ->
  length c = length a ->
  (forall p, In p (peak_positions a) -> (cent c p == 0)%Q) ->
  len (peak_positions a) <> 3 ->
  (len (peak_positions a) = 4 -> is_peak a 0 = false /\ tie_free a c) ->
  snd (Cpu.surviving (2 * len a) true (cpu_found a)) = len (peak_positions a)
  /\ exists g0 g1 k0 k1,
      Gpu._direction a c (len (peak_positions a)) 2 = inr [g0; g1]
      /\ Cpu.crossing_direction (2 * len a) true (cpu_found a) = inr (k0, k1)
      /\ (g0 == k0)%Q
      /\ (len (peak_positions a) <> 1 -> len (peak_positions a) <> 2 ->
          (len (peak_positions a) = 4 -> ~ (g0 == BACKGROUND_COLOR)%Q) ->
          (g1 == k1)%Q).
Proof.
  intros Hlen Heven Hc Hzero Hne3 Hfour.
  assert (Hz : 2 * len a / 2 <> 0) by (rewrite roi_half; lia).
  pose proof (single_agree a c Hlen Heven Hc Hzero) as Hsingle.
  pose proof (midpoint_agree a c Hlen Heven Hc Hzero) as Hmid.
  pose proof (pair_test_agree a c Hlen Heven Hc Hzero) as Htest.
  pose proof (single_seam a c Hlen Heven Hc Hzero) as Hsseam.
  pose proof (midpoint_seam a c Hlen Heven Hc Hzero) as Hmseam.
  assert (Hmany : 5 <= len (peak_positions a) ->
                  Gpu._direction a c (len (peak_positions a)) 2
                  = inr [BACKGROUND_COLOR; BACKGROUND_COLOR]).
  { intros H5.
    destruct (Z.eq_dec (len (peak_positions a) mod 2) 0) as [He|Ho].
    - apply direction_too_many; [exact Hc|]. lia.
    - apply direction_odd; [exact Hc|exact Ho|lia]. }
  clear Hzero.
  destruct (is_peak a 0) eqn:E0.
  - destruct (surviving_found_seam a c Hlen Heven Hc E0) as (rest & EP & HS).
    split; [rewrite HS; reflexivity|].
    rewrite EP in HS, Hne3, Hfour, Hmany, Hsseam, Hmseam |- *.
    destruct rest as [|q [|q2 [|q3 [|q4 rest]]]].
    + do 4 eexists. split; [exact (direction_one_peak a c Hc 0 EP)|].
      split; [exact (crossing_one_peak _ _ _ Hz _ HS)|].
      split; [apply Hsseam; now left|].
      intros H1. exfalso. apply H1. reflexivity.
    + do 4 eexists. split; [exact (direction_two_peaks a c Hc 0 q EP)|].
      split; [exact (crossing_two_peaks _ _ _ Hz _ _ HS)|].
      split; [apply Hmseam; simpl; tauto|].
      intros _ H2. exfalso. apply H2. reflexivity.
    + exfalso. apply Hne3. reflexivity.
    + destruct (Hfour eq_refl) as [Hfalse _]. discriminate Hfalse.
    + assert (H5 : 5 <= len (0 :: q :: q2 :: q3 :: q4 :: rest))
        by (unfold len; simpl length; lia).
      exists BACKGROUND_COLOR, BACKGROUND_COLOR,
        BACKGROUND_COLOR, BACKGROUND_COLOR.
      split; [exact (Hmany H5)|].
      split; [apply (crossing_other _ _ _ Hz _ _ HS); now right|].
      split; [reflexivity|]. intros _ _ _. reflexivity.
  - pose proof (surviving_found_plain a c Hlen Heven Hc E0) as HS.
    split; [rewrite HS; reflexivity|].
    destruct (peak_positions a) as [|p0 [|p1 [|p2 [|p3 [|p4 rest]]]]] eqn:E.
    + exists BACKGROUND_COLOR, BACKGROUND_COLOR,
        BACKGROUND_COLOR, BACKGROUND_COLOR.
      split; [exact (direction_no_peak a c Hc _ E)|].
      split; [apply (crossing_other _ _ _ Hz _ _ HS); left; discriminate|].
      split; [reflexivity|]. intros _ _ _. reflexivity.
    + do 4 eexists. split; [exact (direction_one_peak a c Hc p0 E)|].
      split; [exact (crossing_one_peak _ _ _ Hz _ HS)|].
      split; [apply Hsingle; now left|].
      intros H1. exfalso. apply H1. reflexivity.
    + do 4 eexists. split; [exact (direction_two_peaks a c Hc p0 p1 E)|].
      split; [exact (crossing_two_peaks _ _ _ Hz _ _ HS)|].
      split; [apply Hmid; simpl; tauto|].
      intros _ H2. exfalso. apply H2. reflexivity.
    + exfalso. apply Hne3. reflexivity.
    + pose proof (crossing_four_peaks _ _ _ Hz _ _ _ _ HS) as HC.
      rewrite <- (Htest p0 p2), <- (Htest p1 p3) in HC by (simpl; tauto).
      pose proof (direction_four_peaks a c Hc p0 p1 p2 p3 E) as HG.
      unfold gpu_pair_slot in HG.
      destruct (gpu_opposite a c p0 p2).
      * do 4 eexists. split; [exact HG|]. split; [exact HC|].
        split; [apply Hmid; simpl; tauto|].
        intros _ _ _. destruct (gpu_opposite a c p1 p3); [|reflexivity].
        apply Hmid; simpl; tauto.
      * do 4 eexists. split; [exact HG|]. split; [exact HC|].
        split; [reflexivity|].
        intros _ _ H4. exfalso. apply (H4 eq_refl). reflexivity.
    + assert (H5 : 5 <= len (p0 :: p1 :: p2 :: p3 :: p4 :: rest))
        by (unfold len; simpl length; lia).
      exists BACKGROUND_COLOR, BACKGROUND_COLOR,
        BACKGROUND_COLOR, BACKGROUND_COLOR.
      split; [exact (Hmany H5)|].
      split; [apply (crossing_other _ _ _ Hz _ _ HS); now right|].
      split; [reflexivity|]. intros _ _ _. reflexivity.
Qed.

Lemma direction_backends_agree_witness :
  let a := flags 36 [3; 12; 21; 30] in
  let c := replicate 36 0%Q in
  snd (Cpu.surviving (2 * len a) true (cpu_found a)) = len (peak_positions a)
  /\ exists g0 g1 k0 k1,
      Gpu._direction a c (len (peak_positions a)) 2 = inr [g0; g1]
      /\ Cpu.crossing_direction (2 * len a) true (cpu_found a) = inr (k0, k1)
      /\ (g0 == k0)%Q
      /\ (len (peak_positions a) <> 1 -> len (peak_positions a) <> 2 ->
          (len (peak_positions a) = 4 -> ~ (g0 == BACKGROUND_COLOR)%Q) ->
          (g1 == k1)%Q).
Proof.
  apply (direction_backends_agree (flags 36 [3; 12; 21; 30])
           (replicate 36 0%Q)).
  - reflexivity.
  - reflexivity.
  - reflexivity.
  - intros p Hp. vm_compute in Hp.
    destruct Hp as [<-|[<-|[<-|[<-|[]]]]]; reflexivity.
  - vm_compute. discriminate.
  - intros _. split; [reflexivity|].
    intros p q Hp Hq. vm_compute in Hp, Hq.
    destruct Hp as [<-|[<-|[<-|[<-|[]]]]];
      destruct Hq as [<-|[<-|[<-|[<-|[]]]]];
      vm_compute; discriminate.
Defined.

(** Where the two backends part.  All signals but one have 360 samples,
    the profile of the CPU library is their extension to 720, and the
    centroid offsets are zero unless said otherwise.
    - Three peaks, at 10, 190 and 280 degrees: the CPU library reports
      the directions (170, 170), the GPU kernel BACKGROUND twice.
    - One peak, at 100 degrees: the CPU library stores its direction 170
      in both slots, the GPU kernel leaves BACKGROUND in the second.
    - One peak, at position 100 with the centroid offset 1/2: the GPU
      kernel adds the offset to the position and reports 169.5; the CPU
      library knows no offsets and reports 170.
    - Four peaks, at 0, 80, 180 and 260 degrees: the CPU library meets
      the peak at position 0 last, a period later, pairs the peaks the
      other way round and reports (100, 0) where the GPU kernel reports
      (0, 100).
    - Four peaks, at 5, 15, 105 and 195 degrees: the second pair is 180
      degrees apart, the first is not; the GPU kernel reports
      (BACKGROUND, 165), the CPU library BACKGROUND twice.
    - A signal of 9 samples with peaks at positions 0 and 4: the
      extension of an odd length holds the peak at position 0 twice
      within the window, at both copies found, and the seam rule does
      not apply; the CPU library counts three peaks, the GPU path two. *)
Lemma backends_differ :
  (let a := flags 360 [10; 190; 280] in
   exists g0 g1 k0 k1,
     Gpu._direction a (replicate 360 0%Q) (len (peak_positions a)) 2
     = inr [g0; g1]
     /\ Cpu.crossing_direction 720 true (cpu_found a) = inr (k0, k1)
     /\ ~ (Qabs (k0 - g0) <= 1 # 10000)%Q)
  /\ (let a := flags 360 [100] in
      exists g0 g1 k0 k1,
        Gpu._direction a (replicate 360 0%Q) (len (peak_positions a)) 2
        = inr [g0; g1]
        /\ Cpu.crossing_direction 720 true (cpu_found a) = inr (k0, k1)
        /\ ~ (Qabs (k1 - g1) <= 1 # 10000)%Q)
  /\ (let a := flags 360 [100] in
      let c := <[100%nat := (1 # 2)%Q]> (replicate 360 0%Q) in
      exists g0 g1 k0 k1,
        Gpu._direction a c (len (peak_positions a)) 2 = inr [g0; g1]
        /\ Cpu.crossing_direction 720 true (cpu_found a) = inr (k0, k1)
        /\ ~ (Qabs (k0 - g0) <= 1 # 10000)%Q)
  /\ (let a := flags 360 [0; 80; 180; 260] in
      exists g0 g1 k0 k1,
        Gpu._direction a (replicate 360 0%Q) (len (peak_positions a)) 2
        = inr [g0; g1]
        /\ Cpu.crossing_direction 720 true (cpu_found a) = inr (k0, k1)
        /\ ~ (Qabs (k0 - g0) <= 1 # 10000)%Q)
  /\ (let a := flags 360 [5; 15; 105; 195] in
      exists g0 g1 k0 k1,
        Gpu._direction a (replicate 360 0%Q) (len (peak_positions a)) 2
        = inr [g0; g1]
        /\ Cpu.crossing_direction 720 true (cpu_found a) = inr (k0, k1)
        /\ ~ (Qabs (k1 - g1) <= 1 # 10000)%Q)
  /\ (let a := flags 9 [0; 4] in
      len (peak_positions a) = 2
      /\ snd (Cpu.surviving 18 true (cpu_found a)) = 3).
Proof.
  repeat split;
    try (do 4 eexists; split; [vm_compute; reflexivity|];
         split; [vm_compute; reflexivity|];
         vm_compute; intros H; apply H; reflexivity).
Qed.
